(** * Translation dispatch and background job pipeline

    A shallow embedding of the client of the caption-translation service
    (the polling hook, the submit handler, the usage report call and the
    subtitle overlay, from [frontend/src]) together with the server-side
    components the client talks to (job manager, provider router), and
    the properties claimed about them.

    JavaScript strings are modelled as [string], numbers that the code
    uses as counters or percentages as [Z], arrays as [list], objects
    used as dictionaries as [gmap string _], [null]/[undefined] as
    [None]. *)

From stdpp Require Import base option list strings gmap sorting pretty.
From Stdlib Require Import Ascii ZArith Lia.

Local Open Scope string_scope.
Local Open Scope list_scope.
Local Open Scope stdpp_scope.
Local Open Scope Z_scope.

(** ** JavaScript values used by the client *)

(** Truthiness of a possibly absent string: [null], [undefined] and the
    empty string are falsy. *)
Definition truthy (s : option string) : bool :=
  match s with
  | Some "" => false
  | Some _ => true
  | None => false
  end.

(** [Array.prototype.join] on an array of strings. *)
Fixpoint join (sep : string) (xs : list string) : string :=
  match xs with
  | [] => ""
  | x :: rest =>
      match rest with
      | [] => x
      | _ :: _ => x +:+ sep +:+ join sep rest
      end
  end.

(** Plain concatenation of a list of strings, nothing in between. *)
Fixpoint concat_all (xs : list string) : string :=
  match xs with
  | [] => ""
  | x :: rest => x +:+ concat_all rest
  end.

(** Every text followed by the separator, and every text preceded by it. *)
Definition lead (sep : string) (xs : list string) : string :=
  concat_all (map (fun x => x +:+ sep) xs).

Definition trail (sep : string) (xs : list string) : string :=
  concat_all (map (fun x => sep +:+ x) xs).

(** ** services/api.ts: the data exchanged with the server *)

Inductive Status := Queued | Processing | Completed | Error.

#[global] Instance Status_eq_dec : EqDecision Status.
Proof. solve_decision. Defined.

Record JobStatusResponse := {
  job_id : string;
  status : Status;
  progress : Z;
  message : option string;
  video_id : option string;
  error : option string;
  translation_service : option string;
}.

Record TranslationSegment := {
  start : Z;
  duration : Z;
  original : string;
  translated : string;
}.

(** ** components/VideoPlayer/SubtitleOverlay.tsx *)

(** What the component hands to React: the two subtitle lines and the
    fullscreen marker of the enclosing [div]. *)
Record SubtitleContent := {
  subtitle_original : string;
  subtitle_translated : string;
  data_fullscreen : bool;
}.

(** The render function; [isFullscreen] is the component's state at the
    time of the render. [None] is the [null] the component returns. *)
Definition SubtitleOverlay (segments : list TranslationSegment)
    (isFullscreen : bool) : option SubtitleContent :=
  if (length segments =? 0)%nat then None
  else
    let originalText := join " " (map original segments) in
    let translatedText := join " " (map translated segments) in
    Some {| subtitle_original := originalText;
            subtitle_translated := translatedText;
            data_fullscreen := isFullscreen |}.

(** ** services/api.ts: what is sent and what comes back *)

Record VideoProcessRequest := {
  youtube_url : string;
  source_language : string;
  target_language : string;
  gemini_api_key : string;
  force_retranslate : option bool;
}.

Record VideoProcessResponse := {
  process_job_id : string;
  process_status : string;
  process_message : string;
}.

Record SubtitlesResponse := {
  subtitles_video_id : string;
  subtitles_source_language : string;
  subtitles_target_language : string;
  segments : list TranslationSegment;
}.

Record VideoCheckResponse := {
  exists_ : bool;
  translation_id : option string;
  check_video_id : option string;
}.

Record ModelUsage := {
  model : string;
  tokens : Z;
  model_input_tokens : Z;
  model_output_tokens : Z;
  model_requests : Z;
}.

Record DailyUsage := {
  date : string;
  daily_total_tokens : Z;
  daily_requests : Z;
}.

Record UsageStats := {
  stats_service : option string;
  stats_total_tokens : Z;
  stats_input_tokens : Z;
  stats_output_tokens : Z;
  stats_requests : Z;
  stats_models : list ModelUsage;
  stats_daily_usage : list DailyUsage;
  stats_period_days : Z;
}.

Record UsageStatsResponse := {
  services : option (list UsageStats);
  service : option string;
  total_tokens : Z;
  input_tokens : Z;
  output_tokens : Z;
  requests : Z;
  models : list ModelUsage;
  daily_usage : list DailyUsage;
  period_days : Z;
}.

(** A query parameter is a number or a string. *)
Inductive ParamValue := PNumber (n : Z) | PString (s : string).

(** One HTTP request issued through the axios instance [api]. *)
Inductive ApiCall :=
  | Get (url : string) (params : gmap string ParamValue)
  | Post (url : string) (data : VideoProcessRequest).

(** What axios rejects with: [error.response] is absent on a network
    failure; otherwise it carries the HTTP status and the [detail] field
    of the body, which is all the client reads of it. *)
Record ErrorResponse := {
  http_status : Z;
  detail : option string;
}.

Record AxiosError := {
  response : option ErrorResponse;
}.

(** The server as the client sees it, one answer per endpoint: either the
    typed body of a successful response or the error axios rejects with.
    The interceptors of [api] (the bearer token added to a request, the
    stored session dropped on a 401) leave both as they are. *)
Record Backend := {
  video_check : string -> string -> string -> AxiosError + VideoCheckResponse;
  video_process : VideoProcessRequest -> AxiosError + VideoProcessResponse;
  video_subtitles : string -> string -> string -> AxiosError + SubtitlesResponse;
  video_job_status : string -> AxiosError + JobStatusResponse;
  usage_stats : gmap string ParamValue -> AxiosError + UsageStatsResponse;
}.

(** ** The page: everything a handler can change *)

Record World := {
  sent : list ApiCall;              (* HTTP requests issued, oldest first *)
  alerts : list string;             (* messages shown with [alert] *)
  confirms : list string;           (* questions asked with [window.confirm] *)
  youtubeUrl : string;
  videoId : option string;
  processing : bool;
  jobId : option string;
  subtitles : option SubtitlesResponse;
  loading : bool;
  subtitlesError : option string;
}.

Definition initialWorld : World :=
  {| sent := []; alerts := []; confirms := []; youtubeUrl := "";
     videoId := None; processing := false; jobId := None;
     subtitles := None; loading := false; subtitlesError := None |}.

(** ** A state and exception monad for handlers

    An [async] function becomes a computation that threads the page and
    either returns a value or throws; [await] of a rejected promise is a
    throw. *)

Definition M (A : Type) : Type := World -> (AxiosError + A) * World.

Definition ret {A} (a : A) : M A := fun w => (inr a, w).

Definition throw {A} (e : AxiosError) : M A := fun w => (inl e, w).

Definition bind {A B} (m : M A) (k : A -> M B) : M B :=
  fun w =>
    match m w with
    | (inr a, w') => k a w'
    | (inl e, w') => (inl e, w')
    end.

Definition try_catch {A} (m : M A) (handler : AxiosError -> M A) : M A :=
  fun w =>
    match m w with
    | (inr a, w') => (inr a, w')
    | (inl e, w') => handler e w'
    end.

Definition modify (f : World -> World) : M unit := fun w => (inr tt, f w).

Notation "'let*' x ':=' m 'in' k" := (bind m (fun x => k))
  (at level 10, x name, m at level 100, k at level 200).
Notation "m >>> k" := (bind m (fun _ => k))
  (at level 90, right associativity).

(** The updates of the page, one per state variable. *)

Definition logRequest (call : ApiCall) (w : World) : World :=
  {| sent := sent w ++ [call]; alerts := alerts w;
     confirms := confirms w; youtubeUrl := youtubeUrl w;
     videoId := videoId w; processing := processing w;
     jobId := jobId w; subtitles := subtitles w;
     loading := loading w; subtitlesError := subtitlesError w |}.

Definition showAlert (msg : string) (w : World) : World :=
  {| sent := sent w; alerts := alerts w ++ [msg];
     confirms := confirms w; youtubeUrl := youtubeUrl w;
     videoId := videoId w; processing := processing w;
     jobId := jobId w; subtitles := subtitles w;
     loading := loading w; subtitlesError := subtitlesError w |}.

Definition askConfirm (question : string) (w : World) : World :=
  {| sent := sent w; alerts := alerts w;
     confirms := confirms w ++ [question]; youtubeUrl := youtubeUrl w;
     videoId := videoId w; processing := processing w;
     jobId := jobId w; subtitles := subtitles w;
     loading := loading w; subtitlesError := subtitlesError w |}.

Definition withYoutubeUrl (v : string) (w : World) : World :=
  {| sent := sent w; alerts := alerts w; confirms := confirms w;
     youtubeUrl := v; videoId := videoId w; processing := processing w;
     jobId := jobId w; subtitles := subtitles w;
     loading := loading w; subtitlesError := subtitlesError w |}.

Definition withVideoId (v : option string) (w : World) : World :=
  {| sent := sent w; alerts := alerts w; confirms := confirms w;
     youtubeUrl := youtubeUrl w; videoId := v; processing := processing w;
     jobId := jobId w; subtitles := subtitles w;
     loading := loading w; subtitlesError := subtitlesError w |}.

Definition withProcessing (v : bool) (w : World) : World :=
  {| sent := sent w; alerts := alerts w; confirms := confirms w;
     youtubeUrl := youtubeUrl w; videoId := videoId w; processing := v;
     jobId := jobId w; subtitles := subtitles w;
     loading := loading w; subtitlesError := subtitlesError w |}.

Definition withJobId (v : option string) (w : World) : World :=
  {| sent := sent w; alerts := alerts w; confirms := confirms w;
     youtubeUrl := youtubeUrl w; videoId := videoId w;
     processing := processing w; jobId := v; subtitles := subtitles w;
     loading := loading w; subtitlesError := subtitlesError w |}.

Definition withSubtitles (v : option SubtitlesResponse) (w : World) : World :=
  {| sent := sent w; alerts := alerts w; confirms := confirms w;
     youtubeUrl := youtubeUrl w; videoId := videoId w;
     processing := processing w; jobId := jobId w; subtitles := v;
     loading := loading w; subtitlesError := subtitlesError w |}.

Definition withLoading (v : bool) (w : World) : World :=
  {| sent := sent w; alerts := alerts w; confirms := confirms w;
     youtubeUrl := youtubeUrl w; videoId := videoId w;
     processing := processing w; jobId := jobId w;
     subtitles := subtitles w; loading := v;
     subtitlesError := subtitlesError w |}.

Definition withError (v : option string) (w : World) : World :=
  {| sent := sent w; alerts := alerts w; confirms := confirms w;
     youtubeUrl := youtubeUrl w; videoId := videoId w;
     processing := processing w; jobId := jobId w;
     subtitles := subtitles w; loading := loading w;
     subtitlesError := v |}.

(** [await api.get(...)] / [await api.post(...)]: the request is logged,
    then the server's answer is returned or thrown. *)
Definition await_call {A} (call : ApiCall) (answer : AxiosError + A) : M A :=
  fun w => (answer, logRequest call w).

Definition alert (msg : string) : M unit := modify (showAlert msg).

(** [window.confirm(question)]: the question is shown and the user's
    answer, an input of the run, is returned. *)
Definition window_confirm (question : string) (answer : bool) : M bool :=
  fun w => (inr answer, askConfirm question w).

Definition setYoutubeUrl (v : string) : M unit := modify (withYoutubeUrl v).
Definition setVideoId (v : option string) : M unit := modify (withVideoId v).
Definition setProcessing (v : bool) : M unit := modify (withProcessing v).
Definition setJobId (v : option string) : M unit := modify (withJobId v).
Definition setSubtitles (v : option SubtitlesResponse) : M unit :=
  modify (withSubtitles v).
Definition setLoading (v : bool) : M unit := modify (withLoading v).
Definition setError (v : option string) : M unit := modify (withError v).

(** [error.response?.data?.detail || fallback] *)
Definition detail_or (e : AxiosError) (fallback : string) : string :=
  match response e with
  | Some r => if truthy (detail r) then default fallback (detail r) else fallback
  | None => fallback
  end.

(** ** The video id in a YouTube URL

    The two regular expressions of [extractVideoId], written out over
    the bytes of the URL. *)

(** [[a-zA-Z0-9_-]] *)
Definition is_id_char (c : ascii) : bool :=
  let n := nat_of_ascii c in
  ((97 <=? n) && (n <=? 122))%nat || ((65 <=? n) && (n <=? 90))%nat
  || ((48 <=? n) && (n <=? 57))%nat || (n =? 95)%nat || (n =? 45)%nat.

(** [[a-zA-Z0-9_-]{n}] at the start of [s]: the characters matched. *)
Fixpoint take_id (n : nat) (s : string) : option string :=
  match n with
  | O => Some ""
  | S n' =>
      match s with
      | String c s' =>
          if is_id_char c then String c <$> take_id n' s' else None
      | EmptyString => None
      end
  end.

(** A literal at the start of [s]: what follows it. *)
Fixpoint strip_prefix (p s : string) : option string :=
  match p with
  | EmptyString => Some s
  | String c p' =>
      match s with
      | String d s' => if decide (c = d) then strip_prefix p' s' else None
      | EmptyString => None
      end
  end.

Definition or_else {A} (a b : option A) : option A :=
  match a with
  | Some x => Some x
  | None => b
  end.

(** [(?:youtube\.com\/watch\?v=|youtu\.be\/|youtube\.com\/embed\/)([a-zA-Z0-9_-]{11})]
    anchored at the start of [s]: the alternatives are tried in order. *)
Definition pattern1_here (s : string) : option string :=
  or_else (strip_prefix "youtube.com/watch?v=" s ≫= take_id 11)
    (or_else (strip_prefix "youtu.be/" s ≫= take_id 11)
       (strip_prefix "youtube.com/embed/" s ≫= take_id 11)).

(** The characters [.] does not match: LF, CR and, in UTF-8, U+2028 and
    U+2029. *)
Definition at_line_terminator (s : string) : bool :=
  match s with
  | String c rest =>
      let n := nat_of_ascii c in
      if ((n =? 10) || (n =? 13))%nat then true
      else
        match rest with
        | String c2 (String c3 _) =>
            ((n =? 226) && (nat_of_ascii c2 =? 128)
             && ((nat_of_ascii c3 =? 168) || (nat_of_ascii c3 =? 169)))%nat
        | _ => false
        end
  | EmptyString => false
  end.

(** [.*v=([a-zA-Z0-9_-]{11})] anchored at the start of [s]; the star is
    greedy, so a match further to the right wins. *)
Fixpoint dot_star_v (s : string) : option string :=
  let here := strip_prefix "v=" s ≫= take_id 11 in
  match s with
  | String _ s' =>
      if at_line_terminator s then here else or_else (dot_star_v s') here
  | EmptyString => here
  end.

(** [youtube\.com\/watch\?.*v=([a-zA-Z0-9_-]{11})] anchored at the start. *)
Definition pattern2_here (s : string) : option string :=
  strip_prefix "youtube.com/watch?" s ≫= dot_star_v.

(** [url.match(pattern)]: the leftmost position where the pattern
    matches; the result is the captured group. *)
Fixpoint search (here : string -> option string) (s : string) : option string :=
  match here s with
  | Some r => Some r
  | None =>
      match s with
      | String _ s' => search here s'
      | EmptyString => None
      end
  end.

Definition extractVideoId (url : string) : option string :=
  or_else (search pattern1_here url) (search pattern2_here url).

(** ** services/api.ts and the handlers that use it *)

Definition newline : string := String (ascii_of_nat 10) "".
Definition dquote : string := String (ascii_of_nat 34) "".

Section Client.

Variable backend : Backend.

(** *** videoApi *)

Definition videoApi_process (data : VideoProcessRequest) : M VideoProcessResponse :=
  await_call (Post "/api/video/process" data) (video_process backend data).

Definition videoApi_check (youtube_url source_language target_language : string)
    : M VideoCheckResponse :=
  await_call
    (Get "/api/video/check"
       (<["youtube_url" := PString youtube_url]>
          (<["source_language" := PString source_language]>
             {["target_language" := PString target_language]})))
    (video_check backend youtube_url source_language target_language).

Definition videoApi_getSubtitles (video_id source_language target_language : string)
    : M SubtitlesResponse :=
  await_call
    (Get ("/api/video/" +:+ video_id +:+ "/subtitles")
       (<["source_language" := PString source_language]>
          {["target_language" := PString target_language]}))
    (video_subtitles backend video_id source_language target_language).

Definition videoApi_getJobStatus (job_id : string) : M JobStatusResponse :=
  await_call (Get ("/api/video/job/" +:+ job_id +:+ "/status") ∅)
    (video_job_status backend job_id).

(** *** usageApi

    [days] is [None] when the argument is left out; the default value of
    the parameter is then used. *)
Definition getStats (service : option string) (days : option Z)
    : M UsageStatsResponse :=
  let days := default 30 days in
  let params : gmap string ParamValue := {["days" := PNumber days]} in
  let params :=
    if truthy service then <["service" := PString (default "" service)]> params
    else params in
  await_call (Get "/api/usage/stats" params) (usage_stats backend params).

(** *** hooks/useVideoTranslation.ts *)

Definition loadSubtitles (video_id source_language target_language : string)
    : M unit :=
  setLoading true >>>
  setError None >>>
  try_catch
    (let* data := videoApi_getSubtitles video_id source_language target_language in
     setSubtitles (Some data))
    (fun err =>
       setError (Some (detail_or err "Erro ao carregar legendas")) >>>
       setSubtitles None) >>>
  setLoading false.

(** *** MainApp: handleUrlSubmit

    [geminiApiKey], [sourceLanguage] and [targetLanguage] are the
    component's state when the handler runs; [shouldRetranslate] is the
    answer the user gives if asked. *)

Definition retranslate_question : string :=
  "Este vídeo já foi traduzido. Deseja retraduzir com as correções aplicadas?"
  +:+ newline +:+ newline +:+
  "Clique em " +:+ dquote +:+ "OK" +:+ dquote +:+ " para retraduzir ou "
  +:+ dquote +:+ "Cancelar" +:+ dquote +:+ " para usar a tradução existente.".

Definition handleUrlSubmit (geminiApiKey : option string)
    (sourceLanguage targetLanguage : string) (shouldRetranslate : bool)
    (url : string) : M unit :=
  if negb (truthy geminiApiKey) then
    alert "Por favor, configure sua chave de API do Gemini primeiro."
  else
    setYoutubeUrl url >>>
    let extractedId := extractVideoId url in
    if negb (truthy extractedId) then
      alert "URL do YouTube inválida."
    else
      setVideoId extractedId >>>
      setProcessing true >>>
      try_catch
        (let* check := videoApi_check url sourceLanguage targetLanguage in
         if exists_ check && truthy (check_video_id check) then
           let* answer := window_confirm retranslate_question shouldRetranslate in
           if answer then
             let* response := videoApi_process
               {| youtube_url := url;
                  source_language := sourceLanguage;
                  target_language := targetLanguage;
                  gemini_api_key := default "" geminiApiKey;
                  force_retranslate := Some true |} in
             setJobId (Some (process_job_id response))
           else
             loadSubtitles (default "" (check_video_id check))
               sourceLanguage targetLanguage >>>
             setProcessing false
         else
           let* response := videoApi_process
             {| youtube_url := url;
                source_language := sourceLanguage;
                target_language := targetLanguage;
                gemini_api_key := default "" geminiApiKey;
                force_retranslate := None |} in
           setJobId (Some (process_job_id response)))
        (fun error =>
           alert (detail_or error "Erro ao processar vídeo") >>>
           setProcessing false).

End Client.

(** ** hooks/useJobPolling.ts

    The hook is driven by events: React runs the effect (on mount and
    whenever [jobId] or [enabled] changes, after running the cleanup the
    previous run returned), an interval fires, or a pending
    [getJobStatus] call is answered or fails. The continuation of [poll]
    after its [await] runs as a separate event, later than the body of
    the effect that started it. *)

Record Hook := {
  jobStatus : option JobStatusResponse;
  isPolling : bool;
  intervalRef : option positive;     (* intervalRef.current *)
  intervals : gmap positive string;  (* running intervals and the jobId their poll closes over *)
  nextInterval : positive;           (* the id the next setInterval returns *)
  cleanup : bool;                    (* the last run of the effect returned its cleanup *)
  pending : gmap nat string;         (* getJobStatus calls not answered yet, by call number *)
  calls : list string;               (* jobId of every getJobStatus call, oldest first *)
}.

Definition initialHook : Hook :=
  {| jobStatus := None; isPolling := false; intervalRef := None;
     intervals := ∅; nextInterval := 1%positive; cleanup := false;
     pending := ∅; calls := [] |}.

Inductive Event :=
  | Effect (jobId : option string) (enabled : bool)
  | Tick (id : positive)
  | Resolve (call : nat) (answer : JobStatusResponse)
  | Reject (call : nat).

(** [if (intervalRef.current) clearInterval(intervalRef.current)] *)
Definition clearCurrent (h : Hook) : Hook :=
  match intervalRef h with
  | Some id =>
      {| jobStatus := jobStatus h; isPolling := isPolling h;
         intervalRef := intervalRef h; intervals := delete id (intervals h);
         nextInterval := nextInterval h; cleanup := cleanup h;
         pending := pending h; calls := calls h |}
  | None => h
  end.

Definition setJobStatus (v : option JobStatusResponse) (h : Hook) : Hook :=
  {| jobStatus := v; isPolling := isPolling h;
     intervalRef := intervalRef h; intervals := intervals h;
     nextInterval := nextInterval h; cleanup := cleanup h;
     pending := pending h; calls := calls h |}.

Definition setIsPolling (v : bool) (h : Hook) : Hook :=
  {| jobStatus := jobStatus h; isPolling := v;
     intervalRef := intervalRef h; intervals := intervals h;
     nextInterval := nextInterval h; cleanup := cleanup h;
     pending := pending h; calls := calls h |}.

Definition setCleanup (v : bool) (h : Hook) : Hook :=
  {| jobStatus := jobStatus h; isPolling := isPolling h;
     intervalRef := intervalRef h; intervals := intervals h;
     nextInterval := nextInterval h; cleanup := v;
     pending := pending h; calls := calls h |}.

(** [poll()] up to its [await]: the call is made and stays pending. *)
Definition poll (jobId : string) (h : Hook) : Hook :=
  {| jobStatus := jobStatus h; isPolling := isPolling h;
     intervalRef := intervalRef h; intervals := intervals h;
     nextInterval := nextInterval h; cleanup := cleanup h;
     pending := <[length (calls h) := jobId]> (pending h);
     calls := calls h ++ [jobId] |}.

(** [intervalRef.current = setInterval(poll, 2000)] *)
Definition startInterval (jobId : string) (h : Hook) : Hook :=
  {| jobStatus := jobStatus h; isPolling := isPolling h;
     intervalRef := Some (nextInterval h);
     intervals := <[nextInterval h := jobId]> (intervals h);
     nextInterval := Pos.succ (nextInterval h); cleanup := cleanup h;
     pending := pending h; calls := calls h |}.

Definition forget (call : nat) (h : Hook) : Hook :=
  {| jobStatus := jobStatus h; isPolling := isPolling h;
     intervalRef := intervalRef h; intervals := intervals h;
     nextInterval := nextInterval h; cleanup := cleanup h;
     pending := delete call (pending h); calls := calls h |}.

Definition terminal (s : Status) : bool :=
  match s with
  | Completed | Error => true
  | Queued | Processing => false
  end.

(** The body of the effect. *)
Definition effect (jobId : option string) (enabled : bool) (h : Hook) : Hook :=
  if negb (truthy jobId) || negb enabled then setCleanup false h
  else
    let j := default "" jobId in
    setCleanup true (startInterval j (poll j (setIsPolling true h))).

(** [poll] after its [await], when the call succeeded. *)
Definition resolved (answer : JobStatusResponse) (h : Hook) : Hook :=
  let h := setJobStatus (Some answer) h in
  if terminal (status answer) then clearCurrent (setIsPolling false h)
  else h.

(** [poll] after its [await], when the call failed: the [catch] block. *)
Definition rejected (h : Hook) : Hook :=
  clearCurrent (setIsPolling false h).

(** One event; [None] when the event cannot happen in this state (an
    interval that is not running does not fire, a call that is not
    pending is not answered). *)
Definition step (e : Event) (h : Hook) : option Hook :=
  match e with
  | Effect jobId enabled =>
      let h := if cleanup h then clearCurrent h else h in
      Some (effect jobId enabled h)
  | Tick id =>
      match intervals h !! id with
      | Some jobId => Some (poll jobId h)
      | None => None
      end
  | Resolve call answer =>
      match pending h !! call with
      | Some _ => Some (resolved answer (forget call h))
      | None => None
      end
  | Reject call =>
      match pending h !! call with
      | Some _ => Some (rejected (forget call h))
      | None => None
      end
  end.

Fixpoint run (evs : list Event) (h : Hook) : option Hook :=
  match evs with
  | [] => Some h
  | e :: rest =>
      match step e h with
      | Some h' => run rest h'
      | None => None
      end
  end.

Definition is_effect (e : Event) : bool :=
  match e with
  | Effect _ _ => true
  | _ => false
  end.

(** At most one interval runs, it is the one [intervalRef] holds, and the
    effect that started it returned its cleanup. *)
Definition hook_inv (h : Hook) : Prop :=
  forall id j, intervals h !! id = Some j ->
    intervalRef h = Some id /\ cleanup h = true.

(** The hook has stopped: no interval runs and the spinner is off. *)
Definition stopped (h : Hook) : Prop :=
  intervals h = ∅ /\ isPolling h = false.

(** A run used to exercise the hook: the effect starts polling for
    ["job-1"], the interval fires twice and the first call is answered;
    the second and the third call are still out. *)
Definition demo_answer (s : Status) (p : Z) : JobStatusResponse :=
  {| job_id := "job-1"; status := s; progress := p; message := None;
     video_id := Some "vid-1"; error := None; translation_service := None |}.

Definition demo_events : list Event :=
  [Effect (Some "job-1") true; Tick 1%positive; Tick 1%positive;
   Resolve 0 (demo_answer Processing 40)].

Definition demo_hook : Hook := default initialHook (run demo_events initialHook).

(** ** The provider router (server side)

    The server is not part of the sources at hand; the router is
    modelled from section 4.2 of the specification. *)

Module Router.

(** Modelled from the spec: the availability classification the Quota
    Prober returns for a candidate (the prober itself is missing). *)
Inductive Availability := available | blocked | unknown.

(** Modelled from the spec: the typed failures of one translation
    attempt (the Translation Worker is missing). *)
Inductive Failure :=
  | quotaExceeded | invalidCredential | timeout | malformedResponse
  | unknownFailure.

(** Modelled from the spec: the outcome of the single provider call the
    Translation Worker makes for one segment. *)
Inductive Outcome :=
  | success (text : string)
  | failed (reason : Failure).

(** Modelled from the spec: a configured provider with its place in the
    static priority order (the router's configuration is missing). *)
Record Provider := {
  name : string;
  model : string;
  priority : nat;
}.

(** Modelled from the spec: a candidate for one attempt, a (provider,
    model, credential) triple; [credential] is the opaque handle
    borrowed from the Key Vault. *)
Record ProviderCandidate := {
  provider : Provider;
  credential : nat;
}.

#[global] Instance Availability_eq_dec : EqDecision Availability.
Proof. solve_decision. Defined.
#[global] Instance Failure_eq_dec : EqDecision Failure.
Proof. solve_decision. Defined.
#[global] Instance Provider_eq_dec : EqDecision Provider.
Proof. solve_decision. Defined.
#[global] Instance ProviderCandidate_eq_dec : EqDecision ProviderCandidate.
Proof. solve_decision. Defined.

(** Modelled from the spec: the key of a candidate in the availability
    cache. Two credentials of one provider are independent candidates,
    so the credential is part of the key. *)
Definition cache_key (c : ProviderCandidate) : string * string * nat :=
  (name (provider c), model (provider c), credential c).

(** Modelled from the spec: step 2 of the router, a candidate marked
    blocked in the availability cache is skipped without a call. *)
Definition is_blocked (cache : gmap (string * string * nat) Availability)
    (c : ProviderCandidate) : bool :=
  bool_decide (cache !! cache_key c = Some blocked).

(** Modelled from the spec: the priority order of the router. *)
Definition before (p q : Provider) : Prop := (priority p <= priority q)%nat.

#[global] Instance before_dec : RelDecision before.
Proof. intros p q. unfold before. apply _. Defined.

(** Modelled from the spec: the candidates one provider contributes, one
    per credential the Key Vault holds for it. *)
Definition of_provider (vault : gmap string (list nat)) (p : Provider)
    : list ProviderCandidate :=
  map (fun h => {| provider := p; credential := h |})
    (default [] (vault !! name p)).

(** Modelled from the spec: step 1 of the router, the configured
    providers in priority order, each with its candidates; a provider
    without a credential contributes nothing. *)
Definition candidates (configured : list Provider)
    (vault : gmap string (list nat)) : list ProviderCandidate :=
  flat_map (of_provider vault) (merge_sort before configured).

(** Modelled from the spec: how one round ends. *)
Inductive RoundResult :=
  | Translated (by_ : ProviderCandidate) (text : string)
  | AllProvidersExhausted (last : option Failure).

(** Modelled from the spec: what a round leaves behind, its result, the
    availability cache, and the candidates called, in the order of the
    calls. *)
Record Round := {
  result : RoundResult;
  cache_after : gmap (string * string * nat) Availability;
  called : list ProviderCandidate;
}.

(** Modelled from the spec: steps 2 to 6 of the router for one segment.
    [translate c] is the outcome of the Translation Worker's call to
    candidate [c] for this segment. *)
Fixpoint attempt (translate : ProviderCandidate -> Outcome)
    (cands : list ProviderCandidate)
    (cache : gmap (string * string * nat) Availability)
    (last : option Failure) : Round :=
  match cands with
  | [] =>
      {| result := AllProvidersExhausted last; cache_after := cache;
         called := [] |}
  | c :: rest =>
      if is_blocked cache c then attempt translate rest cache last
      else
        match translate c with
        | success text =>
            {| result := Translated c text; cache_after := cache;
               called := [c] |}
        | failed reason =>
            let cache' :=
              match reason with
              | quotaExceeded => <[cache_key c := blocked]> cache
              | _ => cache
              end in
            let r := attempt translate rest cache' (Some reason) in
            {| result := result r; cache_after := cache_after r;
               called := c :: called r |}
        end
  end.

(** Modelled from the spec: one segment-translation round of the router. *)
Definition round (translate : ProviderCandidate -> Outcome)
    (configured : list Provider) (vault : gmap string (list nat))
    (cache : gmap (string * string * nat) Availability) : Round :=
  attempt translate (candidates configured vault) cache None.

(** Modelled from the spec: the order of attempts, by the priority of
    the provider. *)
Definition by_priority (a b : ProviderCandidate) : Prop :=
  before (provider a) (provider b).

#[global] Instance before_trans : Transitive before.
Proof. intros p q r. unfold before. lia. Qed.

#[global] Instance before_total : Total before.
Proof. intros p q. unfold before. lia. Qed.

End Router.

(** ** The job manager (server side)

    Modelled from sections 3, 4.1, 4.5 and 6 of the specification; the
    client above is what the sources contain of it. *)

Module JobManager.

(** Modelled from the spec: a timed caption segment; the translated text
    is absent until the Translation Worker has filled it in. *)
Record Segment := {
  seg_start : Z;
  seg_duration : Z;
  originalText : string;
  translatedText : option string;
}.

(** Modelled from the spec: the Job of the data model. [segments] is the
    artifact the job produces ([resultRef]); the first three fields say
    what is being translated. *)
Record Job := {
  video : string;
  sourceLang : string;
  targetLang : string;
  status : Status;
  progress : Z;
  message : string;
  error : option Router.Failure;
  activeProvider : option string;
  segments : list Segment;
}.

(** Modelled from the spec: the job store together with the providers
    the Key Vault lists as configured. *)
Record Server := {
  providers : list string;
  jobs : gmap nat Job;
  nextJob : nat;
}.

(** Modelled from the spec: the job store at start-up, empty. *)
Definition emptyServer (configured : list string) : Server :=
  {| providers := configured; jobs := ∅; nextJob := 0 |}.

(** Modelled from the spec: [completedSegments]. *)
Definition completedSegments (segs : list Segment) : nat :=
  length (filter (fun s => is_Some (translatedText s)) segs).

(** Modelled from the spec:
    [progress = floor(100 * completedSegments / totalSegments)]. *)
Definition progress_of (segs : list Segment) : Z :=
  100 * Z.of_nat (completedSegments segs) / Z.of_nat (length segs).

(** Modelled from the spec: a job is in flight until it is terminal. *)
Definition in_flight (j : Job) : Prop := terminal (status j) = false.

(** Modelled from the spec: a job for the same video and languages. *)
Definition same_request (v s t : string) (j : Job) : Prop :=
  video j = v /\ sourceLang j = s /\ targetLang j = t.

(** Modelled from the spec: the three ways [submit] ends. *)
Inductive SubmitResult :=
  | Accepted (jobId : nat)
  | Conflict
  | NoProviderConfigured.

(** Modelled from the spec: [submit]. At least one provider must be
    configured; an identical request still in flight is a conflict;
    otherwise a queued job is created and its id returned at once. *)
Definition submit (v s t : string) (captions : list Segment) (srv : Server)
    : SubmitResult * Server :=
  match providers srv with
  | [] => (NoProviderConfigured, srv)
  | _ :: _ =>
      if decide (map_Exists (fun _ j => same_request v s t j /\ in_flight j)
                   (jobs srv))
      then (Conflict, srv)
      else
        let job := {| video := v; sourceLang := s; targetLang := t;
                      status := Queued; progress := 0; message := "Na fila";
                      error := None; activeProvider := None;
                      segments := captions |} in
        (Accepted (nextJob srv),
         {| providers := providers srv;
            jobs := <[nextJob srv := job]> (jobs srv);
            nextJob := S (nextJob srv) |})
  end.

(** Modelled from the spec: [getStatus], a read. *)
Definition getStatus (jobId : nat) (srv : Server) : option Job :=
  jobs srv !! jobId.

(** Modelled from the spec: the transition [queued -> processing]. *)
Definition pickup (j : Job) : Job :=
  match status j with
  | Queued =>
      {| video := video j; sourceLang := sourceLang j;
         targetLang := targetLang j; status := Processing;
         progress := progress j; message := message j; error := error j;
         activeProvider := activeProvider j; segments := segments j |}
  | _ => j
  end.

(** Modelled from the spec: the Segment Synchronizer, the translated
    text of the segment at [i] is overwritten, nothing else moves. *)
Definition fill (i : nat) (text : string) (segs : list Segment) : list Segment :=
  alter (fun s => {| seg_start := seg_start s; seg_duration := seg_duration s;
                     originalText := originalText s;
                     translatedText := Some text |}) i segs.

(** Modelled from the spec: [advance] for one segment round. Only a job
    that is processing is touched. *)
Definition advance (segmentIndex : nat) (outcome : Router.RoundResult)
    (j : Job) : Job :=
  match status j with
  | Processing =>
      match outcome with
      | Router.Translated c text =>
          let segs := fill segmentIndex text (segments j) in
          let done := bool_decide (completedSegments segs = length segs
                                   /\ segs <> []) in
          {| video := video j; sourceLang := sourceLang j;
             targetLang := targetLang j;
             status := if done then Completed else Processing;
             progress := progress_of segs;
             message := "Traduzindo com " +:+ Router.name (Router.provider c);
             error := None;
             activeProvider := Some (Router.name (Router.provider c));
             segments := segs |}
      | Router.AllProvidersExhausted last =>
          {| video := video j; sourceLang := sourceLang j;
             targetLang := targetLang j; status := Error;
             progress := progress j; message := "Todos os provedores falharam";
             error := Some (default Router.unknownFailure last);
             activeProvider := activeProvider j; segments := segments j |}
      end
  | _ => j
  end.

(** Modelled from the spec: a worker crash or the overall time limit
    puts a job that is not terminal into [error]. *)
Definition abort (reason : Router.Failure) (j : Job) : Job :=
  if terminal (status j) then j
  else
    {| video := video j; sourceLang := sourceLang j;
       targetLang := targetLang j; status := Error; progress := progress j;
       message := "Falha no processamento"; error := Some reason;
       activeProvider := activeProvider j; segments := segments j |}.

(** Modelled from the spec: what can happen on the server. *)
Inductive Op :=
  | Submit (v s t : string) (captions : list Segment)
  | Pickup (jobId : nat)
  | Advance (jobId segmentIndex : nat) (outcome : Router.RoundResult)
  | Abort (jobId : nat) (reason : Router.Failure).

(** Modelled from the spec: a transition of the job with the given id;
    an unknown id changes nothing. *)
Definition update (jobId : nat) (f : Job -> Job) (srv : Server) : Server :=
  {| providers := providers srv; jobs := alter f jobId (jobs srv);
     nextJob := nextJob srv |}.

(** Modelled from the spec: one operation on the server. *)
Definition exec (op : Op) (srv : Server) : Server :=
  match op with
  | Submit v s t captions => snd (submit v s t captions srv)
  | Pickup jobId => update jobId pickup srv
  | Advance jobId i outcome => update jobId (advance i outcome) srv
  | Abort jobId reason => update jobId (abort reason) srv
  end.

(** Modelled from the spec: a history of operations, oldest first. *)
Definition execs (ops : list Op) (srv : Server) : Server :=
  foldl (fun s op => exec op s) srv ops.

(** Modelled from the spec: the taxonomy tag shown for a failure. *)
Definition failure_text (f : Router.Failure) : string :=
  match f with
  | Router.quotaExceeded => "quotaExceeded"
  | Router.invalidCredential => "invalidCredential"
  | Router.timeout => "timeout"
  | Router.malformedResponse => "malformedResponse"
  | Router.unknownFailure => "unknown"
  end.

End JobManager.

(** ** Invariants of the job store *)

(** The progress a job shows never runs ahead of its translated
    segments. *)
Definition job_ok (j : JobManager.Job) : Prop :=
  0 <= JobManager.progress j
    <= JobManager.progress_of (JobManager.segments j).

(** Every stored job is in order and ids not handed out yet are free. *)
Definition server_ok (srv : JobManager.Server) : Prop :=
  (forall id j, JobManager.jobs srv !! id = Some j -> job_ok j) /\
  (forall id, (JobManager.nextJob srv <= id)%nat ->
     JobManager.jobs srv !! id = None).

(** A transition of one job: it keeps [job_ok], never lowers the
    progress and leaves a terminal job as it is. *)
Definition job_step (f : JobManager.Job -> JobManager.Job) : Prop :=
  forall j, job_ok j ->
    job_ok (f j) /\ JobManager.progress j <= JobManager.progress (f j) /\
    (terminal (JobManager.status j) = true -> f j = j).

(** ** The HTTP face of the server *)

(** Modelled from the spec: the body of [GET job-status(jobId)]. *)
Definition job_status (jobId : nat) (j : JobManager.Job) : JobStatusResponse :=
  {| job_id := pretty jobId;
     status := JobManager.status j;
     progress := JobManager.progress j;
     message := Some (JobManager.message j);
     video_id := Some (JobManager.video j);
     error := JobManager.failure_text <$> JobManager.error j;
     translation_service := JobManager.activeProvider j |}.

(** What a server sends back: a status code with a typed body, a status
    code with an error body of which the client reads [detail], or
    nothing at all. *)
Inductive HttpReply (A : Type) :=
  | Reply (code : Z) (body : A)
  | ErrorReply (code : Z) (detail : option string)
  | NetworkError.
Arguments Reply {A} code body.
Arguments ErrorReply {A} code detail.
Arguments NetworkError {A}.

(** axios, a dependency of the client: with the default [validateStatus]
    the promise resolves with the body exactly when the status code is
    in [200, 300) and is rejected otherwise. *)
Definition validateStatus (code : Z) : bool := (200 <=? code) && (code <? 300).

Definition settle {A} (r : HttpReply A) : AxiosError + A :=
  match r with
  | Reply code body =>
      if validateStatus code then inr body
      else inl {| response := Some {| http_status := code; detail := None |} |}
  | ErrorReply code d =>
      inl {| response := Some {| http_status := code; detail := d |} |}
  | NetworkError => inl {| response := None |}
  end.

(** Modelled from the spec:
    [POST submit-translation-job(videoId, sourceLang, targetLang)],
    answered with 202 on enqueue, 409 for an identical job in flight (the
    same video and languages) and 400 when no provider is configured;
    [captions] stands for the caption source, asked by video id. *)
Definition submit_translation_job (captions : string -> list JobManager.Segment)
    (videoId sourceLang targetLang : string) (srv : JobManager.Server)
    : HttpReply VideoProcessResponse * JobManager.Server :=
  match JobManager.submit videoId sourceLang targetLang (captions videoId) srv with
  | (JobManager.Accepted jobId, srv') =>
      (Reply 202 {| process_job_id := pretty jobId;
                    process_status := "queued";
                    process_message := "Na fila" |}, srv')
  | (JobManager.Conflict, srv') =>
      (ErrorReply 409 (Some "Já existe uma tradução em andamento para este vídeo"), srv')
  | (JobManager.NoProviderConfigured, srv') =>
      (ErrorReply 400 (Some "Nenhum provedor configurado"), srv')
  end.

(** Modelled from the spec: [GET job-status], 404 for an unknown id. *)
Definition get_job_status (jobId : nat) (srv : JobManager.Server)
    : HttpReply JobStatusResponse :=
  match JobManager.getStatus jobId srv with
  | Some j => Reply 200 (job_status jobId j)
  | None => ErrorReply 404 (Some "Job não encontrado")
  end.

(** Modelled from the spec: the server as the client sees it when [srv]
    answers the submit request. The client sends the URL of the video;
    the video the request is about is the id in that URL, read as the
    client reads it, so that every form of the address names the same
    video. A request whose URL holds no video id is outside the contract
    and is answered as [other] answers it, as are the other endpoints. *)
Definition serve (captions : string -> list JobManager.Segment)
    (srv : JobManager.Server) (other : Backend) : Backend :=
  {| video_check := video_check other;
     video_process := fun req =>
       match extractVideoId (youtube_url req) with
       | Some videoId =>
           settle (fst (submit_translation_job captions videoId
                          (source_language req) (target_language req) srv))
       | None => video_process other req
       end;
     video_subtitles := video_subtitles other;
     video_job_status := video_job_status other;
     usage_stats := usage_stats other |}.

(** ** components/JobStatus/JobStatus.tsx *)

(** The string the server sends for a status. *)
Definition status_name (s : Status) : string :=
  match s with
  | Queued => "queued"
  | Processing => "processing"
  | Completed => "completed"
  | Error => "error"
  end.

Definition getStatusColor (status : string) : string :=
  if decide (status = "completed") then "#10b981"
  else if decide (status = "error") then "#ef4444"
  else if decide (status = "processing") then "#3b82f6"
  else "#6b7280".

Definition getStatusText (status : string) : string :=
  if decide (status = "queued") then "Na fila"
  else if decide (status = "processing") then "Processando"
  else if decide (status = "completed") then "Concluído"
  else if decide (status = "error") then "Erro"
  else status.

(** The request [handleUrlSubmit] posts. *)
Definition process_request (geminiApiKey : option string)
    (sourceLanguage targetLanguage url : string) (force : option bool)
    : VideoProcessRequest :=
  {| youtube_url := url; source_language := sourceLanguage;
     target_language := targetLanguage;
     gemini_api_key := default "" geminiApiKey;
     force_retranslate := force |}.

Definition check_request (sourceLanguage targetLanguage url : string) : ApiCall :=
  Get "/api/video/check"
    (<["youtube_url" := PString url]>
       (<["source_language" := PString sourceLanguage]>
          {["target_language" := PString targetLanguage]})).

Definition is_post (c : ApiCall) : bool :=
  match c with
  | Post _ _ => true
  | Get _ _ => false
  end.

(** A server used to exercise the handler: it knows (or not) a
    translation of the video and accepts every process request. *)
Definition demo_backend (known : bool) : Backend :=
  {| video_check := fun _ _ _ =>
       inr {| exists_ := known;
              translation_id := if known then Some "tr-7" else None;
              check_video_id := if known then Some "dQw4w9WgXcQ" else None |};
     video_process := fun _ =>
       inr {| process_job_id := "job-0"; process_status := "queued";
              process_message := "Na fila" |};
     video_subtitles := fun v s t =>
       inr {| subtitles_video_id := v; subtitles_source_language := s;
              subtitles_target_language := t; segments := [] |};
     video_job_status := fun _ => inl {| response := None |};
     usage_stats := fun _ => inl {| response := None |} |}.

Definition demo_url : string := "https://www.youtube.com/watch?v=dQw4w9WgXcQ".

(** The video of [demo_url], and the short form of its address. *)
Definition demo_video : string := "dQw4w9WgXcQ".
Definition demo_short_url : string := "https://youtu.be/dQw4w9WgXcQ".

(** A job used to exercise the server: three captions, translated one
    after the other by the same provider. *)
Definition demo_captions : list JobManager.Segment :=
  [ {| JobManager.seg_start := 0; JobManager.seg_duration := 2;
       JobManager.originalText := "Hello";
       JobManager.translatedText := None |};
    {| JobManager.seg_start := 2; JobManager.seg_duration := 3;
       JobManager.originalText := "how are you";
       JobManager.translatedText := None |};
    {| JobManager.seg_start := 5; JobManager.seg_duration := 2;
       JobManager.originalText := "bye";
       JobManager.translatedText := None |} ].

Definition demo_candidate : Router.ProviderCandidate :=
  {| Router.provider :=
       {| Router.name := "gemini"; Router.model := "gemini-pro";
          Router.priority := 1 |};
     Router.credential := 0 |}.

Definition demo_ops1 : list JobManager.Op :=
  [ JobManager.Submit demo_video "en" "pt" demo_captions;
    JobManager.Pickup 0;
    JobManager.Advance 0 0 (Router.Translated demo_candidate "Olá") ].

Definition demo_ops2 : list JobManager.Op :=
  [ JobManager.Advance 0 2 (Router.Translated demo_candidate "tchau");
    JobManager.Advance 0 1 (Router.Translated demo_candidate "como vai") ].

(** A router configuration used to exercise a round: two providers, the
    preferred one listed last, one credential each. *)
Definition demo_gemini : Router.Provider :=
  {| Router.name := "gemini"; Router.model := "gemini-pro";
     Router.priority := 1 |}.

Definition demo_groq : Router.Provider :=
  {| Router.name := "groq"; Router.model := "llama-3"; Router.priority := 2 |}.

Definition demo_vault : gmap string (list nat) :=
  <["gemini" := [7%nat]]> {["groq" := [9%nat]]}.

(** The preferred provider is out of quota, the other one answers. *)
Definition demo_translate (c : Router.ProviderCandidate) : Router.Outcome :=
  if decide (Router.name (Router.provider c) = "gemini")
  then Router.failed Router.quotaExceeded
  else Router.success "Olá".

(** ** Proof automation *)

(** Running a handler: the monad is unfolded, the updates of the page
    stay folded until a field of the final page is asked for. *)
Ltac run_handler :=
  cbv beta iota zeta delta
    [handleUrlSubmit videoApi_check videoApi_process loadSubtitles
     videoApi_getSubtitles window_confirm alert setYoutubeUrl setVideoId
     setProcessing setJobId setSubtitles setLoading setError modify
     await_call try_catch bind negb andb].

Ltac read_page :=
  cbn [fst snd sent alerts confirms jobId processing logRequest showAlert
       askConfirm withYoutubeUrl withVideoId withProcessing withJobId
       withSubtitles withLoading withError].

(** * Further parts of the client *)

(** ** hooks/useJobPolling.ts, continued *)

(** Every running interval polls the job [j]. *)
Definition polls_only (j : string) (h : Hook) : Prop :=
  forall id k, intervals h !! id = Some k -> k = j.

(** ** MainApp: extractVideoId, continued *)

(** Every character of [s] is one of [[a-zA-Z0-9_-]]. *)
Fixpoint id_chars (s : string) : bool :=
  match s with
  | EmptyString => true
  | String c s' => is_id_char c && id_chars s'
  end.

(** The letter y does not occur in [s]. *)
Fixpoint no_y (s : string) : bool :=
  match s with
  | EmptyString => true
  | String c s' => negb (nat_of_ascii c =? 121)%nat && no_y s'
  end.

(** The id occurs in [s], with something before and after it. *)
Definition occurs_in (id s : string) : Prop :=
  exists pre post, s = pre +:+ id +:+ post.

(** ** MainApp and useVideoTranslation, continued *)

(** The request [loadSubtitles] issues. *)
Definition subtitles_request (video_id source_language target_language : string)
    : ApiCall :=
  Get ("/api/video/" +:+ video_id +:+ "/subtitles")
    (<["source_language" := PString source_language]>
       {["target_language" := PString target_language]}).

Ltac read_whole_page :=
  cbn [fst snd sent alerts confirms youtubeUrl videoId jobId processing
       subtitles loading subtitlesError logRequest showAlert
       askConfirm withYoutubeUrl withVideoId withProcessing withJobId
       withSubtitles withLoading withError].

(** The page when [handleUrlSubmit] has sent the existence check. *)
Definition page_after_check (sourceLanguage targetLanguage url id : string)
    (w : World) : World :=
  logRequest (check_request sourceLanguage targetLanguage url)
    (withProcessing true (withVideoId (Some id) (withYoutubeUrl url w))).

(** What the [catch] block of [handleUrlSubmit] leaves. *)
Definition page_after_catch (e : AxiosError) (w : World) : World :=
  withProcessing false (showAlert (detail_or e "Erro ao processar vídeo") w).

(** The process request sent from page [w] and what it leads to. *)
Definition page_after_process (backend : Backend) (req : VideoProcessRequest)
    (w : World) : World :=
  match video_process backend req with
  | inr resp =>
      withJobId (Some (process_job_id resp))
        (logRequest (Post "/api/video/process" req) w)
  | inl e => page_after_catch e (logRequest (Post "/api/video/process" req) w)
  end.

(** ** components/JobStatus/JobStatus.tsx, continued *)

(** [formatTime]. The argument is the estimate the component keeps, a
    whole number of seconds ([Math.max(0, Math.round(...))]); on whole
    numbers [Math.floor(x / 60)] and [x % 60] are the quotient and the
    remainder, and a template literal prints the decimal digits. *)
Definition formatTime (seconds : Z) : string :=
  if seconds <? 60 then pretty seconds +:+ "s"
  else
    let minutes := seconds / 60 in
    let remainingSeconds := seconds mod 60 in
    if minutes <? 60 then
      pretty minutes +:+ "m " +:+ pretty remainingSeconds +:+ "s"
    else
      let hours := minutes / 60 in
      let remainingMinutes := minutes mod 60 in
      pretty hours +:+ "h " +:+ pretty remainingMinutes +:+ "m".

(** ** components/VideoPlayer/VideoPlayer.tsx *)

Section VideoPlayer.

(** [getActiveSegments] computes with JavaScript numbers. Its two
    callbacks are taken as they come: [isActive seg] is the test of the
    filter at the current time
    ([currentTime >= seg.start - 0.1 && currentTime < seg.start + seg.duration + 0.1]),
    and [sortByDistance] is [Array.prototype.sort] with the comparator
    on the distance to the middle of a segment. *)
Variable isActive : TranslationSegment -> bool.
Variable sortByDistance : list TranslationSegment -> list TranslationSegment.

Definition getActiveSegments (segments : list TranslationSegment)
    : list TranslationSegment :=
  let activeSegments := List.filter isActive segments in
  if (1 <? length activeSegments)%nat then
    match sortByDistance activeSegments with
    | first :: _ => [first]
    | [] => []
    end
  else activeSegments.

(** The overlay as the player renders it. *)
Definition player_overlay (segments : list TranslationSegment)
    (isFullscreen : bool) : option SubtitleContent :=
  SubtitleOverlay (getActiveSegments segments) isFullscreen.

End VideoPlayer.

(** Three captions, the last two overlapping, and the test of the filter
    at second 4 with whole seconds and no tolerance. *)
Definition demo_segments : list TranslationSegment :=
  [ {| start := 0; duration := 2; original := "Hello"; translated := "Olá" |};
    {| start := 2; duration := 3; original := "how are you";
       translated := "como vai" |};
    {| start := 4; duration := 2; original := "bye"; translated := "tchau" |} ].

Definition demo_active (seg : TranslationSegment) : bool :=
  (start seg <=? 4) && (4 <? start seg + duration seg).

(** ** services/storage.ts

    The two Web Storage areas of the page; [getItem] of a key that is not
    stored is [null]. Writing is taken to succeed (the areas have room
    left). *)

Record Storage := {
  localStorage : gmap string string;
  sessionStorage : gmap string string;
}.

Definition emptyStorage : Storage :=
  {| localStorage := ∅; sessionStorage := ∅ |}.

(** [a || b] on values that are a string or [null]. *)
Definition js_or (a b : option string) : option string :=
  if truthy a then a else b.

Module STORAGE_KEYS.
Definition GEMINI_API_KEY : string := "gemini_api_key".
Definition SOURCE_LANGUAGE : string := "source_language".
Definition TARGET_LANGUAGE : string := "target_language".
Definition AUTH_TOKEN : string := "auth_token".
Definition USER_ID : string := "user_id".
Definition USERNAME : string := "username".
Definition REMEMBER_ME : string := "remember_me".
End STORAGE_KEYS.

(** [localStorage.setItem], [localStorage.removeItem] and their
    counterparts on [sessionStorage]. *)
Definition setLocal (k v : string) (st : Storage) : Storage :=
  {| localStorage := <[k := v]> (localStorage st);
     sessionStorage := sessionStorage st |}.

Definition removeLocal (k : string) (st : Storage) : Storage :=
  {| localStorage := delete k (localStorage st);
     sessionStorage := sessionStorage st |}.

Definition setSession (k v : string) (st : Storage) : Storage :=
  {| localStorage := localStorage st;
     sessionStorage := <[k := v]> (sessionStorage st) |}.

Definition removeSession (k : string) (st : Storage) : Storage :=
  {| localStorage := localStorage st;
     sessionStorage := delete k (sessionStorage st) |}.

Module storage.
Import STORAGE_KEYS.

Definition getGeminiApiKey (st : Storage) : option string :=
  localStorage st !! GEMINI_API_KEY.

Definition setGeminiApiKey (key : string) (st : Storage) : Storage :=
  setLocal GEMINI_API_KEY key st.

Definition getSourceLanguage (st : Storage) : string :=
  default "en" (js_or (localStorage st !! SOURCE_LANGUAGE) (Some "en")).

Definition setSourceLanguage (lang : string) (st : Storage) : Storage :=
  setLocal SOURCE_LANGUAGE lang st.

Definition getTargetLanguage (st : Storage) : string :=
  default "pt" (js_or (localStorage st !! TARGET_LANGUAGE) (Some "pt")).

Definition setTargetLanguage (lang : string) (st : Storage) : Storage :=
  setLocal TARGET_LANGUAGE lang st.

Definition getAuthToken (st : Storage) : option string :=
  js_or (localStorage st !! AUTH_TOKEN) (sessionStorage st !! AUTH_TOKEN).

Definition setAuthToken (token : string) (rememberMe : bool) (st : Storage)
    : Storage :=
  let st := if rememberMe then setLocal AUTH_TOKEN token st
            else setSession AUTH_TOKEN token st in
  if rememberMe then setLocal REMEMBER_ME "true" st
  else removeLocal REMEMBER_ME st.

Definition clearAuthToken (st : Storage) : Storage :=
  removeLocal REMEMBER_ME
    (removeSession USERNAME
       (removeSession USER_ID
          (removeSession AUTH_TOKEN
             (removeLocal USERNAME
                (removeLocal USER_ID (removeLocal AUTH_TOKEN st)))))).

Definition setUserInfo (userId username : string) (rememberMe : bool)
    (st : Storage) : Storage :=
  if rememberMe then setLocal USERNAME username (setLocal USER_ID userId st)
  else setSession USERNAME username (setSession USER_ID userId st).

Definition getUserId (st : Storage) : option string :=
  js_or (localStorage st !! USER_ID) (sessionStorage st !! USER_ID).

Definition getUsername (st : Storage) : option string :=
  js_or (localStorage st !! USERNAME) (sessionStorage st !! USERNAME).

Definition getRememberMe (st : Storage) : bool :=
  bool_decide (localStorage st !! REMEMBER_ME = Some "true").

Definition setRememberMe (rememberMe : bool) (st : Storage) : Storage :=
  if rememberMe then setLocal REMEMBER_ME "true" st
  else removeLocal REMEMBER_ME st.

End storage.

(** ** services/api.ts: the interceptors of [api] *)

(** The request interceptor: the headers of the request that goes out. *)
Definition request_interceptor (st : Storage) (headers : gmap string string)
    : gmap string string :=
  let token := js_or (localStorage st !! "auth_token")
                     (sessionStorage st !! "auth_token") in
  if truthy token then
    <["Authorization" := "Bearer " +:+ default "" token]> headers
  else headers.

(** The response interceptor on a rejected request: the storage it
    leaves; the error itself is passed on unchanged. *)
Definition response_rejected (e : AxiosError) (st : Storage) : Storage :=
  if bool_decide (http_status <$> response e = Some 401) then
    removeSession "username"
      (removeSession "user_id"
         (removeSession "auth_token"
            (removeLocal "username"
               (removeLocal "user_id" (removeLocal "auth_token" st)))))
  else st.

(** A request through [api] as the storage sees it. *)
Definition through_interceptors {A} (answer : AxiosError + A) (st : Storage)
    : Storage :=
  match answer with
  | inr _ => st
  | inl e => response_rejected e st
  end.

(** ** contexts/AuthContext.tsx *)

Record TokenResponse := {
  access_token : string;
  token_type : string;
  token_user_id : string;
  token_username : string;
}.

Record UserProfile := {
  profile_id : string;
  profile_email : string;
  profile_username : string;
  native_language : string;
  learning_language : string;
  proficiency_level : string;
  total_chat_messages : Z;
  total_practice_sessions : Z;
  average_response_time : Z;
  preferred_learning_style : option string;
  preferred_model : option string;
  created_at : string;
}.

Record User := {
  user_id : string;
  user_username : string;
  user_email : string;
}.

Record Auth := {
  isAuthenticated : bool;
  user : option User;
  auth_loading : bool;
}.

(** [checkAuth]. [profile] is what [authApi.getProfile] would answer; the
    second component tells whether the request was made. *)
Definition checkAuth (profile : AxiosError + UserProfile)
    (st : Storage) (a : Auth) : Storage * Auth * bool :=
  let token := js_or (localStorage st !! "auth_token")
                     (sessionStorage st !! "auth_token") in
  if negb (truthy token) then
    (st, {| isAuthenticated := false; user := None; auth_loading := false |},
     false)
  else
    match profile with
    | inr p =>
        (st,
         {| isAuthenticated := true;
            user := Some {| user_id := profile_id p;
                            user_username := profile_username p;
                            user_email := profile_email p |};
            auth_loading := false |},
         true)
    | inl e =>
        (storage.clearAuthToken (response_rejected e st),
         {| isAuthenticated := false; user := None; auth_loading := false |},
         true)
    end.

(** [login]. [answer] is what [authApi.login] answers; a failure is
    thrown on to the caller. *)
Definition login (answer : AxiosError + TokenResponse) (email : string)
    (rememberMe : bool) (st : Storage) (a : Auth)
    : (AxiosError + unit) * Storage * Auth :=
  match answer with
  | inr response =>
      let st :=
        if rememberMe then
          setLocal "username" (token_username response)
            (setLocal "user_id" (token_user_id response)
               (setLocal "auth_token" (access_token response) st))
        else
          setSession "username" (token_username response)
            (setSession "user_id" (token_user_id response)
               (setSession "auth_token" (access_token response) st)) in
      (inr tt, st,
       {| isAuthenticated := true;
          user := Some {| user_id := token_user_id response;
                          user_username := token_username response;
                          user_email := email |};
          auth_loading := auth_loading a |})
  | inl e => (inl e, response_rejected e st, a)
  end.

(** [register]: as [login], always into [localStorage]. *)
Definition register (answer : AxiosError + TokenResponse) (email : string)
    (st : Storage) (a : Auth) : (AxiosError + unit) * Storage * Auth :=
  match answer with
  | inr response =>
      (inr tt,
       setLocal "username" (token_username response)
         (setLocal "user_id" (token_user_id response)
            (setLocal "auth_token" (access_token response) st)),
       {| isAuthenticated := true;
          user := Some {| user_id := token_user_id response;
                          user_username := token_username response;
                          user_email := email |};
          auth_loading := auth_loading a |})
  | inl e => (inl e, response_rejected e st, a)
  end.

Definition logout (st : Storage) (a : Auth) : Storage * Auth :=
  (removeLocal "together_api_key"
     (removeLocal "groq_api_key"
        (removeLocal "openrouter_api_key"
           (removeLocal "gemini_api_key"
              (removeSession "username"
                 (removeSession "user_id"
                    (removeSession "auth_token"
                       (removeLocal "username"
                          (removeLocal "user_id"
                             (removeLocal "auth_token" st))))))))),
   {| isAuthenticated := false; user := None;
      auth_loading := auth_loading a |}).

Ltac unfold_storage :=
  unfold storage.getAuthToken, storage.setAuthToken, storage.clearAuthToken,
    storage.getUserId, storage.getUsername, storage.getRememberMe,
    storage.setRememberMe, storage.getGeminiApiKey, storage.setGeminiApiKey,
    storage.getSourceLanguage, storage.setSourceLanguage,
    storage.getTargetLanguage, storage.setTargetLanguage,
    storage.setUserInfo, request_interceptor, response_rejected, logout,
    setLocal, removeLocal, setSession, removeSession,
    STORAGE_KEYS.GEMINI_API_KEY, STORAGE_KEYS.SOURCE_LANGUAGE,
    STORAGE_KEYS.TARGET_LANGUAGE, STORAGE_KEYS.AUTH_TOKEN,
    STORAGE_KEYS.USER_ID, STORAGE_KEYS.USERNAME, STORAGE_KEYS.REMEMBER_ME in *;
  cbn [localStorage sessionStorage] in *.

(** ** [String.prototype.trim]

    Strings are the UTF-8 bytes of the JavaScript text; the white space
    and line terminators that [trim] removes are listed by their bytes. *)

Definition bytes (codes : list nat) : string :=
  fold_right (fun n s => String (ascii_of_nat n) s) "" codes.

Definition white_space : list string :=
  map bytes
    ([ [9]; [10]; [11]; [12]; [13]; [32]; [194; 160]; [225; 154; 128] ]
     ++ map (fun n => [226; 128; n]) (seq 128 11)
     ++ [ [226; 128; 168]; [226; 128; 169]; [226; 128; 175];
          [226; 129; 159]; [227; 128; 128]; [239; 187; 191] ])%nat.

(** The first of [marks] that [s] starts with: what follows it. *)
Fixpoint skip_one (marks : list string) (s : string) : option string :=
  match marks with
  | [] => None
  | m :: rest =>
      match strip_prefix m s with
      | Some s' => Some s'
      | None => skip_one rest s
      end
  end.

Fixpoint skip_all (fuel : nat) (marks : list string) (s : string) : string :=
  match fuel with
  | O => s
  | S fuel' =>
      match skip_one marks s with
      | Some s' => skip_all fuel' marks s'
      | None => s
      end
  end.

Definition trimStart (s : string) : string :=
  skip_all (String.length s) white_space s.

Definition trimEnd (s : string) : string :=
  String.rev
    (skip_all (String.length s) (map String.rev white_space) (String.rev s)).

Definition trim (s : string) : string := trimEnd (trimStart s).

(** ** components/ApiKeyManager/ApiKeyManager.tsx *)

Record ModelStatus := {
  model_name : string;
  model_available : bool;
  model_blocked : bool;
  model_status : string;
  model_category : option string;
}.

Record ApiKeyStatus := {
  status_service : string;
  is_valid : bool;
  models_status : list ModelStatus;
  available_models : list string;
  blocked_models : list string;
  status_error : option string;
}.

Record ApiKey := {
  key_id : string;
  key_service : string;
  key_value : string;
  isActive : bool;
  key_status : option ApiKeyStatus;
  checkingStatus : bool;
}.

Record ServiceInfo := {
  service_id : string;
  service_name : string;
  service_icon : string;
  service_url : string;
}.

Definition SERVICES : list ServiceInfo :=
  [ {| service_id := "gemini"; service_name := "Google Gemini";
       service_icon := "🤖"; service_url := "https://aistudio.google.com/apikey" |};
    {| service_id := "openrouter"; service_name := "OpenRouter";
       service_icon := "🌐"; service_url := "https://openrouter.ai/keys" |};
    {| service_id := "groq"; service_name := "Groq";
       service_icon := "⚡"; service_url := "https://console.groq.com/keys" |};
    {| service_id := "together"; service_name := "Together AI";
       service_icon := "🤝";
       service_url := "https://api.together.xyz/settings/api-keys" |} ].

(** The state of the component. *)
Record Manager := {
  apiKeys : list ApiKey;
  editingId : option string;
  newKey : string * string;          (* service and key of the form *)
}.

(** One entry of the list, when a key is stored for the service. *)
Definition stored_key (service : string) (active : bool) (k : option string)
    : list ApiKey :=
  if truthy k then
    [ {| key_id := service +:+ "-1"; key_service := service;
         key_value := default "" k; isActive := active;
         key_status := None; checkingStatus := false |} ]
  else [].

(** [loadApiKeys]: the list it hands to [setApiKeys]. *)
Definition loadApiKeys (st : Storage) : list ApiKey :=
  stored_key "gemini" true (storage.getGeminiApiKey st)
  ++ stored_key "openrouter" false (localStorage st !! "openrouter_api_key")
  ++ stored_key "groq" false (localStorage st !! "groq_api_key")
  ++ stored_key "together" false (localStorage st !! "together_api_key").

(** [handleSave]: the storage and the state it leaves, and the entry
    whose status it will check half a second later, if any. *)
Definition handleSave (service key : string) (st : Storage) (m : Manager)
    : Storage * Manager * option ApiKey :=
  let st :=
    if decide (service = "gemini") then storage.setGeminiApiKey key st
    else setLocal (service +:+ "_api_key") key st in
  let trimmedKey := trim key in
  let m := {| apiKeys := loadApiKeys st; editingId := None;
              newKey := ("gemini", "") |} in
  let scheduled :=
    if truthy (Some trimmedKey)
       && bool_decide (service ∈ ["gemini"; "openrouter"; "groq"; "together"])
    then Some {| key_id := service +:+ "-1"; key_service := service;
                 key_value := trimmedKey;
                 isActive := bool_decide (service = "gemini");
                 key_status := None; checkingStatus := false |}
    else None in
  (st, m, scheduled).

Definition handleDelete (id service : string) (st : Storage) (m : Manager)
    : Storage * Manager :=
  let st :=
    if decide (service = "gemini") then removeLocal "gemini_api_key" st
    else removeLocal (service +:+ "_api_key") st in
  (st, {| apiKeys := loadApiKeys st; editingId := editingId m;
          newKey := newKey m |}).

Definition handleAdd (st : Storage) (m : Manager)
    : Storage * Manager * option ApiKey :=
  if truthy (Some (trim (snd (newKey m)))) then
    handleSave (fst (newKey m)) (trim (snd (newKey m))) st m
  else (st, m, None).

(** [SERVICES.find(s => s.id === serviceId) || SERVICES[0]] *)
Definition getServiceInfo (serviceId : string) : ServiceInfo :=
  match List.find (fun s => bool_decide (service_id s = serviceId)) SERVICES with
  | Some s => s
  | None =>
      {| service_id := "gemini"; service_name := "Google Gemini";
         service_icon := "🤖";
         service_url := "https://aistudio.google.com/apikey" |}
  end.

(** [String.prototype.substring(start, end)]. JavaScript counts a string
    in UTF-16 code units, so the string is taken as the list of its code
    units here. Both bounds are clamped to the string and swapped when
    they come in the wrong order; [end] left out is the length. *)
Definition js_substring {A} (s : list A) (start : Z) (end_ : option Z)
    : list A :=
  let len := Z.of_nat (length s) in
  let clamp i := Z.min (Z.max i 0) len in
  let a := clamp start in
  let b := clamp (default len end_) in
  let from := Z.min a b in
  let to := Z.max a b in
  take (Z.to_nat (to - from)) (drop (Z.to_nat from) s).

(** The code units of [...]. *)
Definition dots : list N := [46; 46; 46]%N.

(** The key preview of the list: [key.substring(0, 12)], three dots and
    [key.substring(key.length - 4)], on the code units of the key. *)
Definition key_preview (key : list N) : list N :=
  js_substring key 0 (Some 12) ++ dots ++
  js_substring key (Z.of_nat (length key) - 4) None.

(** The code units of a text made of ASCII characters only: one unit
    per character. *)
Definition ascii_units (s : string) : list N :=
  map N_of_ascii (String.list_ascii_of_string s).

(** The key the list shows for a service. *)
Definition shown_key (service : string) (keys : list ApiKey) : option string :=
  key_value <$> List.find (fun k => bool_decide (key_service k = service)) keys.

(** [k.id === apiKey.id || (k.service === apiKey.service && k.key === apiKey.key)] *)
Definition same_key (apiKey k : ApiKey) : bool :=
  bool_decide (key_id k = key_id apiKey)
  || (bool_decide (key_service k = key_service apiKey)
      && bool_decide (key_value k = key_value apiKey)).

Definition withStatus (status : option ApiKeyStatus) (checking : bool)
    (k : ApiKey) : ApiKey :=
  {| key_id := key_id k; key_service := key_service k;
     key_value := key_value k; isActive := isActive k;
     key_status := status; checkingStatus := checking |}.

(** The first [setApiKeys] of [checkApiKeyStatus]. *)
Definition mark_checking (apiKey : ApiKey) (prevKeys : list ApiKey)
    : list ApiKey :=
  map (fun k => if same_key apiKey k then withStatus (key_status k) true k
                else k) prevKeys.

(** The [setApiKeys] of either branch, once the request is settled. *)
Definition record_status (apiKey : ApiKey) (status : ApiKeyStatus)
    (prevKeys : list ApiKey) : list ApiKey :=
  map (fun k => if same_key apiKey k then withStatus (Some status) false k
                else k) prevKeys.

Definition errorStatus (apiKey : ApiKey) (detail : option string)
    : ApiKeyStatus :=
  {| status_service := key_service apiKey; is_valid := false;
     models_status := []; available_models := []; blocked_models := [];
     status_error :=
       js_or detail (Some "Erro ao verificar status da chave") |}.

(** [checkApiKeyStatus], given how [apiKeysApi.checkStatus] settles: with
    a status, or rejected with the detail of the response, if it has
    one. *)
Definition checkApiKeyStatus (apiKey : ApiKey)
    (answer : option string + ApiKeyStatus) (keys : list ApiKey)
    : list ApiKey :=
  let keys := mark_checking apiKey keys in
  match answer with
  | inr status => record_status apiKey status keys
  | inl detail => record_status apiKey (errorStatus apiKey detail) keys
  end.

Definition service_names : list string :=
  ["gemini"; "openrouter"; "groq"; "together"].

(** ** The hook and the server it polls

    The hook of [useJobPolling] put together with the job store of the
    specification. A [getJobStatus] call made by the hook is answered by
    the server at some later moment, with the status the job has at that
    moment; the answer reaches the hook later still, or the call fails.
    Several calls can be out at once (the interval fires whether or not
    the previous call has been answered), and nothing in the hook ties
    the order in which answers arrive to the order in which they were
    given. *)

Record System := {
  server : JobManager.Server;
  client : Hook;
  (* answers given by the server and not arrived yet, by call number,
     oldest first *)
  replies : list (nat * (AxiosError + JobStatusResponse));
  (* every status the server has answered with, in the order given *)
  served : list JobStatusResponse;
  (* every status [setJobStatus] has stored, in the order stored *)
  seen : list JobStatusResponse;
}.

Definition initialSystem (configured : list string) : System :=
  {| server := JobManager.emptyServer configured; client := initialHook;
     replies := []; served := []; seen := [] |}.

Inductive SystemEvent :=
  | ServerOp (op : JobManager.Op)          (* the server moves on *)
  | Render (jobId : option string) (enabled : bool)  (* React runs the effect *)
  | Timer (id : positive)                  (* an interval fires *)
  | Serve (call jobId : nat)               (* the server answers a call *)
  | Deliver                                (* the oldest answer arrives *)
  | Overtake (call : nat)                  (* an answer arrives ahead of older ones *)
  | Lose (call : nat).                     (* a call fails without an answer *)

Definition is_overtake (e : SystemEvent) : bool :=
  match e with
  | Overtake _ => true
  | _ => false
  end.

Definition with_client (h : Hook) (sys : System) : System :=
  {| server := server sys; client := h; replies := replies sys;
     served := served sys; seen := seen sys |}.

Definition with_replies (rs : list (nat * (AxiosError + JobStatusResponse)))
    (sys : System) : System :=
  {| server := server sys; client := client sys; replies := rs;
     served := served sys; seen := seen sys |}.

(** The statuses among the answers on their way. *)
Definition answers (rs : list (nat * (AxiosError + JobStatusResponse)))
    : list JobStatusResponse :=
  omap (fun r => match snd r with
                 | inr a => Some a
                 | inl _ => None
                 end) rs.

(** The answers on their way but the one to [call]. *)
Definition others (call : nat)
    (rs : list (nat * (AxiosError + JobStatusResponse)))
    : list (nat * (AxiosError + JobStatusResponse)) :=
  filter (fun r => fst r <> call) rs.

(** The answer [r] to [call] reaches the hook: [poll] goes on after its
    [await]. *)
Definition arrive (call : nat) (r : AxiosError + JobStatusResponse)
    (sys : System) : option System :=
  match r with
  | inr answer =>
      match step (Resolve call answer) (client sys) with
      | Some h =>
          Some {| server := server sys; client := h; replies := replies sys;
                  served := served sys; seen := seen sys ++ [answer] |}
      | None => None
      end
  | inl _ =>
      match step (Reject call) (client sys) with
      | Some h => Some (with_client h sys)
      | None => None
      end
  end.

(** One event of the whole; [None] when it cannot happen in this state.
    The server answers a call that is out, made for the job id it reads
    as a number, and answers it once. *)
Definition system_step (e : SystemEvent) (sys : System) : option System :=
  match e with
  | ServerOp op =>
      Some {| server := JobManager.exec op (server sys); client := client sys;
              replies := replies sys; served := served sys;
              seen := seen sys |}
  | Render jobId enabled =>
      match step (Effect jobId enabled) (client sys) with
      | Some h => Some (with_client h sys)
      | None => None
      end
  | Timer id =>
      match step (Tick id) (client sys) with
      | Some h => Some (with_client h sys)
      | None => None
      end
  | Serve call jobId =>
      if decide (pending (client sys) !! call = Some (pretty jobId)
                 /\ call ∉ map fst (replies sys))
      then
        let r := settle (get_job_status jobId (server sys)) in
        Some {| server := server sys; client := client sys;
                replies := replies sys ++ [(call, r)];
                served := served sys ++ match r with
                                        | inr a => [a]
                                        | inl _ => []
                                        end;
                seen := seen sys |}
      else None
  | Deliver =>
      match replies sys with
      | (call, r) :: rest => arrive call r (with_replies rest sys)
      | [] => None
      end
  | Overtake call =>
      match list_find (fun r => fst r = call) (replies sys) with
      | Some (_, (_, r)) =>
          arrive call r (with_replies (others call (replies sys)) sys)
      | None => None
      end
  | Lose call =>
      match step (Reject call) (client sys) with
      | Some h =>
          Some (with_client h (with_replies (others call (replies sys)) sys))
      | None => None
      end
  end.

Fixpoint system_run (evs : list SystemEvent) (sys : System) : option System :=
  match evs with
  | [] => Some sys
  | e :: rest =>
      match system_step e sys with
      | Some sys' => system_run rest sys'
      | None => None
      end
  end.

(** A later status of a job compared with an earlier one: the progress
    is not lower, and nothing at all differs once the earlier one was
    terminal. *)
Definition follows (a b : JobStatusResponse) : Prop :=
  progress a <= progress b /\ (terminal (status a) = true -> b = a).

(** Along the list, the statuses of each job follow one another. *)
Definition non_decreasing (l : list JobStatusResponse) : Prop :=
  forall i j a b, (i < j)%nat -> l !! i = Some a -> l !! j = Some b ->
    job_id a = job_id b -> follows a b.

(** The status [a] was read off job [n] at some earlier moment: the job
    is still there and its status now follows [a]. *)
Definition taken_before (srv : JobManager.Server) (a : JobStatusResponse)
    : Prop :=
  exists n j, job_id a = pretty n /\ JobManager.jobs srv !! n = Some j /\
              follows a (job_status n j).

(** The statuses the server answers with, in the order given, follow one
    another job by job, whatever else happens. *)
Definition served_in_order (sys : System) : Prop :=
  server_ok (server sys) /\
  StronglySorted (fun a b => job_id a = job_id b -> follows a b) (served sys) /\
  Forall (taken_before (server sys)) (served sys).

(** The three-caption job polled while it is translated. Each call is
    answered before the next one is made. *)
Definition demo_polling : list SystemEvent :=
  [ ServerOp (JobManager.Submit demo_video "en" "pt" demo_captions);
    Render (Some "0") true; Serve 0 0; Deliver;
    ServerOp (JobManager.Pickup 0);
    ServerOp (JobManager.Advance 0 0 (Router.Translated demo_candidate "Olá"));
    Timer 1%positive; Serve 1 0; Deliver;
    ServerOp (JobManager.Advance 0 2 (Router.Translated demo_candidate "tchau"));
    ServerOp (JobManager.Advance 0 1 (Router.Translated demo_candidate "como vai"));
    Timer 1%positive; Serve 2 0; Deliver ].

(** The same job with two calls out at once: the first is answered when
    one caption is translated, the second when two are, and the second
    answer arrives first. *)
Definition demo_overtaking : list SystemEvent :=
  [ ServerOp (JobManager.Submit demo_video "en" "pt" demo_captions);
    ServerOp (JobManager.Pickup 0);
    ServerOp (JobManager.Advance 0 0 (Router.Translated demo_candidate "Olá"));
    Render (Some "0") true; Serve 0 0;
    Timer 1%positive;
    ServerOp (JobManager.Advance 0 2 (Router.Translated demo_candidate "tchau"));
    Serve 1 0;
    Overtake 1; Deliver ].

(** * Properties *)

(** ** Facts about [join] *)

Lemma append_String ch (a b : string) : String ch a +:+ b = String ch (a +:+ b).
Proof. reflexivity. Qed.

Lemma append_assoc (a b c : string) : (a +:+ b) +:+ c = a +:+ (b +:+ c).
Proof.
  induction a as [|ch a IH]; [reflexivity|].
  now rewrite !append_String, IH.
Qed.

Lemma append_nil_r (a : string) : a +:+ "" = a.
Proof.
  induction a as [|ch a IH]; [reflexivity|].
  now rewrite append_String, IH.
Qed.

Lemma join_cons sep x y rest :
  join sep (x :: y :: rest) = x +:+ sep +:+ join sep (y :: rest).
Proof. reflexivity. Qed.

Lemma join_trail sep x rest : join sep (x :: rest) = x +:+ trail sep rest.
Proof.
  revert x. induction rest as [|y rest IH]; intros x.
  - simpl. now rewrite append_nil_r.
  - rewrite join_cons, IH. unfold trail. cbn [map concat_all].
    fold (trail sep rest). now rewrite append_assoc.
Qed.

Lemma join_split sep before x after :
  join sep (before ++ x :: after) = lead sep before +:+ x +:+ trail sep after.
Proof.
  induction before as [|b before IH].
  - simpl. apply join_trail.
  - destruct before as [|b' before].
    + simpl app. rewrite join_cons, join_trail. unfold lead.
      cbn [map concat_all]. now rewrite append_nil_r, append_assoc.
    + change ((b :: b' :: before) ++ x :: after)
        with (b :: b' :: (before ++ x :: after)).
      rewrite join_cons.
      change (b' :: before ++ x :: after) with ((b' :: before) ++ x :: after).
      rewrite IH. unfold lead. cbn [map concat_all].
      now rewrite !append_assoc.
Qed.

(** C7. The overlay shows, for whatever non-empty list it receives and at
    every position of that list, the texts of the earlier segments, then
    the text of the segment at that position, then the texts of the later
    segments, in the order given and with a single space between
    neighbours: nothing is dropped or moved. The same holds for the
    translated line. *)
Theorem SubtitleOverlay_lines_in_order
    (before : list TranslationSegment) (s : TranslationSegment)
    (after : list TranslationSegment) (fs : bool) :
  SubtitleOverlay (before ++ s :: after) fs =
    Some {| subtitle_original :=
              lead " " (map original before) +:+ original s
                +:+ trail " " (map original after);
            subtitle_translated :=
              lead " " (map translated before) +:+ translated s
                +:+ trail " " (map translated after);
            data_fullscreen := fs |}.
Proof.
  unfold SubtitleOverlay.
  rewrite length_app. simpl length.
  replace (length before + S (length after) =? 0)%nat with false
    by (symmetry; apply Nat.eqb_neq; lia).
  rewrite !map_app. simpl map. now rewrite !join_split.
Qed.

(** C10. The overlay returns [null] exactly for the empty list, so the
    two lines are only ever built from a list with at least one
    segment. *)
Theorem SubtitleOverlay_null_iff_empty
    (segments : list TranslationSegment) (fs : bool) :
  SubtitleOverlay [] fs = None /\
  (SubtitleOverlay segments fs = None <-> segments = []) /\
  (forall r, SubtitleOverlay segments fs = Some r ->
     exists s rest, segments = s :: rest /\
       subtitle_original r = join " " (map original (s :: rest)) /\
       subtitle_translated r = join " " (map translated (s :: rest))).
Proof.
  split; [reflexivity|]. split.
  - destruct segments as [|s rest]; split; intros H;
      try reflexivity; discriminate H.
  - intros r Hr. destruct segments as [|s rest]; [discriminate|].
    exists s, rest. unfold SubtitleOverlay in Hr. simpl in Hr.
    injection Hr as <-. auto.
Qed.

Example overlay_two_segments :
  SubtitleOverlay
    [ {| start := 0; duration := 2; original := "Hello";
         translated := "Olá" |};
      {| start := 2; duration := 2; original := "world";
         translated := "mundo" |} ] false
  = Some {| subtitle_original := "Hello world";
            subtitle_translated := "Olá mundo";
            data_fullscreen := false |}.
Proof. reflexivity. Qed.

(** ** The polling hook *)

Lemma hook_inv_initial : hook_inv initialHook.
Proof. intros id j H. cbn in H. now rewrite lookup_empty in H. Qed.

Lemma clearCurrent_intervals (h : Hook) :
  hook_inv h -> intervals (clearCurrent h) = ∅.
Proof.
  intros Hinv. apply map_empty. intros id.
  unfold clearCurrent. destruct (intervalRef h) as [cur|] eqn:Hcur; cbn.
  - destruct (decide (cur = id)) as [->|Hne].
    + apply lookup_delete_eq.
    + rewrite lookup_delete_ne by done.
      destruct (intervals h !! id) as [j|] eqn:Hl; [|done].
      destruct (Hinv _ _ Hl) as [Href _]. congruence.
  - destruct (intervals h !! id) as [j|] eqn:Hl; [|done].
    destruct (Hinv _ _ Hl) as [Href _]. congruence.
Qed.

Lemma clearCurrent_fields (h : Hook) :
  jobStatus (clearCurrent h) = jobStatus h /\
  isPolling (clearCurrent h) = isPolling h /\
  pending (clearCurrent h) = pending h /\
  calls (clearCurrent h) = calls h /\
  cleanup (clearCurrent h) = cleanup h /\
  intervalRef (clearCurrent h) = intervalRef h.
Proof.
  unfold clearCurrent. destruct (intervalRef h) eqn:E; cbn; repeat split.
  exact E.
Qed.

Lemma hook_inv_no_intervals (h : Hook) : intervals h = ∅ -> hook_inv h.
Proof. intros Hi id j H. rewrite Hi, lookup_empty in H. discriminate. Qed.

Lemma cleanup_clears (h : Hook) :
  hook_inv h ->
  intervals (if cleanup h then clearCurrent h else h) = ∅.
Proof.
  intros Hinv. destruct (cleanup h) eqn:Hc.
  - now apply clearCurrent_intervals.
  - apply map_empty. intros id.
    destruct (intervals h !! id) as [j|] eqn:Hl; [|done].
    destruct (Hinv _ _ Hl) as [_ Hc']. congruence.
Qed.

Lemma step_inv (e : Event) (h h' : Hook) :
  hook_inv h -> step e h = Some h' -> hook_inv h'.
Proof.
  intros Hinv Hstep. destruct e as [j en|id|c a|c]; cbn in Hstep.
  - injection Hstep as <-.
    pose proof (cleanup_clears h Hinv) as Hempty.
    set (h0 := if cleanup h then clearCurrent h else h) in *.
    unfold effect. destruct (negb (truthy j) || negb en).
    + apply hook_inv_no_intervals. exact Hempty.
    + intros id k Hl. cbn in Hl. rewrite Hempty in Hl.
      cbn. split; [|reflexivity].
      destruct (decide (nextInterval h0 = id)) as [->|Hne]; [reflexivity|].
      rewrite lookup_insert_ne, lookup_empty in Hl by done. discriminate.
  - destruct (intervals h !! id); [|discriminate].
    injection Hstep as <-. exact Hinv.
  - destruct (pending h !! c); [|discriminate]. injection Hstep as <-.
    unfold resolved. destruct (terminal (status a)).
    + apply hook_inv_no_intervals, clearCurrent_intervals.
      intros id k Hl. exact (Hinv id k Hl).
    + intros id k Hl. exact (Hinv id k Hl).
  - destruct (pending h !! c); [|discriminate]. injection Hstep as <-.
    apply hook_inv_no_intervals, clearCurrent_intervals.
    intros id k Hl. exact (Hinv id k Hl).
Qed.

Lemma run_inv (evs : list Event) (h h' : Hook) :
  hook_inv h -> run evs h = Some h' -> hook_inv h'.
Proof.
  revert h. induction evs as [|e evs IH]; intros h Hinv Hrun; cbn in Hrun.
  - now injection Hrun as <-.
  - destruct (step e h) as [h1|] eqn:Hstep; [|discriminate].
    eapply IH; [|exact Hrun]. eapply step_inv; eauto.
Qed.

Lemma resolved_terminal_stopped (a : JobStatusResponse) (h : Hook) :
  hook_inv h -> terminal (status a) = true -> stopped (resolved a h).
Proof.
  intros Hinv Ht. unfold resolved, stopped. rewrite Ht. split.
  - apply clearCurrent_intervals. intros id k Hl. exact (Hinv id k Hl).
  - now destruct (clearCurrent_fields
      (setIsPolling false (setJobStatus (Some a) h))) as (_ & -> & _).
Qed.

Lemma rejected_stopped (h : Hook) : hook_inv h -> stopped (rejected h).
Proof.
  intros Hinv. unfold rejected, stopped. split.
  - apply clearCurrent_intervals. intros id k Hl. exact (Hinv id k Hl).
  - now destruct (clearCurrent_fields (setIsPolling false h)) as (_ & -> & _).
Qed.

Lemma resolved_jobStatus (a : JobStatusResponse) (h : Hook) :
  jobStatus (resolved a h) = Some a.
Proof.
  unfold resolved. destruct (terminal (status a)); [|reflexivity].
  now destruct (clearCurrent_fields
    (setIsPolling false (setJobStatus (Some a) h))) as (-> & _).
Qed.

Lemma forget_inv (c : nat) (h : Hook) : hook_inv h -> hook_inv (forget c h).
Proof. intros Hinv id k Hl. exact (Hinv id k Hl). Qed.

(** Once stopped, and as long as the effect is not started anew, only
    answers to calls already made can still arrive: they make no call,
    start no interval and leave the spinner off. *)
Lemma stopped_step (e : Event) (h h' : Hook) :
  stopped h -> is_effect e = false -> step e h = Some h' ->
  stopped h' /\ calls h' = calls h /\
  (S (size (pending h')) = size (pending h))%nat.
Proof.
  intros [Hi Hp] He Hstep.
  assert (Hinv : hook_inv h) by now apply hook_inv_no_intervals.
  destruct e as [j en|id|c a|c]; cbn in Hstep; [discriminate He| | |].
  - rewrite Hi, lookup_empty in Hstep. discriminate.
  - destruct (pending h !! c) as [k|] eqn:Hc; [|discriminate].
    injection Hstep as <-.
    assert (Hsz : (S (size (delete c (pending h))) = size (pending h))%nat).
    { rewrite <- (insert_delete_id (pending h) c k Hc) at 2.
      rewrite map_size_insert_None; [done | apply lookup_delete_eq]. }
    unfold resolved. destruct (terminal (status a)) eqn:Ht.
    + pose proof (resolved_terminal_stopped a (forget c h)
                    (forget_inv c h Hinv) Ht) as Hs.
      unfold resolved in Hs. rewrite Ht in Hs. split; [exact Hs|].
      destruct (clearCurrent_fields
        (setIsPolling false (setJobStatus (Some a) (forget c h))))
        as (_ & _ & -> & -> & _). cbn. auto.
    + cbn. unfold stopped. cbn. auto.
  - destruct (pending h !! c) as [k|] eqn:Hc; [|discriminate].
    injection Hstep as <-.
    assert (Hsz : (S (size (delete c (pending h))) = size (pending h))%nat).
    { rewrite <- (insert_delete_id (pending h) c k Hc) at 2.
      rewrite map_size_insert_None; [done | apply lookup_delete_eq]. }
    split; [apply rejected_stopped, forget_inv, Hinv|].
    unfold rejected.
    destruct (clearCurrent_fields (setIsPolling false (forget c h)))
      as (_ & _ & -> & -> & _). cbn. auto.
Qed.

Lemma stopped_run (evs : list Event) (h h' : Hook) :
  stopped h -> forallb (fun e => negb (is_effect e)) evs = true ->
  run evs h = Some h' ->
  stopped h' /\ calls h' = calls h /\
  (length evs + size (pending h') = size (pending h))%nat.
Proof.
  revert h. induction evs as [|e evs IH]; intros h Hs Hne Hrun; cbn in *.
  - injection Hrun as <-. auto.
  - destruct (step e h) as [h1|] eqn:Hstep; [|discriminate].
    apply andb_true_iff in Hne as [He Hne].
    apply negb_true_iff in He.
    destruct (stopped_step e h h1 Hs He Hstep) as (Hs1 & Hc1 & Hp1).
    destruct (IH h1 Hs1 Hne Hrun) as (Hs' & Hc' & Hp').
    split; [exact Hs'|]. split; [congruence|]. lia.
Qed.

Lemma reachable_inv (evs : list Event) (h : Hook) :
  run evs initialHook = Some h -> hook_inv h.
Proof. apply run_inv, hook_inv_initial. Qed.

Lemma settled_pending (h : Hook) :
  pending (clearCurrent (setIsPolling false h)) = pending h.
Proof.
  now destruct (clearCurrent_fields (setIsPolling false h))
    as (_ & _ & -> & _).
Qed.

(** Once stopped, and as long as the effect is not started anew, the
    status shown changes only by an answer to a call that was out
    already. *)
Lemma stopped_run_status (evs : list Event) (h h' : Hook) :
  stopped h -> forallb (fun e => negb (is_effect e)) evs = true ->
  run evs h = Some h' ->
  jobStatus h' = jobStatus h \/
  exists c a, Resolve c a ∈ evs /\ is_Some (pending h !! c) /\
              jobStatus h' = Some a.
Proof.
  revert h. induction evs as [|e evs IH]; intros h Hs Hne Hrun; cbn in *.
  - injection Hrun as <-. now left.
  - destruct (step e h) as [h1|] eqn:Hstep; [|discriminate].
    apply andb_true_iff in Hne as [He Hne]. apply negb_true_iff in He.
    destruct (stopped_step e h h1 Hs He Hstep) as (Hs1 & _ & _).
    assert (Hout : forall c, is_Some (pending h1 !! c) ->
                             is_Some (pending h !! c)).
    { destruct e as [j en|id|c a|c]; cbn in Hstep; [discriminate He| | |].
      - destruct Hs as [Hi _]. rewrite Hi, lookup_empty in Hstep.
        discriminate.
      - destruct (pending h !! c); [|discriminate]. injection Hstep as <-.
        intros c'. unfold resolved.
        destruct (terminal (status a)); rewrite ?settled_pending; cbn;
          intros [k Hk]; apply lookup_delete_Some in Hk as [_ Hk]; eauto.
      - destruct (pending h !! c); [|discriminate]. injection Hstep as <-.
        intros c'. unfold rejected. rewrite settled_pending. cbn.
        intros [k Hk]. apply lookup_delete_Some in Hk as [_ Hk]. eauto. }
    destruct (IH h1 Hs1 Hne Hrun) as [Hsame | (c' & a' & Hin & Hp & Hjs)].
    + destruct e as [j en|id|c a|c]; cbn in Hstep; [discriminate He| | |].
      * destruct Hs as [Hi _]. rewrite Hi, lookup_empty in Hstep.
        discriminate.
      * destruct (pending h !! c) as [k|] eqn:Hc; [|discriminate].
        injection Hstep as <-. right. exists c, a.
        split; [left|]. split; [eauto|].
        now rewrite Hsame, resolved_jobStatus.
      * destruct (pending h !! c) as [k|] eqn:Hc; [|discriminate].
        injection Hstep as <-. left. rewrite Hsame. unfold rejected.
        now destruct (clearCurrent_fields (setIsPolling false (forget c h)))
          as (-> & _).
    + right. exists c', a'. split; [now right|]. split; [auto | exact Hjs].
Qed.

(** C1, as the code has it. In any state the hook can reach, when a
    [getJobStatus] call is answered with status completed or error, the
    answer is stored, the interval is cleared and [isPolling] becomes
    false; from then on, as long as the effect is not started anew
    ([jobId] and [enabled] stay as they are), whatever else happens makes
    no further [getJobStatus] call, no interval can fire and [isPolling]
    stays false. What can still happen is that calls made before the
    terminal answer are answered or fail, each once: the status shown
    afterwards is the terminal answer or the answer to one of those
    calls, and with no such call outstanding nothing changes any
    more. *)
Theorem terminal_status_ends_polling
    (evs : list Event) (h : Hook) (call : nat) (answer : JobStatusResponse)
    (h1 : Hook) (later : list Event) (h2 : Hook) :
  run evs initialHook = Some h ->
  status answer = Completed \/ status answer = Error ->
  step (Resolve call answer) h = Some h1 ->
  forallb (fun e => negb (is_effect e)) later = true ->
  run later h1 = Some h2 ->
  jobStatus h1 = Some answer /\ isPolling h1 = false /\ intervals h1 = ∅ /\
  calls h1 = calls h /\
  calls h2 = calls h /\ isPolling h2 = false /\ intervals h2 = ∅ /\
  (forall id, step (Tick id) h2 = None) /\
  (length later <= size (pending h1))%nat /\
  (pending h1 = ∅ -> h2 = h1) /\
  (jobStatus h2 = Some answer \/
   exists c a, Resolve c a ∈ later /\ is_Some (pending h1 !! c) /\
               jobStatus h2 = Some a).
Proof.
  intros Hreach Hterm Hstep Hlater Hrun.
  pose proof (reachable_inv _ _ Hreach) as Hinv.
  assert (Ht : terminal (status answer) = true)
    by (destruct Hterm as [-> | ->]; reflexivity).
  cbn in Hstep. destruct (pending h !! call) as [k|] eqn:Hc; [|discriminate].
  injection Hstep as <-.
  pose proof (resolved_terminal_stopped answer (forget call h)
                (forget_inv call h Hinv) Ht) as Hs1.
  destruct (stopped_run later _ h2 Hs1 Hlater Hrun)
    as ([Hi2 Hp2] & Hc2 & Hsz).
  pose proof (stopped_run_status later _ h2 Hs1 Hlater Hrun) as Hshown.
  rewrite resolved_jobStatus in Hshown.
  destruct Hs1 as [Hi1 Hp1].
  assert (Hcalls : calls (resolved answer (forget call h)) = calls h).
  { unfold resolved. rewrite Ht.
    now destruct (clearCurrent_fields
      (setIsPolling false (setJobStatus (Some answer) (forget call h))))
      as (_ & _ & _ & -> & _). }
  split; [apply resolved_jobStatus|].
  repeat split; try assumption; try congruence.
  - intros id. cbn. now rewrite Hi2, lookup_empty.
  - lia.
  - intros Hnone. rewrite Hnone, map_size_empty in Hsz.
    destruct later as [|e later]; [|cbn in Hsz; lia].
    cbn in Hrun. now injection Hrun as <-.
Qed.

Lemma terminal_status_ends_polling_witness :
  let h1 := resolved (demo_answer Completed 100) (forget 2 demo_hook) in
  let later := [Reject 1] in
  let h2 := rejected (forget 1 h1) in
  jobStatus h1 = Some (demo_answer Completed 100) /\
  isPolling h1 = false /\ intervals h1 = ∅ /\
  calls h1 = calls demo_hook /\
  calls h2 = calls demo_hook /\ isPolling h2 = false /\ intervals h2 = ∅ /\
  (forall id, step (Tick id) h2 = None) /\
  (length later <= size (pending h1))%nat /\
  (pending h1 = ∅ -> h2 = h1) /\
  (jobStatus h2 = Some (demo_answer Completed 100) \/
   exists c a, Resolve c a ∈ later /\ is_Some (pending h1 !! c) /\
               jobStatus h2 = Some a).
Proof.
  apply (terminal_status_ends_polling demo_events demo_hook 2
           (demo_answer Completed 100) _ [Reject 1] _).
  - vm_compute. reflexivity.
  - left. reflexivity.
  - vm_compute. reflexivity.
  - reflexivity.
  - vm_compute. reflexivity.
Defined.

(** C1 as stated does not hold: the hook does not tell a late answer
    from a fresh one. Two calls are out; the later one is answered first,
    with status completed, and polling stops; then the answer to the
    earlier call arrives, taken when the job was still being processed,
    and it replaces the terminal status shown, although no call has been
    made since and none will be. Nor is the stop final when the hook's
    inputs change: with [enabled] switched off and on again the effect
    runs anew and the job that was seen completed is polled again. *)
Lemma terminal_status_replaced_by_late_answer :
  let h1 := resolved (demo_answer Completed 100) (forget 2 demo_hook) in
  let h2 := resolved (demo_answer Processing 70) (forget 1 h1) in
  run demo_events initialHook = Some demo_hook /\
  step (Resolve 2 (demo_answer Completed 100)) demo_hook = Some h1 /\
  jobStatus h1 = Some (demo_answer Completed 100) /\
  run [Resolve 1 (demo_answer Processing 70)] h1 = Some h2 /\
  calls h2 = calls demo_hook /\ pending h2 = ∅ /\ intervals h2 = ∅ /\
  isPolling h2 = false /\
  jobStatus h2 = Some (demo_answer Processing 70) /\
  jobStatus h2 <> jobStatus h1 /\
  (calls <$> run [Effect (Some "job-1") false; Effect (Some "job-1") true] h1)
    = Some (calls demo_hook ++ ["job-1"]).
Proof. vm_compute. repeat split; discriminate. Qed.



(** The hook stops for good only as long as the effect is not run again:
    when React runs it again for the same job, polling starts anew. *)
Example effect_rerun_polls_again :
  let h1 := resolved (demo_answer Completed 100) (forget 1 demo_hook) in
  (calls <$> run [Effect (Some "job-1") true] h1)
    = Some (calls demo_hook ++ ["job-1"]) /\
  (isPolling <$> run [Effect (Some "job-1") true] h1) = Some true.
Proof. vm_compute. split; reflexivity. Qed.

(** ** The usage report *)

(** C8. [getStats] issues exactly one request, a GET of
    [/api/usage/stats]; its [days] parameter is the argument, or 30 when
    the argument is left out; it carries a [service] parameter exactly
    when a non-empty service is given and no other parameter; and what
    the caller gets is the server's answer to that request, unchanged
    (the report, or the error the request failed with). *)
Theorem getStats_report (backend : Backend) (service : option string)
    (days : option Z) (w : World) :
  exists params : gmap string ParamValue,
    getStats backend service days w =
      (usage_stats backend params,
       logRequest (Get "/api/usage/stats" params) w) /\
    params !! "days" = Some (PNumber (default 30 days)) /\
    params !! "service" =
      match service with
      | Some s => if decide (s = "") then None else Some (PString s)
      | None => None
      end /\
    (forall k, k <> "days" -> k <> "service" -> params !! k = None).
Proof.
  unfold getStats, await_call.
  destruct service as [s|]; [destruct (decide (s = "")) as [->|Hs]|].
  - exists {["days" := PNumber (default 30 days)]}. cbn.
    split; [reflexivity|]. split; [apply lookup_singleton_eq|].
    split; [reflexivity|].
    intros k Hd _. now apply lookup_singleton_ne.
  - exists (<["service" := PString s]> {["days" := PNumber (default 30 days)]}).
    assert (Ht : truthy (Some s) = true) by (destruct s; [done|reflexivity]).
    rewrite Ht. cbn [default].
    split; [reflexivity|]. split.
    { rewrite lookup_insert_ne by done. apply lookup_singleton_eq. }
    split; [apply lookup_insert_eq|].
    intros k Hd Hsv. rewrite lookup_insert_ne by done.
    now apply lookup_singleton_ne.
  - exists {["days" := PNumber (default 30 days)]}. cbn.
    split; [reflexivity|]. split; [apply lookup_singleton_eq|].
    split; [reflexivity|].
    intros k Hd _. now apply lookup_singleton_ne.
Qed.

(** ** The video id *)

Lemma take_id_length (n : nat) (s r : string) :
  take_id n s = Some r -> String.length r = n.
Proof.
  revert s r. induction n as [|n IH]; intros s r H; cbn in H.
  - now injection H as <-.
  - destruct s as [|c s]; [discriminate|].
    destruct (is_id_char c); [|discriminate].
    destruct (take_id n s) as [r'|] eqn:Hr; [|discriminate].
    injection H as <-. cbn. f_equal. eauto.
Qed.

Lemma or_else_Some {A} (a b : option A) (x : A) :
  or_else a b = Some x -> a = Some x \/ b = Some x.
Proof. destruct a; cbn; auto. Qed.

Lemma bind_take_id_length (o : option string) (r : string) :
  o ≫= take_id 11 = Some r -> String.length r = 11%nat.
Proof.
  destruct o as [s|]; [|discriminate]. cbn [mbind option_bind].
  apply take_id_length.
Qed.

Lemma pattern1_here_length (s r : string) :
  pattern1_here s = Some r -> String.length r = 11%nat.
Proof.
  unfold pattern1_here. intros H.
  apply or_else_Some in H as [H|H]; [now apply bind_take_id_length in H|].
  apply or_else_Some in H as [H|H]; now apply bind_take_id_length in H.
Qed.

Lemma dot_star_v_length (s r : string) :
  dot_star_v s = Some r -> String.length r = 11%nat.
Proof.
  revert r. induction s as [|c s IH]; intros r H.
  - cbn in H. discriminate.
  - cbn [dot_star_v] in H.
    destruct (at_line_terminator (String c s)).
    + now apply bind_take_id_length in H.
    + apply or_else_Some in H as [H|H]; [auto|].
      now apply bind_take_id_length in H.
Qed.

Lemma pattern2_here_length (s r : string) :
  pattern2_here s = Some r -> String.length r = 11%nat.
Proof.
  unfold pattern2_here.
  destruct (strip_prefix "youtube.com/watch?" s) as [rest|]; [|discriminate].
  cbn [mbind option_bind]. apply dot_star_v_length.
Qed.

Lemma search_length (here : string -> option string) (s r : string) :
  (forall s' r', here s' = Some r' -> String.length r' = 11%nat) ->
  search here s = Some r -> String.length r = 11%nat.
Proof.
  intros Hhere. revert r. induction s as [|c s IH]; intros r H; cbn in H.
  - destruct (here "") eqn:E; [|discriminate]. injection H as <-. eauto.
  - destruct (here (String c s)) eqn:E.
    + injection H as <-. eauto.
    + eauto.
Qed.

(** A video id, when one is found, has eleven characters. *)
Lemma extractVideoId_length (url id : string) :
  extractVideoId url = Some id -> String.length id = 11%nat.
Proof.
  unfold extractVideoId. intros H. apply or_else_Some in H as [H|H].
  - eapply search_length; [apply pattern1_here_length | exact H].
  - eapply search_length; [apply pattern2_here_length | exact H].
Qed.

Lemma extractVideoId_truthy (url id : string) :
  extractVideoId url = Some id -> truthy (Some id) = true.
Proof.
  intros H. apply extractVideoId_length in H.
  destruct id; [discriminate H | reflexivity].
Qed.

(** ** Submitting a video *)

(** What [handleUrlSubmit] does, path by path. *)
Lemma handleUrlSubmit_cases (backend : Backend) (geminiApiKey : option string)
    (sourceLanguage targetLanguage : string) (shouldRetranslate : bool)
    (url : string) (w : World) :
  let out := handleUrlSubmit backend geminiApiKey sourceLanguage
               targetLanguage shouldRetranslate url w in
  (truthy geminiApiKey = false ->
     fst out = inr tt /\ sent (snd out) = sent w /\
     jobId (snd out) = jobId w /\
     alerts (snd out) =
       alerts w ++ ["Por favor, configure sua chave de API do Gemini primeiro."]) /\
  (truthy geminiApiKey = true -> extractVideoId url = None ->
     fst out = inr tt /\ sent (snd out) = sent w /\
     jobId (snd out) = jobId w /\
     alerts (snd out) = alerts w ++ ["URL do YouTube inválida."]) /\
  (forall id check,
     truthy geminiApiKey = true -> extractVideoId url = Some id ->
     video_check backend url sourceLanguage targetLanguage = inr check ->
     let found := exists_ check && truthy (check_video_id check) in
     let req := process_request geminiApiKey sourceLanguage targetLanguage
                  url (if found then Some true else None) in
     (found && negb shouldRetranslate = true ->
        fst out = inr tt /\ jobId (snd out) = jobId w /\
        processing (snd out) = false /\
        forallb (fun c => negb (is_post c)) (sent (snd out))
          = forallb (fun c => negb (is_post c)) (sent w)) /\
     (found && negb shouldRetranslate = false ->
        forall resp, video_process backend req = inr resp ->
          fst out = inr tt /\
          jobId (snd out) = Some (process_job_id resp) /\
          processing (snd out) = true /\
          alerts (snd out) = alerts w /\
          sent (snd out) =
            sent w ++
              [check_request sourceLanguage targetLanguage url;
               Post "/api/video/process" req]) /\
     (found && negb shouldRetranslate = false ->
        forall e, video_process backend req = inl e ->
          fst out = inr tt /\
          jobId (snd out) = jobId w /\
          processing (snd out) = false /\
          alerts (snd out) =
            alerts w ++ [detail_or e "Erro ao processar vídeo"] /\
          sent (snd out) =
            sent w ++
              [check_request sourceLanguage targetLanguage url;
               Post "/api/video/process" req])).
Proof.
  intros out. subst out. split; [|split].
  - intros Hkey. unfold handleUrlSubmit. rewrite Hkey.
    run_handler. read_page. auto.
  - intros Hkey Hid. unfold handleUrlSubmit. rewrite Hkey, Hid.
    run_handler. read_page. auto.
  - intros id check Hkey Hid Hcheck found req.
    pose proof (extractVideoId_truthy _ _ Hid) as Htid.
    assert (Hrun : forall tail : VideoCheckResponse -> M unit,
      (if negb (truthy geminiApiKey) then
         alert "Por favor, configure sua chave de API do Gemini primeiro."
       else
         setYoutubeUrl url >>>
         (if negb (truthy (extractVideoId url)) then
            alert "URL do YouTube inválida."
          else
            setVideoId (extractVideoId url) >>>
            setProcessing true >>>
            try_catch
              (let* c := videoApi_check backend url sourceLanguage
                           targetLanguage in tail c)
              (fun error =>
                 alert (detail_or error "Erro ao processar vídeo") >>>
                 setProcessing false))) w
      = try_catch (tail check)
          (fun error =>
             alert (detail_or error "Erro ao processar vídeo") >>>
             setProcessing false)
          (logRequest (check_request sourceLanguage targetLanguage url)
             (withProcessing true
                (withVideoId (Some id) (withYoutubeUrl url w))))).
    { intros tail. rewrite Hkey, Hid, Htid.
      cbv beta iota zeta delta
        [videoApi_check setYoutubeUrl setVideoId setProcessing modify
         await_call try_catch bind negb].
      rewrite Hcheck. reflexivity. }
    unfold handleUrlSubmit. rewrite Hrun. clear Hrun.
    fold found.
    change {| youtube_url := url; source_language := sourceLanguage;
              target_language := targetLanguage;
              gemini_api_key := default "" geminiApiKey;
              force_retranslate := Some true |}
      with (process_request geminiApiKey sourceLanguage targetLanguage url
              (Some true)).
    change {| youtube_url := url; source_language := sourceLanguage;
              target_language := targetLanguage;
              gemini_api_key := default "" geminiApiKey;
              force_retranslate := None |}
      with (process_request geminiApiKey sourceLanguage targetLanguage url
              None).
    split; [|split].
    + intros Hkeep. apply andb_true_iff in Hkeep as [Hfound Hno].
      apply negb_true_iff in Hno. subst shouldRetranslate.
      rewrite Hfound. run_handler.
      destruct (video_subtitles backend _ _ _); read_page;
        rewrite !forallb_app; cbn [forallb is_post negb andb];
        rewrite !andb_true_r; auto.
    + intros Hsub resp Hresp. subst req. destruct found.
      * cbn in Hsub. apply negb_false_iff in Hsub. subst shouldRetranslate.
        run_handler. rewrite Hresp. read_page. rewrite <- app_assoc. auto.
      * run_handler. rewrite Hresp. read_page. rewrite <- app_assoc. auto.
    + intros Hsub e He. subst req. destruct found.
      * cbn in Hsub. apply negb_false_iff in Hsub. subst shouldRetranslate.
        run_handler. rewrite He. read_page. rewrite <- app_assoc. auto.
      * run_handler. rewrite He. read_page. rewrite <- app_assoc. auto.
Qed.

(** ** The job manager *)

Section JobManagerFacts.
Import JobManager.

Lemma completedSegments_le (segs : list Segment) :
  (completedSegments segs <= length segs)%nat.
Proof. unfold completedSegments. apply length_filter. Qed.

Lemma progress_of_bounds (segs : list Segment) :
  0 <= progress_of segs <= 100.
Proof.
  unfold progress_of. pose proof (completedSegments_le segs) as Hle.
  destruct (length segs) as [|n] eqn:Hn.
  - change (Z.of_nat 0) with 0. rewrite Z.div_0_r. lia.
  - split.
    + apply Z.div_pos; lia.
    + apply Z.div_le_upper_bound; lia.
Qed.

Lemma completedSegments_cons (s : Segment) (segs : list Segment) :
  completedSegments (s :: segs) =
    ((match translatedText s with Some _ => 1 | None => 0 end)
     + completedSegments segs)%nat.
Proof.
  unfold completedSegments. rewrite filter_cons.
  destruct (translatedText s) as [t|].
  - rewrite decide_True by eauto. reflexivity.
  - rewrite decide_False by (intros [? ?]; discriminate). reflexivity.
Qed.

Lemma fill_length (i : nat) (text : string) (segs : list Segment) :
  length (fill i text segs) = length segs.
Proof. unfold fill. apply length_alter. Qed.

(** Filling in a translation never lowers the number of translated
    segments. *)
Lemma fill_completed (i : nat) (text : string) (segs : list Segment) :
  (completedSegments segs <= completedSegments (fill i text segs))%nat.
Proof.
  revert i. induction segs as [|s segs IH]; intros i; [reflexivity|].
  destruct i as [|i].
  - change (fill 0 text (s :: segs))
      with ({| seg_start := seg_start s; seg_duration := seg_duration s;
               originalText := originalText s;
               translatedText := Some text |} :: segs).
    rewrite !completedSegments_cons. cbn [translatedText].
    destruct (JobManager.translatedText s); lia.
  - change (fill (S i) text (s :: segs)) with (s :: fill i text segs).
    rewrite !completedSegments_cons. specialize (IH i). lia.
Qed.

(** The synchronizer keeps every segment in its place and its timing
    and original text as they were. *)
Lemma fill_keeps_order (i : nat) (text : string) (segs : list Segment) :
  map originalText (fill i text segs) = map originalText segs /\
  map seg_start (fill i text segs) = map seg_start segs /\
  map seg_duration (fill i text segs) = map seg_duration segs.
Proof.
  revert i. induction segs as [|s segs IH]; intros i; [auto|].
  destruct i as [|i]; [auto|].
  change (fill (S i) text (s :: segs)) with (s :: fill i text segs).
  cbn [map]. destruct (IH i) as (-> & -> & ->). auto.
Qed.

(** Translations of different segments may arrive in either order. *)
Lemma fill_commute (i j : nat) (a b : string) (segs : list Segment) :
  i <> j -> fill i a (fill j b segs) = fill j b (fill i a segs).
Proof. intros Hne. unfold fill. now apply list_alter_alter_ne. Qed.

Lemma fill_progress (i : nat) (text : string) (segs : list Segment) :
  progress_of segs <= progress_of (fill i text segs).
Proof.
  unfold progress_of. rewrite fill_length.
  pose proof (fill_completed i text segs) as Hle.
  destruct (length segs) as [|n].
  - change (Z.of_nat 0) with 0. rewrite !Z.div_0_r. lia.
  - apply Z.div_le_mono; lia.
Qed.

Lemma pickup_step : job_step pickup.
Proof.
  intros j Hok. unfold pickup.
  destruct (JobManager.status j) eqn:Hs; cbn; repeat split;
    try apply Hok; try lia; discriminate.
Qed.

Lemma advance_step (i : nat) (outcome : Router.RoundResult) :
  job_step (advance i outcome).
Proof.
  intros j Hok. unfold advance.
  destruct (JobManager.status j) eqn:Hs;
    try (repeat split; try apply Hok; try lia; discriminate).
  destruct outcome as [c text|last]; cbn.
  - unfold job_ok. cbn.
    pose proof (fill_progress i text (JobManager.segments j)).
    pose proof (progress_of_bounds (fill i text (JobManager.segments j))).
    unfold job_ok in Hok. repeat split; try lia; try discriminate.
  - unfold job_ok in *. cbn. repeat split; try lia; try discriminate.
Qed.

Lemma abort_step (reason : Router.Failure) : job_step (abort reason).
Proof.
  intros j Hok. unfold abort.
  destruct (terminal (JobManager.status j)) eqn:Ht.
  - repeat split; try apply Hok; lia.
  - unfold job_ok in *. cbn. repeat split; try lia; try discriminate.
Qed.

Lemma update_ok (id : nat) (f : Job -> Job) (srv : Server) :
  job_step f -> server_ok srv -> server_ok (update id f srv).
Proof.
  intros Hf [Hjobs Hfresh]. split; cbn.
  - intros id' j' Hl. rewrite lookup_alter in Hl.
    destruct (decide (id = id')) as [->|Hne].
    + destruct (jobs srv !! id') as [j|] eqn:Hj; [|discriminate].
      cbn in Hl. injection Hl as <-. apply Hf. eauto.
    + eauto.
  - intros id' Hge. rewrite lookup_alter.
    destruct (decide (id = id')) as [->|Hne]; [|auto].
    now rewrite (Hfresh id' Hge).
Qed.

Lemma update_grows (id : nat) (f : Job -> Job) (srv : Server) id' j :
  job_step f -> server_ok srv -> jobs srv !! id' = Some j ->
  exists j', jobs (update id f srv) !! id' = Some j' /\
    JobManager.progress j <= JobManager.progress j' /\
    (terminal (JobManager.status j) = true -> j' = j).
Proof.
  intros Hf [Hjobs _] Hl. cbn. rewrite lookup_alter.
  destruct (decide (id = id')) as [->|Hne].
  - rewrite Hl. cbn. exists (f j). split; [reflexivity|].
    apply Hf. eauto.
  - exists j. repeat split; auto. lia.
Qed.

Lemma submit_ok v s t captions (srv : Server) :
  server_ok srv -> server_ok (snd (submit v s t captions srv)).
Proof.
  intros [Hjobs Hfresh]. unfold submit.
  destruct (providers srv); [now split|].
  destruct (decide _); [now split|]. cbn. split; cbn.
  - intros id j Hl.
    destruct (decide (nextJob srv = id)) as [<-|Hne].
    + rewrite lookup_insert_eq in Hl. injection Hl as <-.
      unfold job_ok. cbn. pose proof (progress_of_bounds captions). lia.
    + rewrite lookup_insert_ne in Hl by done. eauto.
  - intros id Hge. rewrite lookup_insert_ne by lia. apply Hfresh. lia.
Qed.

Lemma submit_grows v s t captions (srv : Server) id j :
  server_ok srv -> jobs srv !! id = Some j ->
  jobs (snd (submit v s t captions srv)) !! id = Some j.
Proof.
  intros [_ Hfresh] Hl. unfold submit.
  destruct (providers srv); [exact Hl|].
  destruct (decide _); [exact Hl|]. cbn.
  rewrite lookup_insert_ne; [exact Hl|].
  intros <-. rewrite Hfresh in Hl by lia. discriminate.
Qed.

Lemma exec_ok (op : Op) (srv : Server) : server_ok srv -> server_ok (exec op srv).
Proof.
  destruct op; cbn.
  - apply submit_ok.
  - apply update_ok, pickup_step.
  - apply update_ok, advance_step.
  - apply update_ok, abort_step.
Qed.

Lemma exec_grows (op : Op) (srv : Server) id j :
  server_ok srv -> jobs srv !! id = Some j ->
  exists j', jobs (exec op srv) !! id = Some j' /\
    JobManager.progress j <= JobManager.progress j' /\
    (terminal (JobManager.status j) = true -> j' = j).
Proof.
  intros Hok Hl. destruct op; cbn.
  - exists j. split; [now apply submit_grows|]. split; [lia|auto].
  - now apply update_grows; [apply pickup_step| |].
  - now apply update_grows; [apply advance_step| |].
  - now apply update_grows; [apply abort_step| |].
Qed.

Lemma execs_ok (ops : list Op) (srv : Server) :
  server_ok srv -> server_ok (execs ops srv).
Proof.
  revert srv. induction ops as [|op ops IH]; intros srv Hok; [exact Hok|].
  apply IH, exec_ok, Hok.
Qed.

Lemma execs_grows (ops : list Op) (srv : Server) id j :
  server_ok srv -> jobs srv !! id = Some j ->
  exists j', jobs (execs ops srv) !! id = Some j' /\
    JobManager.progress j <= JobManager.progress j' /\
    (terminal (JobManager.status j) = true -> j' = j).
Proof.
  revert srv j. induction ops as [|op ops IH]; intros srv j Hok Hl.
  - exists j. repeat split; auto. lia.
  - destruct (exec_grows op srv id j Hok Hl) as (j1 & Hl1 & Hp1 & Ht1).
    destruct (IH (exec op srv) j1 (exec_ok op srv Hok) Hl1)
      as (j2 & Hl2 & Hp2 & Ht2).
    exists j2. split; [exact Hl2|]. split; [lia|].
    intros Ht. rewrite (Ht1 Ht) in *. auto.
Qed.

Lemma emptyServer_ok (configured : list string) :
  server_ok (emptyServer configured).
Proof. split; intros; cbn in *; [|apply lookup_empty].
  rewrite lookup_empty in *. discriminate.
Qed.

Lemma execs_app (ops1 ops2 : list Op) (srv : Server) :
  execs (ops1 ++ ops2) srv = execs ops2 (execs ops1 srv).
Proof. unfold execs. apply foldl_app. Qed.

End JobManagerFacts.

(** C6. Whatever operations the server has gone through, the answer to a
    status request for a job it knows is delivered to the client as it
    is, its status is one of queued, processing, completed and error
    (each of which the status badge knows by its own label), and its
    progress lies between 0 and 100. *)
Theorem job_status_response_range (configured : list string)
    (ops : list JobManager.Op) (jobId : nat) (j : JobManager.Job) :
  let srv := JobManager.execs ops (JobManager.emptyServer configured) in
  JobManager.getStatus jobId srv = Some j ->
  let r := job_status jobId j in
  settle (get_job_status jobId srv) = inr r /\
  status_name (status r) ∈ ["queued"; "processing"; "completed"; "error"] /\
  getStatusText (status_name (status r))
    ∈ ["Na fila"; "Processando"; "Concluído"; "Erro"] /\
  0 <= progress r <= 100.
Proof.
  intros srv Hget r.
  pose proof (execs_ok ops _ (emptyServer_ok configured)) as [Hjobs _].
  fold srv in Hjobs. unfold JobManager.getStatus in Hget.
  pose proof (Hjobs jobId j Hget) as Hok. unfold job_ok in Hok.
  pose proof (progress_of_bounds (JobManager.segments j)) as Hb.
  split.
  { unfold get_job_status, JobManager.getStatus. rewrite Hget. reflexivity. }
  subst r. cbn [status progress job_status].
  split; [|split; [|lia]].
  - destruct (JobManager.status j); cbn; repeat constructor.
  - destruct (JobManager.status j); vm_compute; repeat constructor.
Qed.

Lemma job_status_response_range_witness :
  exists r : JobStatusResponse,
    progress r = 33 /\ status r = Processing /\
    settle (get_job_status 0
              (JobManager.execs demo_ops1 (JobManager.emptyServer ["gemini"])))
      = inr r /\
    status_name (status r) ∈ ["queued"; "processing"; "completed"; "error"] /\
    getStatusText (status_name (status r))
      ∈ ["Na fila"; "Processando"; "Concluído"; "Erro"] /\
    0 <= progress r <= 100.
Proof.
  destruct (JobManager.getStatus 0
              (JobManager.execs demo_ops1 (JobManager.emptyServer ["gemini"])))
    as [j|] eqn:Hj; [|vm_compute in Hj; discriminate Hj].
  exists (job_status 0 j).
  pose proof (job_status_response_range ["gemini"] demo_ops1 0 j Hj) as Hw.
  vm_compute in Hj. injection Hj as <-.
  split; [reflexivity|]. split; [reflexivity|]. exact Hw.
Defined.

(** The progress of the three-caption job, poll after poll. *)
Example demo_progress_sequence :
  let srv n := JobManager.execs (take n (demo_ops1 ++ demo_ops2))
                 (JobManager.emptyServer ["gemini"]) in
  map (fun n => JobManager.progress <$> JobManager.getStatus 0 (srv n))
      [1; 2; 3; 4; 5]%nat
  = [Some 0; Some 0; Some 33; Some 66; Some 100].
Proof. vm_compute. reflexivity. Qed.

(** ** The submit contract *)

Lemma exec_providers (op : JobManager.Op) (srv : JobManager.Server) :
  JobManager.providers (JobManager.exec op srv) = JobManager.providers srv.
Proof.
  destruct op; cbn; try reflexivity.
  unfold JobManager.submit.
  destruct (JobManager.providers srv) eqn:E; [cbn; congruence|].
  destruct (decide _); cbn; congruence.
Qed.

Lemma execs_providers (ops : list JobManager.Op) (srv : JobManager.Server) :
  JobManager.providers (JobManager.execs ops srv) = JobManager.providers srv.
Proof.
  revert srv. induction ops as [|op ops IH]; intros srv; [reflexivity|].
  cbn. change (foldl _ ?s ops) with (JobManager.execs ops s).
  now rewrite IH, exec_providers.
Qed.

(** C5. Against the server of the specification, in any state it can
    reach, a submission that gets as far as the process request is
    answered 400 when no provider is configured, 409 when providers are
    configured and an identical job (same video and languages) is still
    in flight, and 202 otherwise; the video is the one whose id the URL
    holds, whatever the form of the address. On 202 a new job exists on
    the server, queued with progress 0, and the client stores its id and
    goes on showing that it is processing; from then on a process request
    for the same video and languages, under any URL that holds its id, is
    answered 409. On 400 and 409 the server is unchanged, and the client
    stores no job id, shows the detail of the answer in an alert and
    stops showing that it is processing. *)
Theorem submit_contract (captions : string -> list JobManager.Segment)
    (other : Backend) (configured : list string) (ops : list JobManager.Op)
    (geminiApiKey : option string) (sourceLanguage targetLanguage : string)
    (shouldRetranslate : bool) (url id : string) (check : VideoCheckResponse)
    (w : World) :
  let srv := JobManager.execs ops (JobManager.emptyServer configured) in
  let found := exists_ check && truthy (check_video_id check) in
  let req := process_request geminiApiKey sourceLanguage targetLanguage url
               (if found then Some true else None) in
  let reply := submit_translation_job captions id sourceLanguage
                 targetLanguage srv in
  let out := handleUrlSubmit (serve captions srv other) geminiApiKey
               sourceLanguage targetLanguage shouldRetranslate url w in
  let busy := map_Exists
                (fun _ j => JobManager.same_request id sourceLanguage
                              targetLanguage j /\ JobManager.in_flight j)
                (JobManager.jobs srv) in
  truthy geminiApiKey = true -> extractVideoId url = Some id ->
  video_check other url sourceLanguage targetLanguage = inr check ->
  found && negb shouldRetranslate = false ->
  video_process (serve captions srv other) req = settle (fst reply) /\
  (configured = [] ->
     exists d, fst reply = ErrorReply 400 (Some d) /\ snd reply = srv /\
       jobId (snd out) = jobId w /\ processing (snd out) = false /\
       alerts (snd out) = alerts w ++ [d]) /\
  (configured <> [] -> busy ->
     exists d, fst reply = ErrorReply 409 (Some d) /\ snd reply = srv /\
       jobId (snd out) = jobId w /\ processing (snd out) = false /\
       alerts (snd out) = alerts w ++ [d]) /\
  (configured <> [] -> ~ busy ->
     exists n body job,
       fst reply = Reply 202 body /\ process_job_id body = pretty n /\
       JobManager.getStatus n srv = None /\
       JobManager.getStatus n (snd reply) = Some job /\
       JobManager.status job = Queued /\ JobManager.progress job = 0 /\
       JobManager.same_request id sourceLanguage targetLanguage job /\
       jobId (snd out) = Some (pretty n) /\ processing (snd out) = true /\
       alerts (snd out) = alerts w /\
       forall url' key' force, extractVideoId url' = Some id ->
         exists d,
           video_process (serve captions (snd reply) other)
             (process_request key' sourceLanguage targetLanguage url' force)
           = inl {| response :=
                      Some {| http_status := 409; detail := Some d |} |}).
Proof.
  intros srv found req reply out busy Hkey Hid Hcheck Hsub.
  assert (Hvp : video_process (serve captions srv other) req
                = settle (fst reply)).
  { subst req reply. unfold serve, process_request.
    cbn [video_process youtube_url source_language target_language].
    now rewrite Hid. }
  split; [exact Hvp|].
  destruct (handleUrlSubmit_cases (serve captions srv other) geminiApiKey
              sourceLanguage targetLanguage shouldRetranslate url w)
    as (_ & _ & Hcases).
  destruct (Hcases id check Hkey Hid Hcheck) as (_ & Hacc & Hrej).
  fold found in Hacc, Hrej. specialize (Hacc Hsub). specialize (Hrej Hsub).
  fold req in Hacc, Hrej. fold out in Hacc, Hrej.
  rewrite Hvp in Hacc, Hrej. clear Hvp.
  assert (Hprov : JobManager.providers srv = configured)
    by (subst srv; now rewrite execs_providers).
  pose proof (execs_ok ops _ (emptyServer_ok configured)) as [_ Hfresh].
  fold srv in Hfresh.
  subst reply. unfold submit_translation_job, JobManager.submit in *.
  rewrite Hprov in *.
  fold busy in Hacc, Hrej |- *.
  split; [|split].
  - intros ->. cbn [fst snd] in *. eexists.
    split; [reflexivity|]. split; [reflexivity|].
    destruct (Hrej _ eq_refl) as (_ & Hj & Hp & Ha & _).
    repeat split; assumption.
  - intros Hne Hbusy. destruct configured as [|p ps]; [done|].
    destruct (decide busy) as [_|Hn]; [|done]. cbn [fst snd] in *.
    eexists. split; [reflexivity|]. split; [reflexivity|].
    destruct (Hrej _ eq_refl) as (_ & Hj & Hp & Ha & _).
    repeat split; assumption.
  - intros Hne Hfree. destruct configured as [|p ps]; [done|].
    destruct (decide busy) as [Hb|_]; [done|]. cbn [fst snd] in *.
    destruct (Hacc _ eq_refl) as (_ & Hj & Hp & Ha & _).
    eexists (JobManager.nextJob srv), _, _.
    split; [reflexivity|]. split; [reflexivity|].
    split; [apply Hfresh; lia|].
    split; [unfold JobManager.getStatus; cbn; apply lookup_insert_eq|].
    cbn [JobManager.status JobManager.progress].
    do 6 (split; [first [reflexivity | assumption | now repeat split]|]).
    intros url' key' force Hid'. unfold serve, process_request.
    cbn [video_process youtube_url source_language target_language].
    rewrite Hid'. unfold submit_translation_job, JobManager.submit.
    cbn [JobManager.providers].
    destruct (decide _) as [_|Hnone].
    + cbn. eauto.
    + exfalso. apply Hnone.
      exists (JobManager.nextJob srv). eexists.
      split; [cbn; apply lookup_insert_eq|]. now repeat split.
Qed.

Lemma submit_contract_witness :
  let captions := fun _ : string => demo_captions in
  let idle := JobManager.emptyServer ["gemini"] in
  let busy := JobManager.execs
                [JobManager.Submit demo_video "en" "pt" demo_captions]
                (JobManager.emptyServer ["gemini"]) in
  let submit_to := fun srv url =>
    handleUrlSubmit (serve captions srv (demo_backend false))
      (Some "AIza-key") "en" "pt" false url initialWorld in
  (exists n : nat, jobId (snd (submit_to idle demo_url)) = Some (pretty n) /\
             processing (snd (submit_to idle demo_url)) = true) /\
  (exists d, jobId (snd (submit_to busy demo_short_url)) = None /\
             processing (snd (submit_to busy demo_short_url)) = false /\
             alerts (snd (submit_to busy demo_short_url)) = [d]).
Proof.
  intros captions idle busy submit_to.
  pose (check := {| exists_ := false; translation_id := None;
                    check_video_id := None |}).
  split.
  - pose proof (submit_contract captions (demo_backend false) ["gemini"] []
                  (Some "AIza-key") "en" "pt" false demo_url demo_video
                  check initialWorld) as H.
    specialize (H eq_refl). specialize (H eq_refl).
    specialize (H eq_refl eq_refl).
    destruct H as (_ & _ & _ & Hfree).
    destruct Hfree
      as (n & body & job & _ & _ & _ & _ & _ & _ & _ & Hj & Hp & _).
    + discriminate.
    + intros (i & j & Hl & _). cbn in Hl. rewrite lookup_empty in Hl.
      discriminate Hl.
    + exists n. split; [exact Hj | exact Hp].
  - pose proof (submit_contract captions (demo_backend false) ["gemini"]
                  [JobManager.Submit demo_video "en" "pt" demo_captions]
                  (Some "AIza-key") "en" "pt" false demo_short_url demo_video
                  check initialWorld) as H.
    specialize (H eq_refl). specialize (H eq_refl).
    specialize (H eq_refl eq_refl).
    destruct H as (_ & _ & Hbusy & _).
    destruct Hbusy as (d & _ & _ & Hj & Hp & Ha).
    + discriminate.
    + destruct (JobManager.jobs busy !! 0%nat) as [j|] eqn:Hl;
        [|vm_compute in Hl; discriminate Hl].
      exists 0%nat, j. split; [exact Hl|].
      vm_compute in Hl. injection Hl as <-. vm_compute. auto.
    + exists d. split; [exact Hj|]. split; [exact Hp | exact Ha].
Defined.

(** The same video under two forms of its address: the first request is
    accepted, the second one is refused while the job is in flight, and
    accepted again once the job has ended. *)
Example submit_same_video_twice :
  let captions := fun _ : string => demo_captions in
  let post srv url :=
    submit_translation_job captions (default "" (extractVideoId url))
      "en" "pt" srv in
  let code {A} (r : HttpReply A) :=
    match r with
    | Reply c _ | ErrorReply c _ => Some c
    | NetworkError => None
    end in
  let srv0 := JobManager.emptyServer ["gemini"] in
  let srv1 := snd (post srv0 demo_url) in
  let srv2 := JobManager.execs
                [JobManager.Pickup 0;
                 JobManager.Abort 0 Router.timeout] srv1 in
  extractVideoId demo_url = Some demo_video /\
  extractVideoId demo_short_url = Some demo_video /\
  code (fst (post srv0 demo_url)) = Some 202 /\
  code (fst (post srv1 demo_short_url)) = Some 409 /\
  code (fst (post srv1 demo_url)) = Some 409 /\
  code (fst (post srv2 demo_short_url)) = Some 202.
Proof. vm_compute. repeat split. Qed.

(** ** The provider router *)

Section RouterFacts.
Import Router.

Lemma sublist_Forall {A} (P : A -> Prop) (l k : list A) :
  l `sublist_of` k -> Forall P k -> Forall P l.
Proof.
  induction 1 as [|x l k _ IH|x l k _ IH]; intros HF.
  - constructor.
  - inversion HF; subst. constructor; auto.
  - inversion HF; subst. auto.
Qed.

Lemma sublist_StronglySorted {A} (R : relation A) (l k : list A) :
  l `sublist_of` k -> StronglySorted R k -> StronglySorted R l.
Proof.
  induction 1 as [|x l k Hs IH|x l k Hs IH]; intros HS.
  - constructor.
  - apply StronglySorted_cons in HS as [HF HS].
    apply StronglySorted_cons. split; [|auto].
    eapply sublist_Forall; eauto.
  - apply StronglySorted_cons in HS as [_ HS]. auto.
Qed.

Lemma of_provider_provider vault p c :
  c ∈ of_provider vault p -> provider c = p.
Proof.
  unfold of_provider. intros Hc. apply list_elem_of_In, in_map_iff in Hc.
  destruct Hc as (h & <- & _). reflexivity.
Qed.

Lemma flat_map_sorted vault (l : list Provider) :
  StronglySorted before l ->
  StronglySorted by_priority (flat_map (of_provider vault) l).
Proof.
  induction l as [|p l IH]; intros HS; [constructor|].
  apply StronglySorted_cons in HS as [HF HS]. cbn [flat_map].
  apply StronglySorted_app_2.
  - intros a b Ha Hb. apply of_provider_provider in Ha.
    apply list_elem_of_In, in_flat_map in Hb as (q & Hq & Hb).
    apply list_elem_of_In, of_provider_provider in Hb.
    unfold by_priority. rewrite Ha, Hb.
    rewrite Forall_forall in HF. apply HF. now apply list_elem_of_In.
  - remember (of_provider vault p) as cs eqn:Hcs.
    assert (Hall : forall c, c ∈ cs -> provider c = p)
      by (intros c Hc; subst cs; eauto using of_provider_provider).
    clear Hcs. induction cs as [|c cs IHcs]; [constructor|].
    apply StronglySorted_cons. split.
    + apply Forall_forall. intros d Hd. unfold by_priority, before.
      rewrite (Hall c), (Hall d); [lia| |]; apply elem_of_cons; auto.
    + apply IHcs. intros d Hd. apply Hall. apply elem_of_cons; auto.
  - auto.
Qed.

Lemma candidates_sorted configured vault :
  StronglySorted by_priority (candidates configured vault).
Proof.
  unfold candidates. apply flat_map_sorted.
  apply StronglySorted_merge_sort; apply _.
Qed.

Lemma attempt_called_sublist translate cands cache last :
  called (attempt translate cands cache last) `sublist_of` cands.
Proof.
  revert cache last. induction cands as [|c rest IH]; intros cache last.
  - constructor.
  - cbn [attempt]. destruct (is_blocked cache c).
    + apply sublist_cons, IH.
    + destruct (translate c) as [text|reason]; cbn [called].
      * apply sublist_skip, sublist_nil_l.
      * apply sublist_skip, IH.
Qed.

(** Nothing is called after a success, and the success is the result. *)
Lemma attempt_stops_at_success translate cands cache last pre c post text :
  called (attempt translate cands cache last) = pre ++ c :: post ->
  translate c = success text ->
  post = [] /\ result (attempt translate cands cache last) = Translated c text.
Proof.
  revert cache last pre.
  induction cands as [|c0 rest IH]; intros cache last pre Hcalled Hok.
  - cbn in Hcalled. destruct pre; discriminate.
  - cbn [attempt] in *. destruct (is_blocked cache c0); [eauto|].
    destruct (translate c0) as [text0|reason] eqn:H0; cbn [called result] in *.
    + destruct pre as [|x pre]; cbn in Hcalled.
      * injection Hcalled as <- <-. split; [reflexivity|]. congruence.
      * injection Hcalled as _ Habs. destruct pre; discriminate.
    + destruct pre as [|x pre]; cbn in Hcalled.
      * injection Hcalled as <- _. congruence.
      * injection Hcalled as _ Hrest. eauto.
Qed.

(** The provider whose priority is below every other one comes first. *)
Lemma merge_sort_head (configured : list Provider) (p1 : Provider) :
  p1 ∈ configured ->
  (forall q, q ∈ configured -> q <> p1 -> (priority p1 < priority q)%nat) ->
  exists rest, merge_sort before configured = p1 :: rest.
Proof.
  intros Hin Hmin.
  pose proof (merge_sort_Permutation before configured) as Hperm.
  pose proof (StronglySorted_merge_sort before configured) as HS.
  destruct (merge_sort before configured) as [|h t] eqn:Hl.
  - rewrite <- Hperm in Hin. inversion Hin.
  - destruct (decide (h = p1)) as [->|Hne]; [eauto|].
    exfalso.
    assert (Hh : h ∈ configured) by (rewrite <- Hperm; apply elem_of_cons; auto).
    pose proof (Hmin h Hh Hne) as Hlt.
    assert (Hp : p1 ∈ t).
    { rewrite <- Hperm in Hin. apply elem_of_cons in Hin as [->|Hin]; done. }
    apply StronglySorted_cons in HS as [HF _].
    rewrite Forall_forall in HF. specialize (HF p1 Hp).
    unfold before in HF. lia.
Qed.

Lemma candidates_configured configured vault c :
  c ∈ candidates configured vault -> provider c ∈ configured.
Proof.
  unfold candidates. intros Hc.
  apply list_elem_of_In, in_flat_map in Hc as (p & Hp & Hc).
  apply list_elem_of_In, of_provider_provider in Hc. subst p.
  apply list_elem_of_In in Hp.
  now rewrite (merge_sort_Permutation before configured) in Hp.
Qed.

Lemma sublist_elem_of {A} (l k : list A) (x : A) :
  l `sublist_of` k -> x ∈ l -> x ∈ k.
Proof.
  induction 1 as [|y l k _ IH|y l k _ IH]; intros Hx; [done| |].
  - apply elem_of_cons in Hx as [->|Hx]; apply elem_of_cons; auto.
  - apply elem_of_cons; auto.
Qed.

Lemma StronglySorted_lookup_lt {A} (R : relation A) (l : list A) i j a b :
  StronglySorted R l -> l !! i = Some a -> l !! j = Some b ->
  (i < j)%nat -> R a b.
Proof.
  intros HS. revert i j. induction HS as [|x l HS IH HF]; intros i j Ha Hb Hij.
  - discriminate.
  - destruct j as [|j]; [lia|]. cbn in Hb. destruct i as [|i]; cbn in Ha.
    + injection Ha as <-. rewrite Forall_forall in HF. apply HF.
      eapply list_elem_of_lookup_2. exact Hb.
    + eapply IH; eauto. lia.
Qed.

Lemma distinct_priorities (l : list Provider) (p q : Provider) :
  NoDup (map priority l) -> p ∈ l -> q ∈ l -> priority p = priority q -> p = q.
Proof.
  induction l as [|x l IH]; intros Hnd Hp Hq Heq; [inversion Hp|].
  cbn in Hnd. apply NoDup_cons in Hnd as [Hx Hnd].
  apply elem_of_cons in Hp as [->|Hp]; apply elem_of_cons in Hq as [->|Hq].
  - reflexivity.
  - exfalso. apply Hx. rewrite Heq. apply list_elem_of_In, in_map.
    now apply list_elem_of_In.
  - exfalso. apply Hx. rewrite <- Heq. apply list_elem_of_In, in_map.
    now apply list_elem_of_In.
  - auto.
Qed.

End RouterFacts.

(** C3. In a round of the router, the candidates called are taken from
    the candidate list in its order, which is the order of the
    providers' priorities (with pairwise distinct priorities, a call to
    one provider comes before a call to another exactly when its
    priority is the smaller one); nothing is called after a call that
    succeeds, and that success is the result of the round. In
    particular, when the
    provider whose priority is below that of every other configured
    provider has a credential, is not blocked and succeeds, it is the
    only candidate called, its translation is the result and the
    availability cache is left as it was. *)
Theorem first_success_ends_round
    (translate : Router.ProviderCandidate -> Router.Outcome)
    (configured : list Router.Provider) (vault : gmap string (list nat))
    (cache : gmap (string * string * nat) Router.Availability) :
  let r := Router.round translate configured vault cache in
  Router.called r `sublist_of` Router.candidates configured vault /\
  StronglySorted
    (fun a b => (Router.priority (Router.provider a)
                 <= Router.priority (Router.provider b))%nat)
    (Router.called r) /\
  (NoDup (map Router.priority configured) ->
   forall i j a b,
     Router.called r !! i = Some a -> Router.called r !! j = Some b ->
     (i < j)%nat -> Router.provider a <> Router.provider b ->
     (Router.priority (Router.provider a)
      < Router.priority (Router.provider b))%nat) /\
  (forall pre c post text,
     Router.called r = pre ++ c :: post ->
     translate c = Router.success text ->
     post = [] /\ Router.result r = Router.Translated c text) /\
  (forall p1 cred creds text,
     p1 ∈ configured ->
     (forall q, q ∈ configured -> q <> p1 ->
        (Router.priority p1 < Router.priority q)%nat) ->
     vault !! Router.name p1 = Some (cred :: creds) ->
     let c1 := {| Router.provider := p1; Router.credential := cred |} in
     Router.is_blocked cache c1 = false ->
     translate c1 = Router.success text ->
     Router.called r = [c1] /\ Router.result r = Router.Translated c1 text /\
     Router.cache_after r = cache).
Proof.
  intros r. subst r. unfold Router.round.
  pose proof (attempt_called_sublist translate
                (Router.candidates configured vault) cache None) as Hsub.
  assert (Hsorted : StronglySorted Router.by_priority
            (Router.called (Router.attempt translate
               (Router.candidates configured vault) cache None))).
  { eapply sublist_StronglySorted; [exact Hsub | apply candidates_sorted]. }
  split; [exact Hsub|]. split; [exact Hsorted|]. split; [|split].
  - intros Hnd i j a b Ha Hb Hij Hne.
    pose proof (StronglySorted_lookup_lt _ _ i j a b Hsorted Ha Hb Hij) as Hle.
    unfold Router.by_priority, Router.before in Hle.
    destruct (decide (Router.priority (Router.provider a)
                      = Router.priority (Router.provider b))) as [Heq|]; [|lia].
    exfalso. apply Hne.
    apply (distinct_priorities configured); [exact Hnd | | | exact Heq].
    + eapply candidates_configured, sublist_elem_of; [exact Hsub|].
      eapply list_elem_of_lookup_2. exact Ha.
    + eapply candidates_configured, sublist_elem_of; [exact Hsub|].
      eapply list_elem_of_lookup_2. exact Hb.
  - intros pre c post text. apply attempt_stops_at_success.
  - intros p1 cred creds text Hin Hmin Hvault. cbv zeta.
    set (c1 := {| Router.provider := p1; Router.credential := cred |}).
    intros Hfree Hok.
    destruct (merge_sort_head configured p1 Hin Hmin) as [rest Hsort].
    unfold Router.candidates. rewrite Hsort. cbn [flat_map].
    assert (Hc : Router.of_provider vault p1 =
                   c1 :: Router.of_provider (<[Router.name p1 := creds]> vault) p1).
    { unfold Router.of_provider. now rewrite Hvault, lookup_insert_eq. }
    rewrite Hc. cbn [app Router.attempt]. rewrite Hfree, Hok. cbn. auto.
Qed.

Lemma first_success_ends_round_witness :
  let r := Router.round (fun _ => Router.success "Olá")
             [demo_groq; demo_gemini] demo_vault ∅ in
  let c1 := {| Router.provider := demo_gemini; Router.credential := 7 |} in
  Router.called r = [c1] /\ Router.result r = Router.Translated c1 "Olá" /\
  Router.cache_after r = ∅.
Proof.
  destruct (first_success_ends_round (fun _ => Router.success "Olá")
              [demo_groq; demo_gemini] demo_vault ∅) as (_ & _ & _ & _ & Hfirst).
  apply (Hfirst demo_gemini 7%nat [] "Olá").
  - apply elem_of_cons. right. apply elem_of_cons. left. reflexivity.
  - intros q Hq Hne. apply elem_of_cons in Hq as [->|Hq].
    + cbn. lia.
    + apply elem_of_cons in Hq as [->|Hq]; [done | inversion Hq].
  - reflexivity.
  - reflexivity.
  - reflexivity.
Defined.

(** With the preferred provider out of quota the round falls back to the
    next one, in priority order whatever the order of configuration, and
    remembers the blocked candidate. *)
Example quota_falls_back :
  let r := Router.round demo_translate [demo_groq; demo_gemini] demo_vault ∅ in
  Router.called r =
    [ {| Router.provider := demo_gemini; Router.credential := 7 |};
      {| Router.provider := demo_groq; Router.credential := 9 |} ] /\
  Router.result r =
    Router.Translated
      {| Router.provider := demo_groq; Router.credential := 9 |} "Olá" /\
  Router.cache_after r !! ("gemini", "gemini-pro", 7%nat) = Some Router.blocked.
Proof. vm_compute. repeat split. Qed.

(** * Further properties of the client *)

(** ** The polling hook, continued *)

(** While an interval runs the spinner is on. *)
Lemma step_polling (e : Event) (h h' : Hook) :
  hook_inv h ->
  (forall id j, intervals h !! id = Some j -> isPolling h = true) ->
  step e h = Some h' ->
  forall id j, intervals h' !! id = Some j -> isPolling h' = true.
Proof.
  intros Hinv Hpoll Hstep id j Hl.
  destruct e as [jid en|tid|c a|c]; cbn in Hstep.
  - injection Hstep as <-.
    pose proof (cleanup_clears h Hinv) as Hempty.
    set (h0 := if cleanup h then clearCurrent h else h) in *.
    unfold effect in *. destruct (negb (truthy jid) || negb en).
    + cbn in Hl. rewrite Hempty, lookup_empty in Hl. discriminate.
    + reflexivity.
  - destruct (intervals h !! tid); [|discriminate].
    injection Hstep as <-. cbn in *. eauto.
  - destruct (pending h !! c); [|discriminate]. injection Hstep as <-.
    unfold resolved in *. destruct (terminal (status a)).
    + rewrite clearCurrent_intervals, lookup_empty in Hl; [discriminate|].
      intros i k Hk. exact (Hinv i k Hk).
    + cbn in *. eauto.
  - destruct (pending h !! c); [|discriminate]. injection Hstep as <-.
    unfold rejected in Hl.
    rewrite clearCurrent_intervals, lookup_empty in Hl; [discriminate|].
    intros i k Hk. exact (Hinv i k Hk).
Qed.

Lemma run_polling (evs : list Event) (h h' : Hook) :
  hook_inv h ->
  (forall id j, intervals h !! id = Some j -> isPolling h = true) ->
  run evs h = Some h' ->
  forall id j, intervals h' !! id = Some j -> isPolling h' = true.
Proof.
  revert h. induction evs as [|e evs IH]; intros h Hinv Hpoll Hrun; cbn in Hrun.
  - now injection Hrun as <-.
  - destruct (step e h) as [h1|] eqn:Hstep; [|discriminate].
    eapply IH; [eapply step_inv; eauto | | exact Hrun].
    eapply step_polling; eauto.
Qed.

Lemma hook_inv_size (h : Hook) : hook_inv h -> (size (intervals h) <= 1)%nat.
Proof.
  intros Hinv. destruct (intervalRef h) as [cur|] eqn:Hr.
  - assert (Hrest : delete cur (intervals h) = ∅).
    { apply map_empty. intros id.
      destruct (decide (cur = id)) as [->|Hne]; [apply lookup_delete_eq|].
      rewrite lookup_delete_ne by done.
      destruct (intervals h !! id) as [j|] eqn:Hl; [|done].
      destruct (Hinv _ _ Hl) as [Href _]. congruence. }
    destruct (intervals h !! cur) as [j|] eqn:Hc.
    + rewrite <- (insert_delete_id _ _ _ Hc), Hrest.
      rewrite map_size_insert_None by apply lookup_empty.
      rewrite map_size_empty. lia.
    + rewrite <- (delete_id _ _ Hc), Hrest, map_size_empty. lia.
  - assert (Hnone : intervals h = ∅).
    { apply map_empty. intros id.
      destruct (intervals h !! id) as [j|] eqn:Hl; [|done].
      destruct (Hinv _ _ Hl) as [Href _]. congruence. }
    rewrite Hnone, map_size_empty. lia.
Qed.

(** X1. In every state the hook can reach at most one interval is
    running; it is the one [intervalRef] holds, and while it runs
    [isPolling] is true. *)
Theorem hook_one_interval (evs : list Event) (h : Hook) :
  run evs initialHook = Some h ->
  (size (intervals h) <= 1)%nat /\
  (forall id j, intervals h !! id = Some j ->
     intervalRef h = Some id /\ isPolling h = true).
Proof.
  intros Hrun. pose proof (reachable_inv _ _ Hrun) as Hinv.
  split; [now apply hook_inv_size|].
  intros id j Hl. split; [apply (Hinv id j Hl)|].
  eapply (run_polling evs initialHook h); eauto using hook_inv_initial.
  intros i k Hk. cbn in Hk. rewrite lookup_empty in Hk. discriminate.
Qed.

Lemma hook_one_interval_witness :
  (size (intervals demo_hook) <= 1)%nat /\
  (forall id j, intervals demo_hook !! id = Some j ->
     intervalRef demo_hook = Some id /\ isPolling demo_hook = true).
Proof.
  apply (hook_one_interval demo_events demo_hook).
  vm_compute. reflexivity.
Defined.

(** X2. When the effect runs without a job id (null or empty) or
    disabled, in any state the hook can reach, the interval of the
    previous run is cleared and no call is made; [jobStatus] and
    [isPolling] are left as they were, so a spinner that was on stays
    on although nothing polls any more. *)
Theorem idle_effect_stops_quietly (evs : list Event) (h : Hook)
    (jobId : option string) (enabled : bool) (h' : Hook) :
  run evs initialHook = Some h ->
  truthy jobId = false \/ enabled = false ->
  step (Effect jobId enabled) h = Some h' ->
  intervals h' = ∅ /\ (forall id, step (Tick id) h' = None) /\
  calls h' = calls h /\ pending h' = pending h /\
  jobStatus h' = jobStatus h /\ isPolling h' = isPolling h.
Proof.
  intros Hrun Hidle Hstep. pose proof (reachable_inv _ _ Hrun) as Hinv.
  cbn in Hstep. injection Hstep as <-.
  pose proof (cleanup_clears h Hinv) as Hempty.
  assert (Hguard : negb (truthy jobId) || negb enabled = true)
    by (destruct Hidle as [-> | ->]; [reflexivity | apply orb_true_r]).
  unfold effect. rewrite Hguard. cbn [intervals setCleanup].
  split; [exact Hempty|]. split.
  { intros id. cbn. now rewrite Hempty, lookup_empty. }
  cbn. destruct (cleanup h); [|auto].
  destruct (clearCurrent_fields h) as (-> & -> & -> & -> & _). auto.
Qed.

Lemma idle_effect_stops_quietly_witness :
  exists h', step (Effect None true) demo_hook = Some h' /\
    intervals h' = ∅ /\ (forall id, step (Tick id) h' = None) /\
    calls h' = calls demo_hook /\ pending h' = pending demo_hook /\
    jobStatus h' = jobStatus demo_hook /\ isPolling h' = true.
Proof.
  eexists. split; [reflexivity|].
  apply (idle_effect_stops_quietly demo_events demo_hook None true).
  - vm_compute. reflexivity.
  - left. reflexivity.
  - reflexivity.
Defined.

Lemma clearCurrent_polls_only (j : string) (h : Hook) :
  polls_only j h -> polls_only j (clearCurrent h).
Proof.
  intros Hp id k Hl. unfold clearCurrent in Hl.
  destruct (intervalRef h) as [cur|]; [|eauto].
  cbn in Hl. apply lookup_delete_Some in Hl as [_ Hl]. eauto.
Qed.

Lemma polls_only_step (j : string) (e : Event) (h h' : Hook) :
  polls_only j h -> is_effect e = false -> step e h = Some h' ->
  polls_only j h' /\ (calls h' = calls h \/ calls h' = calls h ++ [j]).
Proof.
  intros Hp He Hstep.
  destruct e as [jid en|tid|c a|c]; cbn in Hstep; [discriminate He| | |].
  - destruct (intervals h !! tid) as [k|] eqn:Hk; [|discriminate].
    injection Hstep as <-. rewrite (Hp _ _ Hk). split; [exact Hp|].
    right. reflexivity.
  - destruct (pending h !! c); [|discriminate]. injection Hstep as <-.
    unfold resolved. destruct (terminal (status a)).
    + split; [apply clearCurrent_polls_only; exact Hp|]. left.
      now destruct (clearCurrent_fields
        (setIsPolling false (setJobStatus (Some a) (forget c h))))
        as (_ & _ & _ & -> & _).
    + split; [exact Hp|]. left. reflexivity.
  - destruct (pending h !! c); [|discriminate]. injection Hstep as <-.
    unfold rejected. split; [apply clearCurrent_polls_only; exact Hp|].
    left. now destruct (clearCurrent_fields (setIsPolling false (forget c h)))
      as (_ & _ & _ & -> & _).
Qed.

Lemma polls_only_run (j : string) (evs : list Event) (h h' : Hook) :
  polls_only j h -> forallb (fun e => negb (is_effect e)) evs = true ->
  run evs h = Some h' ->
  exists extra, calls h' = calls h ++ extra /\ Forall (eq j) extra.
Proof.
  revert h. induction evs as [|e evs IH]; intros h Hp Hne Hrun; cbn in *.
  - injection Hrun as <-. exists []. now rewrite app_nil_r.
  - destruct (step e h) as [h1|] eqn:Hstep; [|discriminate].
    apply andb_true_iff in Hne as [He Hne]. apply negb_true_iff in He.
    destruct (polls_only_step j e h h1 Hp He Hstep) as [Hp1 Hc1].
    destruct (IH h1 Hp1 Hne Hrun) as (extra & Hc & Hall).
    destruct Hc1 as [Hc1|Hc1]; rewrite Hc1 in Hc.
    + exists extra. auto.
    + exists (j :: extra). rewrite <- app_assoc in Hc. auto.
Qed.

(** X3. When the effect runs for a job, in any state the hook can
    reach, it makes one call for that job at once and turns the spinner
    on, while the status shown is still the one of the job polled
    before; from then on, until the effect runs again, every further
    call is for that job too: an interval started for an earlier job
    never polls again. *)
Theorem effect_polls_its_job (evs : list Event) (h : Hook) (j : string)
    (h1 : Hook) (later : list Event) (h2 : Hook) :
  run evs initialHook = Some h ->
  j <> "" ->
  step (Effect (Some j) true) h = Some h1 ->
  forallb (fun e => negb (is_effect e)) later = true ->
  run later h1 = Some h2 ->
  jobStatus h1 = jobStatus h /\ isPolling h1 = true /\
  calls h1 = calls h ++ [j] /\
  exists extra, calls h2 = calls h ++ j :: extra /\ Forall (eq j) extra.
Proof.
  intros Hrun Hj Hstep Hlater Hrun2.
  pose proof (reachable_inv _ _ Hrun) as Hinv.
  cbn in Hstep. injection Hstep as <-.
  pose proof (cleanup_clears h Hinv) as Hempty.
  set (h0 := if cleanup h then clearCurrent h else h) in *.
  assert (Hfields : jobStatus h0 = jobStatus h /\ calls h0 = calls h).
  { subst h0. destruct (cleanup h); [|auto].
    destruct (clearCurrent_fields h) as (-> & _ & _ & -> & _). auto. }
  destruct Hfields as [Hjs Hcalls].
  assert (Ht : truthy (Some j) = true) by (destruct j; [done|reflexivity]).
  unfold effect in *. rewrite Ht in *. cbn [negb orb default from_option] in *.
  assert (Hp : polls_only j
    (setCleanup true (startInterval j (poll j (setIsPolling true h0))))).
  { intros id k Hl. cbn in Hl. rewrite Hempty in Hl.
    destruct (decide (nextInterval h0 = id)) as [<-|Hne].
    - rewrite lookup_insert_eq in Hl. congruence.
    - rewrite lookup_insert_ne, lookup_empty in Hl by done. discriminate. }
  destruct (polls_only_run j later _ h2 Hp Hlater Hrun2) as (extra & Hc & Hall).
  cbn in Hc. rewrite Hcalls, <- app_assoc in Hc.
  split; [exact Hjs|]. split; [reflexivity|].
  split; [cbn; now rewrite Hcalls|]. exists extra. auto.
Qed.

Lemma effect_polls_its_job_witness :
  exists h1 h2,
    step (Effect (Some "job-2") true) demo_hook = Some h1 /\
    run [Tick 2%positive; Resolve 1 (demo_answer Processing 50)] h1 = Some h2 /\
    jobStatus h1 = jobStatus demo_hook /\ isPolling h1 = true /\
    calls h1 = calls demo_hook ++ ["job-2"] /\
    exists extra, calls h2 = calls demo_hook ++ "job-2" :: extra /\
                  Forall (eq "job-2") extra.
Proof.
  eexists _, _. split; [reflexivity|]. split; [vm_compute; reflexivity|].
  apply (effect_polls_its_job demo_events demo_hook "job-2" _
           [Tick 2%positive; Resolve 1 (demo_answer Processing 50)] _).
  - vm_compute. reflexivity.
  - discriminate.
  - reflexivity.
  - reflexivity.
  - vm_compute. reflexivity.
Defined.

(** ** The video id, continued *)

Lemma take_id_spec (n : nat) (s r : string) :
  take_id n s = Some r ->
  id_chars r = true /\ exists post, s = r +:+ post.
Proof.
  revert s r. induction n as [|n IH]; intros s r H; cbn in H.
  - injection H as <-. split; [reflexivity|]. now exists s.
  - destruct s as [|c s]; [discriminate|].
    destruct (is_id_char c) eqn:Hc; [|discriminate].
    destruct (take_id n s) as [r'|] eqn:Hr; [|discriminate].
    injection H as <-. destruct (IH _ _ Hr) as (Hid & post & ->).
    split; [cbn; now rewrite Hc, Hid|].
    exists post. now rewrite append_String.
Qed.

Lemma strip_prefix_spec (p s r : string) :
  strip_prefix p s = Some r -> s = p +:+ r.
Proof.
  revert s. induction p as [|c p IH]; intros s H; cbn in H.
  - now injection H as <-.
  - destruct s as [|d s]; [discriminate|].
    destruct (decide (c = d)) as [<-|]; [|discriminate].
    rewrite append_String. f_equal. auto.
Qed.

Lemma occurs_in_String (c : ascii) (id s : string) :
  occurs_in id s -> occurs_in id (String c s).
Proof.
  intros (pre & post & ->). exists (String c pre), post.
  now rewrite append_String.
Qed.

Lemma occurs_in_append (p id s : string) :
  occurs_in id s -> occurs_in id (p +:+ s).
Proof.
  intros (pre & post & ->). exists (p +:+ pre), post.
  now rewrite append_assoc.
Qed.

Lemma bind_take_id_occurs (p s r : string) :
  strip_prefix p s ≫= take_id 11 = Some r ->
  id_chars r = true /\ occurs_in r s.
Proof.
  destruct (strip_prefix p s) as [rest|] eqn:Hp; [|discriminate].
  cbn [mbind option_bind]. intros Ht.
  apply strip_prefix_spec in Hp as ->.
  destruct (take_id_spec _ _ _ Ht) as (Hid & post & ->).
  split; [exact Hid|]. now exists p, post.
Qed.

Lemma pattern1_here_occurs (s r : string) :
  pattern1_here s = Some r -> id_chars r = true /\ occurs_in r s.
Proof.
  unfold pattern1_here. intros H.
  apply or_else_Some in H as [H|H]; [now apply bind_take_id_occurs in H|].
  apply or_else_Some in H as [H|H]; now apply bind_take_id_occurs in H.
Qed.

Lemma dot_star_v_occurs (s r : string) :
  dot_star_v s = Some r -> id_chars r = true /\ occurs_in r s.
Proof.
  revert r. induction s as [|c s IH]; intros r H.
  - cbn in H. discriminate.
  - cbn [dot_star_v] in H.
    destruct (at_line_terminator (String c s)).
    + now apply bind_take_id_occurs in H.
    + apply or_else_Some in H as [H|H].
      * destruct (IH _ H) as [Hid Hocc]. split; [exact Hid|].
        now apply occurs_in_String.
      * now apply bind_take_id_occurs in H.
Qed.

Lemma pattern2_here_occurs (s r : string) :
  pattern2_here s = Some r -> id_chars r = true /\ occurs_in r s.
Proof.
  unfold pattern2_here.
  destruct (strip_prefix "youtube.com/watch?" s) as [rest|] eqn:Hp;
    [|discriminate].
  cbn [mbind option_bind]. intros H.
  apply strip_prefix_spec in Hp as ->.
  destruct (dot_star_v_occurs _ _ H) as [Hid Hocc].
  split; [exact Hid|]. now apply occurs_in_append.
Qed.

Lemma search_occurs (here : string -> option string) (s r : string) :
  (forall s' r', here s' = Some r' -> id_chars r' = true /\ occurs_in r' s') ->
  search here s = Some r -> id_chars r = true /\ occurs_in r s.
Proof.
  intros Hhere. revert r. induction s as [|c s IH]; intros r H; cbn in H.
  - destruct (here "") eqn:E; [|discriminate]. injection H as <-. eauto.
  - destruct (here (String c s)) eqn:E.
    + injection H as <-. eauto.
    + destruct (IH _ H) as [Hid Hocc]. split; [exact Hid|].
      now apply occurs_in_String.
Qed.

(** X4. Whatever [extractVideoId] returns is a piece of the URL: eleven
    characters, each a letter, a digit, an underscore or a hyphen, that
    occur in the URL in that order and next to each other. *)
Theorem extractVideoId_is_part_of_url (url id : string) :
  extractVideoId url = Some id ->
  String.length id = 11%nat /\ id_chars id = true /\ occurs_in id url.
Proof.
  intros H. split; [now apply extractVideoId_length in H|].
  unfold extractVideoId in H. apply or_else_Some in H as [H|H].
  - eapply search_occurs; [apply pattern1_here_occurs | exact H].
  - eapply search_occurs; [apply pattern2_here_occurs | exact H].
Qed.

Lemma extractVideoId_is_part_of_url_witness :
  String.length "dQw4w9WgXcQ" = 11%nat /\ id_chars "dQw4w9WgXcQ" = true /\
  occurs_in "dQw4w9WgXcQ" "https://youtu.be/dQw4w9WgXcQ?t=42".
Proof.
  apply (extractVideoId_is_part_of_url "https://youtu.be/dQw4w9WgXcQ?t=42").
  vm_compute. reflexivity.
Defined.

Lemma take_id_append (id rest : string) :
  id_chars id = true ->
  take_id (String.length id) (id +:+ rest) = Some id.
Proof.
  induction id as [|c id IH]; intros Hid; [reflexivity|].
  cbn in Hid. apply andb_true_iff in Hid as [Hc Hid].
  rewrite append_String. cbn [String.length take_id]. rewrite Hc.
  now rewrite (IH Hid).
Qed.

Lemma pattern1_here_not_y (c : ascii) (s : string) :
  (nat_of_ascii c =? 121)%nat = false -> pattern1_here (String c s) = None.
Proof.
  intros Hc. unfold pattern1_here.
  assert (Hne : "y"%char <> c).
  { intros <-. discriminate Hc. }
  cbn [strip_prefix].
  destruct (decide ("y"%char = c)) as [Heq|_]; [contradiction|].
  reflexivity.
Qed.

Lemma search_skips_scheme (scheme s : string) :
  no_y scheme = true ->
  search pattern1_here (scheme +:+ s) = search pattern1_here s.
Proof.
  induction scheme as [|c scheme IH]; intros Hy; [reflexivity|].
  cbn in Hy. apply andb_true_iff in Hy as [Hc Hy].
  apply negb_true_iff in Hc.
  rewrite append_String. cbn [search].
  rewrite (pattern1_here_not_y _ _ Hc). auto.
Qed.

Lemma search_here (here : string -> option string) (s r : string) :
  here s = Some r -> search here s = Some r.
Proof. intros H. destruct s; cbn; now rewrite H. Qed.

(** X5. The three usual forms of a link are read back correctly: after
    any beginning without the letter y (such as [https://www.] or
    [https://m.]), the text [youtube.com/watch?v=], [youtu.be/] or
    [youtube.com/embed/] followed by an eleven-character id and anything
    else yields exactly that id. In particular the address
    [handleVideoSelect] builds from a stored id gives the id back. *)
Theorem extractVideoId_reads_links (scheme id rest : string) :
  no_y scheme = true -> String.length id = 11%nat -> id_chars id = true ->
  extractVideoId (scheme +:+ "youtube.com/watch?v=" +:+ id +:+ rest) = Some id /\
  extractVideoId (scheme +:+ "youtu.be/" +:+ id +:+ rest) = Some id /\
  extractVideoId (scheme +:+ "youtube.com/embed/" +:+ id +:+ rest) = Some id.
Proof.
  intros Hy Hlen Hid.
  pose proof (take_id_append id rest Hid) as Htake. rewrite Hlen in Htake.
  unfold extractVideoId. rewrite !(search_skips_scheme _ _ Hy).
  repeat split.
  - rewrite (search_here pattern1_here _ id); [reflexivity|].
    unfold pattern1_here.
    change (strip_prefix "youtube.com/watch?v="
              ("youtube.com/watch?v=" +:+ id +:+ rest))
      with (Some (id +:+ rest)).
    cbn [mbind option_bind]. now rewrite Htake.
  - rewrite (search_here pattern1_here _ id); [reflexivity|].
    unfold pattern1_here.
    change (strip_prefix "youtube.com/watch?v=" ("youtu.be/" +:+ id +:+ rest))
      with (@None string).
    change (strip_prefix "youtu.be/" ("youtu.be/" +:+ id +:+ rest))
      with (Some (id +:+ rest)).
    cbn [mbind option_bind or_else]. now rewrite Htake.
  - rewrite (search_here pattern1_here _ id); [reflexivity|].
    unfold pattern1_here.
    change (strip_prefix "youtube.com/watch?v="
              ("youtube.com/embed/" +:+ id +:+ rest))
      with (@None string).
    change (strip_prefix "youtu.be/" ("youtube.com/embed/" +:+ id +:+ rest))
      with (@None string).
    change (strip_prefix "youtube.com/embed/"
              ("youtube.com/embed/" +:+ id +:+ rest))
      with (Some (id +:+ rest)).
    cbn [mbind option_bind or_else]. now rewrite Htake.
Qed.

Lemma extractVideoId_reads_links_witness :
  extractVideoId ("https://www." +:+ "youtube.com/watch?v=" +:+ "dQw4w9WgXcQ" +:+ "")
    = Some "dQw4w9WgXcQ" /\
  extractVideoId ("https://www." +:+ "youtu.be/" +:+ "dQw4w9WgXcQ" +:+ "")
    = Some "dQw4w9WgXcQ" /\
  extractVideoId ("https://www." +:+ "youtube.com/embed/" +:+ "dQw4w9WgXcQ" +:+ "")
    = Some "dQw4w9WgXcQ".
Proof.
  apply (extractVideoId_reads_links "https://www." "dQw4w9WgXcQ" "");
    reflexivity.
Defined.

(** ** Loading subtitles and submitting, continued *)

Lemma loadSubtitles_unfolded (backend : Backend)
    (video_id source_language target_language : string) (w : World) :
  loadSubtitles backend video_id source_language target_language w =
    let w1 := logRequest
                (subtitles_request video_id source_language target_language)
                (withError None (withLoading true w)) in
    match video_subtitles backend video_id source_language target_language with
    | inr data => (inr tt, withLoading false (withSubtitles (Some data) w1))
    | inl err =>
        (inr tt,
         withLoading false
           (withSubtitles None
              (withError (Some (detail_or err "Erro ao carregar legendas")) w1)))
    end.
Proof.
  cbv beta iota zeta delta
    [loadSubtitles videoApi_getSubtitles setSubtitles setLoading setError
     modify await_call try_catch bind subtitles_request].
  destruct (video_subtitles backend video_id source_language target_language);
    reflexivity.
Qed.

(** X6. [loadSubtitles] never fails towards its caller and always ends
    with [loading] off, having issued exactly one request. When the
    request succeeds the subtitles received are stored and the error is
    cleared; when it fails the subtitles held before are dropped and the
    error is the detail sent by the server, or a fixed message when there
    is none. Job id, alerts and the processing flag are not touched. *)
Theorem loadSubtitles_outcome (backend : Backend)
    (video_id source_language target_language : string) (w : World) :
  let out := loadSubtitles backend video_id source_language target_language w in
  fst out = inr tt /\ loading (snd out) = false /\
  sent (snd out) =
    sent w ++ [subtitles_request video_id source_language target_language] /\
  jobId (snd out) = jobId w /\ alerts (snd out) = alerts w /\
  processing (snd out) = processing w /\
  match video_subtitles backend video_id source_language target_language with
  | inr data =>
      subtitles (snd out) = Some data /\ subtitlesError (snd out) = None
  | inl err =>
      subtitles (snd out) = None /\
      subtitlesError (snd out) =
        Some (detail_or err "Erro ao carregar legendas")
  end.
Proof.
  intros out. subst out. rewrite loadSubtitles_unfolded. cbv zeta.
  destruct (video_subtitles backend video_id source_language target_language);
    read_whole_page; auto 10.
Qed.

(** The handler written out as the page it leaves, path by path. *)
Lemma handleUrlSubmit_unfolded (backend : Backend) (geminiApiKey : option string)
    (sourceLanguage targetLanguage : string) (shouldRetranslate : bool)
    (url : string) (w : World) :
  handleUrlSubmit backend geminiApiKey sourceLanguage targetLanguage
    shouldRetranslate url w =
  (inr tt,
   if truthy geminiApiKey then
     match extractVideoId url with
     | None => showAlert "URL do YouTube inválida." (withYoutubeUrl url w)
     | Some id =>
         let w1 := page_after_check sourceLanguage targetLanguage url id w in
         match video_check backend url sourceLanguage targetLanguage with
         | inl e => page_after_catch e w1
         | inr check =>
             if exists_ check && truthy (check_video_id check) then
               if shouldRetranslate then
                 page_after_process backend
                   (process_request geminiApiKey sourceLanguage targetLanguage
                      url (Some true))
                   (askConfirm retranslate_question w1)
               else
                 withProcessing false
                   (snd (loadSubtitles backend
                           (default "" (check_video_id check))
                           sourceLanguage targetLanguage
                           (askConfirm retranslate_question w1)))
             else
               page_after_process backend
                 (process_request geminiApiKey sourceLanguage targetLanguage
                    url None) w1
         end
     end
   else
     showAlert "Por favor, configure sua chave de API do Gemini primeiro." w).
Proof.
  unfold handleUrlSubmit.
  destruct (truthy geminiApiKey) eqn:Hkey; cbn [negb]; [|reflexivity].
  destruct (extractVideoId url) as [id|] eqn:Hid.
  - rewrite (extractVideoId_truthy _ _ Hid).
    cbv beta iota zeta delta
      [videoApi_check setYoutubeUrl setVideoId setProcessing modify alert
       await_call try_catch bind negb page_after_check check_request
       page_after_catch].
    destruct (video_check backend url sourceLanguage targetLanguage)
      as [e|check]; [reflexivity|].
    destruct (exists_ check && truthy (check_video_id check)).
    + cbv beta iota zeta delta [window_confirm].
      destruct shouldRetranslate.
      * cbv beta iota zeta delta
          [videoApi_process setJobId modify await_call page_after_process
           process_request page_after_catch].
        destruct (video_process backend _); reflexivity.
      * rewrite loadSubtitles_unfolded. cbv zeta.
        destruct (video_subtitles backend _ _ _); reflexivity.
    + cbv beta iota zeta delta
        [videoApi_process setJobId modify await_call page_after_process
         process_request page_after_catch].
      destruct (video_process backend _); reflexivity.
  - cbv beta iota zeta delta
      [truthy setYoutubeUrl modify alert bind negb]. reflexivity.
Qed.

(** X7. When the existence check fails, the handler does not post a
    process request: it shows the detail of the failure (or a fixed
    message) in an alert, turns the processing flag off again and keeps
    the job id it had; the URL and the video id of the attempt stay
    stored. *)
Theorem handleUrlSubmit_check_failure (backend : Backend)
    (geminiApiKey : option string) (sourceLanguage targetLanguage : string)
    (shouldRetranslate : bool) (url id : string) (e : AxiosError) (w : World) :
  truthy geminiApiKey = true -> extractVideoId url = Some id ->
  video_check backend url sourceLanguage targetLanguage = inl e ->
  let out := handleUrlSubmit backend geminiApiKey sourceLanguage
               targetLanguage shouldRetranslate url w in
  fst out = inr tt /\
  sent (snd out) = sent w ++ [check_request sourceLanguage targetLanguage url] /\
  alerts (snd out) = alerts w ++ [detail_or e "Erro ao processar vídeo"] /\
  processing (snd out) = false /\ jobId (snd out) = jobId w /\
  youtubeUrl (snd out) = url /\ videoId (snd out) = Some id.
Proof.
  intros Hkey Hid Hcheck out. subst out.
  rewrite handleUrlSubmit_unfolded, Hkey, Hid, Hcheck.
  unfold page_after_catch, page_after_check. read_whole_page. auto 10.
Qed.

Lemma handleUrlSubmit_check_failure_witness :
  let offline :=
    {| video_check := fun _ _ _ => inl {| response := None |};
       video_process := video_process (demo_backend false);
       video_subtitles := video_subtitles (demo_backend false);
       video_job_status := video_job_status (demo_backend false);
       usage_stats := usage_stats (demo_backend false) |} in
  let out := handleUrlSubmit offline (Some "AIza-key") "en" "pt" false
               demo_url initialWorld in
  fst out = inr tt /\
  sent (snd out) = [] ++ [check_request "en" "pt" demo_url] /\
  alerts (snd out) = [] ++ ["Erro ao processar vídeo"] /\
  processing (snd out) = false /\ jobId (snd out) = None /\
  youtubeUrl (snd out) = demo_url /\ videoId (snd out) = Some "dQw4w9WgXcQ".
Proof.
  intros offline.
  apply (handleUrlSubmit_check_failure offline (Some "AIza-key") "en" "pt"
           false demo_url "dQw4w9WgXcQ" {| response := None |} initialWorld);
    reflexivity.
Defined.

(** X8. Whatever the server answers and whatever the input,
    [handleUrlSubmit] never fails towards its caller. It only adds to the
    requests sent, and among those it adds there is at most one process
    request, which always carries the URL, the languages and the API key
    it was given. The job id either stays as it was or is the one the
    server returned for that process request. *)
Theorem handleUrlSubmit_contained (backend : Backend)
    (geminiApiKey : option string) (sourceLanguage targetLanguage : string)
    (shouldRetranslate : bool) (url : string) (w : World) :
  let out := handleUrlSubmit backend geminiApiKey sourceLanguage
               targetLanguage shouldRetranslate url w in
  fst out = inr tt /\
  exists new,
    sent (snd out) = sent w ++ new /\
    (length (List.filter is_post new) <= 1)%nat /\
    (forall u d, Post u d ∈ new ->
       u = "/api/video/process" /\
       d = process_request geminiApiKey sourceLanguage targetLanguage url
             (force_retranslate d) /\
       Some (gemini_api_key d) = geminiApiKey) /\
    (jobId (snd out) = jobId w \/
     exists d resp,
       Post "/api/video/process" d ∈ new /\
       video_process backend d = inr resp /\
       jobId (snd out) = Some (process_job_id resp)).
Proof.
  intros out. subst out. rewrite handleUrlSubmit_unfolded.
  split; [reflexivity|]. cbn [snd].
  assert (Hnone : forall w', sent w' = sent w -> jobId w' = jobId w ->
    exists new, sent w' = sent w ++ new /\
      (length (List.filter is_post new) <= 1)%nat /\
      (forall u d, Post u d ∈ new ->
         u = "/api/video/process" /\
         d = process_request geminiApiKey sourceLanguage targetLanguage url
               (force_retranslate d) /\
         Some (gemini_api_key d) = geminiApiKey) /\
      (jobId w' = jobId w \/
       exists d resp, Post "/api/video/process" d ∈ new /\
         video_process backend d = inr resp /\
         jobId w' = Some (process_job_id resp))).
  { intros w' Hs Hj. exists []. rewrite app_nil_r.
    split; [exact Hs|]. split; [cbn; lia|].
    split; [intros u d Hin; inversion Hin | left; exact Hj]. }
  destruct (truthy geminiApiKey) eqn:Hkey; [|now apply Hnone].
  destruct (extractVideoId url) as [id|]; [|now apply Hnone].
  assert (Hk : Some (default "" geminiApiKey) = geminiApiKey)
    by (destruct geminiApiKey; [reflexivity | discriminate Hkey]).
  assert (Hprocess : forall force pre w1,
    sent w1 = sent w ++ pre -> jobId w1 = jobId w ->
    List.filter is_post pre = [] ->
    (forall u d, Post u d ∈ pre -> False) ->
    let w' := page_after_process backend
                (process_request geminiApiKey sourceLanguage targetLanguage
                   url force) w1 in
    exists new, sent w' = sent w ++ new /\
      (length (List.filter is_post new) <= 1)%nat /\
      (forall u d, Post u d ∈ new ->
         u = "/api/video/process" /\
         d = process_request geminiApiKey sourceLanguage targetLanguage url
               (force_retranslate d) /\
         Some (gemini_api_key d) = geminiApiKey) /\
      (jobId w' = jobId w \/
       exists d resp, Post "/api/video/process" d ∈ new /\
         video_process backend d = inr resp /\
         jobId w' = Some (process_job_id resp))).
  { intros force pre w1 Hs Hj Hf Hpre w'. subst w'.
    set (req := process_request geminiApiKey sourceLanguage targetLanguage
                  url force).
    exists (pre ++ [Post "/api/video/process" req]).
    assert (Hsent : sent (page_after_process backend req w1)
                    = sent w ++ pre ++ [Post "/api/video/process" req]).
    { unfold page_after_process, page_after_catch.
      destruct (video_process backend req); read_whole_page;
        now rewrite Hs, <- app_assoc. }
    split; [exact Hsent|]. split.
    { rewrite List.filter_app, Hf. cbn. lia. }
    split.
    { intros u d Hin. apply elem_of_app in Hin as [Hin|Hin].
      - destruct (Hpre u d Hin).
      - apply list_elem_of_singleton in Hin. injection Hin as -> ->.
        split; [reflexivity|]. split; [reflexivity | exact Hk]. }
    unfold page_after_process, page_after_catch.
    destruct (video_process backend req) as [e|resp] eqn:Hresp;
      read_whole_page.
    - left. exact Hj.
    - right. exists req, resp. split; [|auto].
      apply elem_of_app. right. apply list_elem_of_singleton. reflexivity. }
  set (chk := check_request sourceLanguage targetLanguage url).
  assert (Hchk : forall u d, Post u d ∈ [chk] -> False).
  { intros u d Hin. apply list_elem_of_singleton in Hin. discriminate Hin. }
  cbv zeta.
  destruct (video_check backend url sourceLanguage targetLanguage)
    as [e|check].
  - exists [chk]. unfold page_after_catch, page_after_check.
    read_whole_page. fold chk.
    split; [reflexivity|]. split; [cbn; lia|].
    split; [intros u d Hin; destruct (Hchk u d Hin) | left; reflexivity].
  - destruct (exists_ check && truthy (check_video_id check)).
    + destruct shouldRetranslate.
      * apply (Hprocess (Some true) [chk]); try reflexivity; exact Hchk.
      * rewrite loadSubtitles_unfolded. cbv zeta.
        set (sub := subtitles_request _ _ _).
        exists [chk; sub]. unfold page_after_check. fold chk.
        assert (Hsub : forall u d, Post u d ∈ [chk; sub] -> False).
        { intros u d Hin. apply elem_of_cons in Hin as [Hin|Hin];
            [discriminate Hin|].
          apply list_elem_of_singleton in Hin. discriminate Hin. }
        destruct (video_subtitles backend _ _ _); read_whole_page;
          rewrite <- app_assoc;
          (split; [reflexivity|]); (split; [cbn; lia|]);
          (split; [intros u d Hin; destruct (Hsub u d Hin)
                  | left; reflexivity]).
    + apply (Hprocess None [chk]); try reflexivity; exact Hchk.
Qed.

(** ** The remaining time *)

(** X9. [formatTime] on a whole number of seconds: below a minute it
    shows the seconds; below an hour it shows minutes and seconds that
    add up to the input exactly; from an hour on it shows hours and
    minutes and drops the seconds, so the time shown is at most 59
    seconds below the input. *)
Theorem formatTime_parts (seconds : Z) :
  (seconds < 60 -> formatTime seconds = pretty seconds +:+ "s") /\
  (60 <= seconds < 3600 ->
     exists m s, formatTime seconds = pretty m +:+ "m " +:+ pretty s +:+ "s" /\
       seconds = 60 * m + s /\ 1 <= m < 60 /\ 0 <= s < 60) /\
  (3600 <= seconds ->
     exists h m, formatTime seconds = pretty h +:+ "h " +:+ pretty m +:+ "m" /\
       1 <= h /\ 0 <= m < 60 /\
       3600 * h + 60 * m <= seconds < 3600 * h + 60 * m + 60).
Proof.
  unfold formatTime. split; [|split].
  - intros Hlt. now rewrite (proj2 (Z.ltb_lt _ _) Hlt).
  - intros [Hge Hlt].
    rewrite (proj2 (Z.ltb_ge _ _) Hge).
    assert (Hm : seconds / 60 < 60) by (apply Z.div_lt_upper_bound; lia).
    cbv zeta. rewrite (proj2 (Z.ltb_lt _ _) Hm).
    exists (seconds / 60), (seconds mod 60).
    split; [reflexivity|].
    pose proof (Z.div_mod seconds 60 ltac:(lia)).
    pose proof (Z.mod_pos_bound seconds 60 ltac:(lia)).
    assert (1 <= seconds / 60) by (apply Z.div_le_lower_bound; lia).
    lia.
  - intros Hge.
    rewrite (proj2 (Z.ltb_ge seconds 60)) by lia.
    assert (Hm : 60 <= seconds / 60) by (apply Z.div_le_lower_bound; lia).
    cbv zeta. rewrite (proj2 (Z.ltb_ge _ _) Hm).
    exists (seconds / 60 / 60), ((seconds / 60) mod 60).
    split; [reflexivity|].
    pose proof (Z.div_mod seconds 60 ltac:(lia)).
    pose proof (Z.mod_pos_bound seconds 60 ltac:(lia)).
    pose proof (Z.div_mod (seconds / 60) 60 ltac:(lia)).
    pose proof (Z.mod_pos_bound (seconds / 60) 60 ltac:(lia)).
    assert (1 <= seconds / 60 / 60) by (apply Z.div_le_lower_bound; lia).
    lia.
Qed.

Example formatTime_examples :
  formatTime 45 = "45s" /\ formatTime 125 = "2m 5s" /\
  formatTime 3725 = "1h 2m".
Proof. vm_compute. repeat split. Qed.

(** ** The player's captions *)

Section VideoPlayerFacts.

Variable isActive : TranslationSegment -> bool.
Variable sortByDistance : list TranslationSegment -> list TranslationSegment.

(** Sorting an array rearranges it. *)
Hypothesis sort_permutes : forall l, sortByDistance l ≡ₚ l.

Lemma filter_elem_of (l : list TranslationSegment) (s : TranslationSegment) :
  s ∈ List.filter isActive l <-> s ∈ l /\ isActive s = true.
Proof. rewrite !list_elem_of_In. apply filter_In. Qed.

Lemma getActiveSegments_cases (segments : list TranslationSegment) :
  let shown := getActiveSegments isActive sortByDistance segments in
  (length shown <= 1)%nat /\
  (forall s, s ∈ shown -> s ∈ segments /\ isActive s = true) /\
  (shown = [] <-> forall s, s ∈ segments -> isActive s = false) /\
  (forall s, List.filter isActive segments = [s] -> shown = [s]).
Proof.
  intros shown. subst shown. unfold getActiveSegments. cbv zeta.
  set (active := List.filter isActive segments).
  assert (Hnil : active = [] <-> forall s, s ∈ segments -> isActive s = false).
  { split.
    - intros Hn s Hs. destruct (isActive s) eqn:Ha; [|reflexivity].
      assert (Hin : s ∈ active) by (apply filter_elem_of; auto).
      rewrite Hn in Hin. inversion Hin.
    - intros Hall. destruct active as [|a rest] eqn:Hact; [reflexivity|].
      assert (Hin : a ∈ List.filter isActive segments)
        by (fold active; rewrite Hact; apply elem_of_cons; auto).
      apply filter_elem_of in Hin as [Hs Ha].
      rewrite (Hall a Hs) in Ha. discriminate. }
  destruct (1 <? length active)%nat eqn:Hlen.
  - apply Nat.ltb_lt in Hlen.
    pose proof (sort_permutes active) as Hperm.
    destruct (sortByDistance active) as [|first rest] eqn:Hsort.
    + apply Permutation_length in Hperm. cbn in Hperm. lia.
    + split; [cbn; lia|]. split; [|split].
      * intros s Hs. apply list_elem_of_singleton in Hs as ->.
        apply filter_elem_of. fold active. rewrite <- Hperm.
        apply elem_of_cons. auto.
      * split; [discriminate|]. intros Hall. apply Hnil in Hall.
        rewrite Hall in Hlen. cbn in Hlen. lia.
      * intros s Hs. fold active in Hs. rewrite Hs in Hlen. cbn in Hlen. lia.
  - apply Nat.ltb_ge in Hlen.
    split; [lia|]. split; [|split].
    + intros s Hs. now apply filter_elem_of.
    + exact Hnil.
    + intros s Hs. exact Hs.
Qed.

(** X10. At any moment the player hands at most one segment to the
    overlay, and it is a segment of the list that is active at that
    moment; it hands over none exactly when no segment is active, and
    when exactly one is active it is that one. *)
Theorem getActiveSegments_at_most_one (segments : list TranslationSegment) :
  let shown := getActiveSegments isActive sortByDistance segments in
  (length shown <= 1)%nat /\
  (forall s, s ∈ shown -> s ∈ segments /\ isActive s = true) /\
  (shown = [] <-> forall s, s ∈ segments -> isActive s = false) /\
  (forall s, List.filter isActive segments = [s] -> shown = [s]).
Proof. exact (getActiveSegments_cases segments). Qed.

(** X11. What the player shows at any moment is nothing, when no
    segment is active, and otherwise the original and the translated
    text of one active segment of the list, each on its own line and
    unchanged. *)
Theorem player_overlay_shows_one_segment (segments : list TranslationSegment)
    (fs : bool) :
  (player_overlay isActive sortByDistance segments fs = None <->
     forall s, s ∈ segments -> isActive s = false) /\
  (forall r, player_overlay isActive sortByDistance segments fs = Some r ->
     exists s, s ∈ segments /\ isActive s = true /\
       r = {| subtitle_original := original s;
              subtitle_translated := translated s;
              data_fullscreen := fs |}).
Proof.
  unfold player_overlay.
  destruct (getActiveSegments_cases segments) as (Hlen & Hin & Hnil & _).
  destruct (getActiveSegments isActive sortByDistance segments)
    as [|s rest] eqn:Hshown.
  - split; [split; [intros _; now apply Hnil | reflexivity]|].
    intros r Hr. discriminate Hr.
  - destruct rest as [|s2 rest]; [|cbn in Hlen; lia].
    split.
    + split; [discriminate|]. intros Hall. apply Hnil in Hall. discriminate.
    + intros r Hr. cbn in Hr. injection Hr as <-.
      destruct (Hin s) as [Hs Ha]; [apply elem_of_cons; auto|].
      exists s. auto.
Qed.

End VideoPlayerFacts.

Lemma getActiveSegments_at_most_one_witness :
  let shown := getActiveSegments demo_active (fun l => l) demo_segments in
  (length shown <= 1)%nat /\
  (forall s, s ∈ shown -> s ∈ demo_segments /\ demo_active s = true) /\
  (shown = [] <-> forall s, s ∈ demo_segments -> demo_active s = false) /\
  (forall s, List.filter demo_active demo_segments = [s] -> shown = [s]).
Proof.
  apply (getActiveSegments_at_most_one demo_active (fun l => l)).
  intros l. reflexivity.
Defined.

Lemma player_overlay_shows_one_segment_witness :
  (player_overlay demo_active (fun l => l) demo_segments false = None <->
     forall s, s ∈ demo_segments -> demo_active s = false) /\
  (forall r, player_overlay demo_active (fun l => l) demo_segments false
             = Some r ->
     exists s, s ∈ demo_segments /\ demo_active s = true /\
       r = {| subtitle_original := original s;
              subtitle_translated := translated s;
              data_fullscreen := false |}).
Proof.
  apply (player_overlay_shows_one_segment demo_active (fun l => l)).
  intros l. reflexivity.
Defined.

Example player_overlay_demo :
  player_overlay demo_active (fun l => l) demo_segments false
  = Some {| subtitle_original := "how are you";
            subtitle_translated := "como vai";
            data_fullscreen := false |}.
Proof. reflexivity. Qed.

(** ** The stored session *)

Lemma truthy_Some_ne (s : string) : s <> "" -> truthy (Some s) = true.
Proof. destruct s; [congruence | reflexivity]. Qed.

Lemma js_or_None (b : option string) : js_or None b = b.
Proof. reflexivity. Qed.

(** X12. After [setAuthToken] with a non-empty token the remember-me
    flag reads back as given. With remember-me on, [getAuthToken] returns
    the token. With remember-me off the token goes to the session
    storage, and [getAuthToken] returns it only if the local storage
    holds no non-empty token of its own: one left there from before is
    returned instead. *)
Theorem setAuthToken_read_back (st : Storage) (token : string)
    (rememberMe : bool) :
  token <> "" ->
  let st' := storage.setAuthToken token rememberMe st in
  storage.getRememberMe st' = rememberMe /\
  storage.getAuthToken st' =
    if rememberMe then Some token
    else if truthy (localStorage st !! "auth_token")
         then localStorage st !! "auth_token"
         else Some token.
Proof.
  intros Htoken st'. subst st'. pose proof (truthy_Some_ne _ Htoken) as Ht.
  destruct rememberMe; unfold_storage.
  - split.
    + rewrite lookup_insert_eq. reflexivity.
    + rewrite lookup_insert_ne by done. rewrite lookup_insert_eq.
      unfold js_or. now rewrite Ht.
  - split.
    + rewrite lookup_delete_eq. reflexivity.
    + rewrite lookup_delete_ne by done. rewrite lookup_insert_eq.
      unfold js_or. destruct (truthy (localStorage st !! "auth_token"));
        reflexivity.
Qed.

Lemma setAuthToken_read_back_witness :
  let stale := setLocal "auth_token" "old-token" emptyStorage in
  let st' := storage.setAuthToken "new-token" false stale in
  storage.getRememberMe st' = false /\
  storage.getAuthToken st' =
    if truthy (localStorage stale !! "auth_token")
    then localStorage stale !! "auth_token"
    else Some "new-token".
Proof.
  apply (setAuthToken_read_back
           (setLocal "auth_token" "old-token" emptyStorage) "new-token" false).
  discriminate.
Defined.

(** X13. After [clearAuthToken] no token, user id or user name can be
    read from either storage, the remember-me flag is off and the
    request interceptor adds no header; everything stored under other
    keys (the API key, the languages) is as before. *)
Theorem clearAuthToken_forgets_session (st : Storage)
    (headers : gmap string string) :
  let st' := storage.clearAuthToken st in
  storage.getAuthToken st' = None /\ storage.getUserId st' = None /\
  storage.getUsername st' = None /\ storage.getRememberMe st' = false /\
  request_interceptor st' headers = headers /\
  (forall k, k ∉ ["auth_token"; "user_id"; "username"; "remember_me"] ->
     localStorage st' !! k = localStorage st !! k) /\
  (forall k, k ∉ ["auth_token"; "user_id"; "username"] ->
     sessionStorage st' !! k = sessionStorage st !! k).
Proof.
  intros st'. subst st'. unfold_storage.
  repeat split.
  - now rewrite !lookup_delete_ne, lookup_delete_eq, lookup_delete_ne,
      lookup_delete_ne, lookup_delete_eq by done.
  - now rewrite lookup_delete_ne, lookup_delete_ne, lookup_delete_eq,
      lookup_delete_ne, lookup_delete_eq by done.
  - now rewrite lookup_delete_ne, lookup_delete_eq, lookup_delete_eq by done.
  - now rewrite lookup_delete_eq.
  - now rewrite !lookup_delete_ne, lookup_delete_eq, lookup_delete_ne,
      lookup_delete_ne, lookup_delete_eq by done.
  - intros k Hk. rewrite !lookup_delete_ne; [reflexivity|..];
      intros <-; apply Hk; repeat constructor.
  - intros k Hk. rewrite !lookup_delete_ne; [reflexivity|..];
      intros <-; apply Hk; repeat constructor.
Qed.

(** X14. A language that is stored is read back, except the empty text,
    for which the default is read ([en] for the source, [pt] for the
    target, as when nothing is stored); storing one of the two languages
    does not change the other. *)
Theorem language_read_back (st : Storage) (lang : string) :
  storage.getSourceLanguage (storage.setSourceLanguage lang st)
    = (if decide (lang = "") then "en" else lang) /\
  storage.getTargetLanguage (storage.setTargetLanguage lang st)
    = (if decide (lang = "") then "pt" else lang) /\
  storage.getTargetLanguage (storage.setSourceLanguage lang st)
    = storage.getTargetLanguage st /\
  storage.getSourceLanguage (storage.setTargetLanguage lang st)
    = storage.getSourceLanguage st /\
  storage.getSourceLanguage emptyStorage = "en" /\
  storage.getTargetLanguage emptyStorage = "pt".
Proof.
  unfold_storage. rewrite !lookup_insert_eq, !lookup_insert_ne by done.
  repeat split; destruct lang; reflexivity.
Qed.

(** X15. The request interceptor sends [Bearer] followed by exactly the
    token [getAuthToken] reads, when that is a non-empty text, and leaves
    the headers alone otherwise. Once a request has been rejected with
    status 401 no token is left, so the next request goes out without
    the header, while the API key and the remember-me flag are kept; a
    rejection with any other status, or without a response, leaves the
    storage as it is. *)
Theorem interceptors_follow_token (st : Storage) (e : AxiosError)
    (headers : gmap string string) :
  request_interceptor st headers =
    match storage.getAuthToken st with
    | Some token =>
        if decide (token = "") then headers
        else <["Authorization" := "Bearer " +:+ token]> headers
    | None => headers
    end /\
  (http_status <$> response e = Some 401 ->
     storage.getAuthToken (response_rejected e st) = None /\
     request_interceptor (response_rejected e st) headers = headers /\
     storage.getGeminiApiKey (response_rejected e st)
       = storage.getGeminiApiKey st /\
     storage.getRememberMe (response_rejected e st)
       = storage.getRememberMe st) /\
  (http_status <$> response e <> Some 401 -> response_rejected e st = st).
Proof.
  split; [|split].
  - unfold request_interceptor, storage.getAuthToken, STORAGE_KEYS.AUTH_TOKEN.
    destruct (js_or _ _) as [[|c t]|]; reflexivity.
  - intros H401. unfold_storage.
    rewrite (bool_decide_eq_true_2 _ H401). cbn [localStorage sessionStorage].
    assert (Hl : delete "username" (delete "user_id"
                   (delete "auth_token" (localStorage st))) !! "auth_token"
                 = None)
      by now rewrite !lookup_delete_ne, lookup_delete_eq by done.
    assert (Hs : delete "username" (delete "user_id"
                   (delete "auth_token" (sessionStorage st))) !! "auth_token"
                 = None)
      by now rewrite !lookup_delete_ne, lookup_delete_eq by done.
    rewrite Hl, Hs. rewrite !lookup_delete_ne by done. repeat split.
  - intros Hne. unfold response_rejected.
    now rewrite (bool_decide_eq_false_2 _ Hne).
Qed.

Lemma interceptors_follow_token_witness :
  let st := storage.setAuthToken "tok-1" true emptyStorage in
  let e := {| response := Some {| http_status := 401; detail := None |} |} in
  storage.getAuthToken (response_rejected e st) = None /\
  request_interceptor (response_rejected e st) ∅ = ∅ /\
  storage.getGeminiApiKey (response_rejected e st)
    = storage.getGeminiApiKey st /\
  storage.getRememberMe (response_rejected e st) = storage.getRememberMe st.
Proof.
  intros st e.
  destruct (interceptors_follow_token st e ∅) as (_ & H401 & _).
  apply H401. reflexivity.
Defined.

(** X16. After [logout] nobody is signed in: no token can be read, the
    request interceptor adds no header, and no API key of any of the
    four services is left in the local storage. A page that reads its
    Gemini key from this storage therefore submits nothing: the handler
    stops at the missing key without a request. The languages chosen and
    the remember-me flag survive the logout. *)
Theorem logout_leaves_nothing_to_send (st : Storage) (a : Auth)
    (backend : Backend) (sourceLanguage targetLanguage : string)
    (shouldRetranslate : bool) (url : string) (w : World)
    (headers : gmap string string) :
  let st' := fst (logout st a) in
  let out := handleUrlSubmit backend (storage.getGeminiApiKey st')
               sourceLanguage targetLanguage shouldRetranslate url w in
  isAuthenticated (snd (logout st a)) = false /\
  user (snd (logout st a)) = None /\
  storage.getAuthToken st' = None /\
  request_interceptor st' headers = headers /\
  (forall service,
     service ∈ ["gemini"; "openrouter"; "groq"; "together"] ->
     localStorage st' !! (service +:+ "_api_key") = None) /\
  sent (snd out) = sent w /\ jobId (snd out) = jobId w /\
  storage.getSourceLanguage st' = storage.getSourceLanguage st /\
  storage.getTargetLanguage st' = storage.getTargetLanguage st /\
  storage.getRememberMe st' = storage.getRememberMe st.
Proof.
  intros st' out.
  assert (Hkey : storage.getGeminiApiKey st' = None).
  { subst st'. unfold_storage. cbn [fst localStorage].
    now rewrite !lookup_delete_ne, lookup_delete_eq by done. }
  assert (Houts : sent (snd out) = sent w /\ jobId (snd out) = jobId w).
  { subst out. rewrite handleUrlSubmit_unfolded, Hkey. split; reflexivity. }
  destruct Houts as [Hsent Hjob].
  subst st'. unfold_storage. cbn [fst snd localStorage sessionStorage
    isAuthenticated user].
  assert (Hl : delete "together_api_key" (delete "groq_api_key"
            (delete "openrouter_api_key" (delete "gemini_api_key"
              (delete "username" (delete "user_id"
                (delete "auth_token" (localStorage st)))))))
              !! "auth_token" = None)
    by now rewrite !lookup_delete_ne, lookup_delete_eq by done.
  assert (Hs : delete "username" (delete "user_id"
                 (delete "auth_token" (sessionStorage st))) !! "auth_token"
               = None)
    by now rewrite !lookup_delete_ne, lookup_delete_eq by done.
  rewrite Hl, Hs.
  split; [reflexivity|]. split; [reflexivity|]. split; [reflexivity|].
  split; [reflexivity|]. split.
  { intros service Hin.
    rewrite !elem_of_cons in Hin.
    destruct Hin as [->|[->|[->|[->|Hin]]]]; [| | | |inversion Hin];
      change (?s +:+ "_api_key") with (String.append s "_api_key");
      cbn [String.append].
    - now rewrite !lookup_delete_ne, lookup_delete_eq by done.
    - now rewrite !lookup_delete_ne, lookup_delete_eq by done.
    - now rewrite lookup_delete_ne, lookup_delete_eq by done.
    - now rewrite lookup_delete_eq. }
  split; [exact Hsent|]. split; [exact Hjob|].
  now rewrite !lookup_delete_ne by done.
Qed.

(** ** Signing in *)

Lemma clearAuthToken_no_token (st : Storage) :
  storage.getAuthToken (storage.clearAuthToken st) = None /\
  storage.getRememberMe (storage.clearAuthToken st) = false.
Proof.
  unfold_storage. split.
  - now rewrite !lookup_delete_ne, lookup_delete_eq, lookup_delete_ne,
      lookup_delete_ne, lookup_delete_eq by done.
  - now rewrite lookup_delete_eq.
Qed.

(** X17. [checkAuth] always ends with [loading] off. It asks the server
    for the profile exactly when a non-empty token can be read, and the
    user is signed in afterwards exactly when it asked and the server
    answered with a profile, whose id, name and e-mail then make up the
    user, the storage being left alone. When it asked and the request
    failed, for whatever reason, the stored session is wiped: no token
    can be read any more and the remember-me flag is off. Without a
    token the storage is not touched. *)
Theorem checkAuth_outcome (profile : AxiosError + UserProfile)
    (st : Storage) (a : Auth) :
  let '(st', a', asked) := checkAuth profile st a in
  auth_loading a' = false /\
  asked = truthy (storage.getAuthToken st) /\
  (isAuthenticated a' = true <-> asked = true /\ exists p, profile = inr p) /\
  (forall p, asked = true -> profile = inr p ->
     st' = st /\
     user a' = Some {| user_id := profile_id p;
                       user_username := profile_username p;
                       user_email := profile_email p |}) /\
  (forall e, asked = true -> profile = inl e ->
     user a' = None /\ storage.getAuthToken st' = None /\
     storage.getRememberMe st' = false) /\
  (asked = false -> st' = st /\ user a' = None).
Proof.
  unfold checkAuth.
  change (js_or (localStorage st !! "auth_token")
                (sessionStorage st !! "auth_token"))
    with (storage.getAuthToken st).
  destruct (truthy (storage.getAuthToken st)) eqn:Htok; cbn [negb].
  - destruct profile as [e|p].
    + split; [reflexivity|]. split; [reflexivity|]. split.
      { split; [discriminate|]. intros [_ [p Hp]]. discriminate Hp. }
      split; [intros p _ Hp; discriminate Hp|]. split; [|discriminate].
      intros e' _ _. split; [reflexivity|]. apply clearAuthToken_no_token.
    + split; [reflexivity|]. split; [reflexivity|]. split.
      { split; [eauto|reflexivity]. }
      split; [|split; [|discriminate]].
      * intros p' _ Hp. injection Hp as <-. auto.
      * intros e _ He. discriminate He.
  - split; [reflexivity|]. split; [reflexivity|]. split.
    { split; [discriminate|]. intros [H _]. discriminate H. }
    split; [intros p H; discriminate H|].
    split; [intros e H; discriminate H|]. auto.
Qed.

(** X18. A successful [login] signs the user in with the id and name of
    the answer and the e-mail typed, and stores the token in the local
    storage when remember-me is on and in the session storage
    otherwise; it does not record the choice, so the remember-me flag
    reads as before. With remember-me off the token read back afterwards
    is the new one only if the local storage holds no non-empty token
    already. A failed [login] hands the failure to its caller and changes
    nothing but what the response interceptor clears on a 401. *)
Theorem login_outcome (answer : AxiosError + TokenResponse) (email : string)
    (rememberMe : bool) (st : Storage) (a : Auth) :
  let '(res, st', a') := login answer email rememberMe st a in
  match answer with
  | inr response =>
      res = inr tt /\ isAuthenticated a' = true /\
      user a' = Some {| user_id := token_user_id response;
                        user_username := token_username response;
                        user_email := email |} /\
      storage.getRememberMe st' = storage.getRememberMe st /\
      (access_token response <> "" ->
       storage.getAuthToken st' =
         if rememberMe then Some (access_token response)
         else if truthy (localStorage st !! "auth_token")
              then localStorage st !! "auth_token"
              else Some (access_token response))
  | inl e => res = inl e /\ a' = a /\ st' = response_rejected e st
  end.
Proof.
  unfold login. destruct answer as [e|response]; [auto|].
  split; [reflexivity|]. split; [reflexivity|]. split; [reflexivity|].
  destruct rememberMe; unfold_storage.
  - split; [now rewrite !lookup_insert_ne by done|].
    intros Htok. rewrite !lookup_insert_ne, lookup_insert_eq by done.
    unfold js_or. now rewrite (truthy_Some_ne _ Htok).
  - split; [reflexivity|].
    intros Htok. rewrite !lookup_insert_ne, lookup_insert_eq by done.
    unfold js_or. destruct (truthy (localStorage st !! "auth_token"));
      reflexivity.
Qed.

(** ** The key manager *)

Lemma to_list_append (s1 s2 : string) :
  String.list_ascii_of_string (s1 +:+ s2)
  = String.list_ascii_of_string s1 ++ String.list_ascii_of_string s2.
Proof.
  induction s1 as [|c s1 IH]; [reflexivity|].
  rewrite append_String. cbn. now rewrite IH.
Qed.

Lemma to_list_rev_app (s1 s2 : string) :
  String.list_ascii_of_string (String.rev_app s1 s2)
  = List.rev (String.list_ascii_of_string s1) ++ String.list_ascii_of_string s2.
Proof.
  revert s2. induction s1 as [|c s1 IH]; intros s2; [reflexivity|].
  cbn. rewrite IH. cbn. now rewrite <- app_assoc.
Qed.

Lemma to_list_rev (s : string) :
  String.list_ascii_of_string (String.rev s) = List.rev (String.list_ascii_of_string s).
Proof. unfold String.rev. rewrite to_list_rev_app. cbn. apply app_nil_r. Qed.

Lemma to_list_inj (s t : string) :
  String.list_ascii_of_string s = String.list_ascii_of_string t -> s = t.
Proof.
  intros H. rewrite <- (String.string_of_list_ascii_of_string s),
    <- (String.string_of_list_ascii_of_string t). now rewrite H.
Qed.

Lemma to_list_length (s : string) :
  String.length s = length (String.list_ascii_of_string s).
Proof. induction s as [|c s IH]; cbn; [reflexivity | now rewrite IH]. Qed.

Lemma rev_append (a b : string) :
  String.rev (a +:+ b) = String.rev b +:+ String.rev a.
Proof.
  apply to_list_inj.
  rewrite to_list_append, !to_list_rev, to_list_append. apply rev_app_distr.
Qed.

Lemma rev_rev (s : string) : String.rev (String.rev s) = s.
Proof. apply to_list_inj. rewrite !to_list_rev. apply rev_involutive. Qed.

Lemma rev_string_length (s : string) :
  String.length (String.rev s) = String.length s.
Proof. rewrite !to_list_length, to_list_rev. apply length_rev. Qed.

Lemma append_string_length (a b : string) :
  String.length (a +:+ b) = (String.length a + String.length b)%nat.
Proof. rewrite !to_list_length, to_list_append. apply length_app. Qed.

Lemma append_cancel_r (a b t : string) : a +:+ t = b +:+ t -> a = b.
Proof.
  intros H. apply to_list_inj. apply (f_equal String.list_ascii_of_string) in H.
  rewrite !to_list_append in H. now apply app_inv_tail in H.
Qed.

Lemma strip_prefix_append (p r : string) : strip_prefix p (p +:+ r) = Some r.
Proof.
  induction p as [|c p IH]; [reflexivity|].
  rewrite append_String. cbn. now rewrite decide_True.
Qed.

Lemma skip_one_spec (marks : list string) (s r : string) :
  skip_one marks s = Some r -> exists m, m ∈ marks /\ s = m +:+ r.
Proof.
  induction marks as [|m marks IH]; cbn; [discriminate|].
  destruct (strip_prefix m s) as [s'|] eqn:Hm.
  - intros [= ->]. exists m. split; [left|]. now apply strip_prefix_spec.
  - intros H. destruct (IH H) as (m' & Hin & ->).
    exists m'. split; [now right | reflexivity].
Qed.

Lemma skip_one_complete (marks : list string) (m r : string) :
  m ∈ marks -> skip_one marks (m +:+ r) <> None.
Proof.
  induction marks as [|m' marks IH]; intros Hin; [inversion Hin|].
  cbn. destruct (strip_prefix m' (m +:+ r)) eqn:Hm; [discriminate|].
  apply elem_of_cons in Hin as [->|Hin]; [|now apply IH].
  now rewrite strip_prefix_append in Hm.
Qed.

Lemma skip_one_prefix (marks : list string) (a b : string) :
  skip_one marks (a +:+ b) = None -> skip_one marks a = None.
Proof.
  intros H. destruct (skip_one marks a) as [r|] eqn:Ha; [|reflexivity].
  destruct (skip_one_spec _ _ _ Ha) as (m & Hin & ->).
  rewrite append_assoc in H. now apply skip_one_complete in H.
Qed.

Lemma skip_all_settled (marks : list string) (fuel : nat) (s : string) :
  (forall m, m ∈ marks -> m <> "") ->
  (String.length s <= fuel)%nat ->
  skip_one marks (skip_all fuel marks s) = None.
Proof.
  intros Hne. revert s. induction fuel as [|fuel IH]; intros s Hlen.
  - destruct s; [|cbn in Hlen; lia]. cbn.
    destruct (skip_one marks "") as [r|] eqn:H; [|reflexivity].
    destruct (skip_one_spec _ _ _ H) as (m & Hin & Hm).
    destruct m; [now apply Hne in Hin | discriminate].
  - cbn. destruct (skip_one marks s) as [s'|] eqn:H; [|exact H].
    apply IH. destruct (skip_one_spec _ _ _ H) as (m & Hin & ->).
    rewrite append_string_length in Hlen.
    destruct m; [now apply Hne in Hin | cbn in Hlen; lia].
Qed.

Lemma skip_all_id (marks : list string) (fuel : nat) (s : string) :
  skip_one marks s = None -> skip_all fuel marks s = s.
Proof. intros H. destruct fuel; cbn; [reflexivity | now rewrite H]. Qed.

Lemma skip_all_suffix (marks : list string) (fuel : nat) (s : string) :
  exists pre, s = pre +:+ skip_all fuel marks s.
Proof.
  revert s. induction fuel as [|fuel IH]; intros s; [now exists ""|].
  cbn. destruct (skip_one marks s) as [s'|] eqn:H; [|now exists ""].
  destruct (skip_one_spec _ _ _ H) as (m & _ & ->).
  destruct (IH s') as [pre Hpre]. exists (m +:+ pre).
  now rewrite append_assoc, <- Hpre.
Qed.

Lemma white_space_nonempty (m : string) : m ∈ white_space -> m <> "".
Proof.
  intros Hin ->. revert Hin. unfold white_space. cbn.
  rewrite !elem_of_cons, elem_of_nil. intros H.
  repeat (destruct H as [H|H]; [discriminate|]). exact H.
Qed.

Lemma white_space_rev_nonempty (m : string) :
  m ∈ map String.rev white_space -> m <> "".
Proof.
  intros Hin ->. revert Hin. unfold white_space. cbn.
  rewrite !elem_of_cons, elem_of_nil. intros H.
  repeat (destruct H as [H|H]; [discriminate|]). exact H.
Qed.

Lemma trimStart_settled (s : string) :
  skip_one white_space (trimStart s) = None.
Proof. apply skip_all_settled; [apply white_space_nonempty | lia]. Qed.

Lemma trim_settled (s : string) :
  skip_one white_space (trim s) = None /\
  skip_one (map String.rev white_space) (String.rev (trim s)) = None.
Proof.
  unfold trim, trimEnd. set (x := trimStart s).
  destruct (skip_all_suffix (map String.rev white_space) (String.length x)
              (String.rev x)) as [pre Hpre].
  set (y := skip_all _ _ _) in *. split.
  - apply (skip_one_prefix _ _ (String.rev pre)).
    rewrite <- rev_append, <- Hpre, rev_rev. apply trimStart_settled.
  - rewrite rev_rev. apply skip_all_settled;
      [apply white_space_rev_nonempty | now rewrite rev_string_length].
Qed.

Lemma trim_idempotent (s : string) : trim (trim s) = trim s.
Proof.
  destruct (trim_settled s) as [H1 H2].
  unfold trim at 1. unfold trimStart. rewrite skip_all_id by exact H1.
  unfold trimEnd. rewrite skip_all_id by exact H2. apply rev_rev.
Qed.

Lemma shown_key_app (s : string) (l1 l2 : list ApiKey) :
  shown_key s (l1 ++ l2)
  = match shown_key s l1 with
    | Some k => Some k
    | None => shown_key s l2
    end.
Proof.
  unfold shown_key. induction l1 as [|k l1 IH]; [reflexivity|].
  cbn. destruct (bool_decide (key_service k = s)); [reflexivity | exact IH].
Qed.

Lemma shown_key_stored (s service : string) (active : bool)
    (k : option string) :
  shown_key s (stored_key service active k)
  = if decide (service = s) then (if truthy k then k else None) else None.
Proof.
  unfold shown_key, stored_key. destruct (truthy k) eqn:Hk; cbn.
  - destruct (decide (service = s)) as [->|Hne].
    + rewrite bool_decide_true by reflexivity. cbn.
      destruct k; [reflexivity | discriminate].
    + now rewrite bool_decide_false.
  - now destruct (decide (service = s)).
Qed.

(** What the list shows for a service: the non-empty text stored under
    the service's name, for the four services the list knows. *)
Lemma shown_key_load (s : string) (st : Storage) :
  shown_key s (loadApiKeys st)
  = if decide (s ∈ service_names) then
      (if truthy (localStorage st !! (s +:+ "_api_key"))
       then localStorage st !! (s +:+ "_api_key") else None)
    else None.
Proof.
  unfold loadApiKeys, storage.getGeminiApiKey, STORAGE_KEYS.GEMINI_API_KEY.
  rewrite !shown_key_app, !shown_key_stored. unfold service_names.
  destruct (decide (s ∈ _)) as [Hin|Hnin].
  - rewrite !elem_of_cons, elem_of_nil in Hin.
    destruct Hin as [->|[->|[->|[->|[]]]]];
      repeat case_decide; try discriminate; try congruence;
      cbv beta iota delta [String.append];
      destruct (localStorage st !! _) as [[|? ?]|]; reflexivity.
  - repeat case_decide; subst; try reflexivity;
      exfalso; apply Hnin; repeat constructor.
Qed.

(** [loadApiKeys] reads the four names only. *)
Lemma loadApiKeys_reads (st st' : Storage) :
  (forall s, s ∈ service_names ->
     localStorage st' !! (s +:+ "_api_key")
     = localStorage st !! (s +:+ "_api_key")) ->
  loadApiKeys st' = loadApiKeys st.
Proof.
  intros H. unfold loadApiKeys, storage.getGeminiApiKey,
    STORAGE_KEYS.GEMINI_API_KEY.
  pose proof (H "gemini" ltac:(repeat constructor)) as Hg.
  pose proof (H "openrouter" ltac:(repeat constructor)) as Ho.
  pose proof (H "groq" ltac:(repeat constructor)) as Hq.
  pose proof (H "together" ltac:(repeat constructor)) as Ht.
  cbv beta iota delta [String.append] in Hg, Ho, Hq, Ht.
  now rewrite Hg, Ho, Hq, Ht.
Qed.

Lemma handleDelete_cases (id service : string) (st : Storage) (m : Manager) :
  let st' := removeLocal (service +:+ "_api_key") st in
  handleDelete id service st m
  = (st', {| apiKeys := loadApiKeys st'; editingId := editingId m;
             newKey := newKey m |}).
Proof.
  unfold handleDelete. cbn. destruct (decide (service = "gemini")) as [->|];
    reflexivity.
Qed.

Lemma handleSave_cases (service key : string) (st : Storage) (m : Manager) :
  let st' := setLocal (service +:+ "_api_key") key st in
  handleSave service key st m
  = (st',
     {| apiKeys := loadApiKeys st'; editingId := None;
        newKey := ("gemini", "") |},
     if truthy (Some (trim key)) && bool_decide (service ∈ service_names)
     then Some {| key_id := service +:+ "-1"; key_service := service;
                  key_value := trim key;
                  isActive := bool_decide (service = "gemini");
                  key_status := None; checkingStatus := false |}
     else None).
Proof.
  unfold handleSave. cbn. destruct (decide (service = "gemini")) as [->|];
    reflexivity.
Qed.

Lemma truthy_Some (s : string) :
  truthy (Some s) = bool_decide (s <> "").
Proof. now destruct s. Qed.

(** X19. Saving a non-empty key for one of the four services makes the
    list show exactly that key for the service, untrimmed, and leaves what
    it shows for every other service as it was; the form is reset and no
    entry is being edited. A check of the key is scheduled exactly when
    the key has something other than white space, and it is a check of
    the trimmed key for the same service. *)
Theorem handleSave_lists_the_key (service key : string) (st : Storage)
    (m : Manager) :
  service ∈ service_names -> key <> "" ->
  let '(st', m', scheduled) := handleSave service key st m in
  shown_key service (apiKeys m') = Some key /\
  (forall other, other <> service ->
     shown_key other (apiKeys m') = shown_key other (loadApiKeys st)) /\
  sessionStorage st' = sessionStorage st /\
  editingId m' = None /\ newKey m' = ("gemini", "") /\
  match scheduled with
  | Some a =>
      trim key <> "" /\ key_id a = service +:+ "-1" /\
      key_service a = service /\ key_value a = trim key
  | None => trim key = ""
  end.
Proof.
  intros Hs Hk. rewrite handleSave_cases. cbn zeta.
  cbn [apiKeys editingId newKey]. repeat split.
  - rewrite shown_key_load, decide_True by exact Hs.
    unfold setLocal. cbn. rewrite lookup_insert_eq.
    now rewrite truthy_Some_ne.
  - intros other Hne. rewrite !shown_key_load.
    destruct (decide (other ∈ service_names)); [|reflexivity].
    unfold setLocal. cbn. rewrite lookup_insert_ne; [reflexivity|].
    intros H. apply append_cancel_r in H. congruence.
  - rewrite (bool_decide_true _ Hs), andb_true_r, truthy_Some.
    destruct (decide (trim key = "")) as [->|Hne]; [reflexivity|].
    now rewrite bool_decide_true.
Qed.

Lemma handleSave_lists_the_key_witness :
  shown_key "groq"
    (apiKeys (handleSave "groq" " gsk_1 " emptyStorage
                {| apiKeys := []; editingId := Some "groq-1";
                   newKey := ("groq", " gsk_1 ") |}).1.2) = Some " gsk_1 ".
Proof.
  pose proof (handleSave_lists_the_key "groq" " gsk_1 " emptyStorage
    {| apiKeys := []; editingId := Some "groq-1";
       newKey := ("groq", " gsk_1 ") |}) as H.
  destruct (handleSave _ _ _ _) as [[st' m'] scheduled].
  apply H; [unfold service_names; repeat constructor | discriminate].
Defined.

(** X20. Removing the key of a service makes the list show none for it
    and leaves what it shows for every other service as it was; the
    session storage, the form and the entry being edited are not touched,
    and the identifier passed along plays no part. *)
Theorem handleDelete_forgets_the_key (id service : string) (st : Storage)
    (m : Manager) :
  let '(st', m') := handleDelete id service st m in
  shown_key service (apiKeys m') = None /\
  (forall other, other <> service ->
     shown_key other (apiKeys m') = shown_key other (loadApiKeys st)) /\
  localStorage st' = delete (service +:+ "_api_key") (localStorage st) /\
  sessionStorage st' = sessionStorage st /\
  editingId m' = editingId m /\ newKey m' = newKey m.
Proof.
  rewrite handleDelete_cases. cbn zeta. cbn [apiKeys editingId newKey].
  unfold removeLocal. cbn [localStorage sessionStorage]. repeat split.
  - rewrite shown_key_load. destruct (decide _); [|reflexivity].
    cbn [localStorage]. now rewrite lookup_delete_eq.
  - intros other Hne. rewrite !shown_key_load.
    destruct (decide (other ∈ service_names)); [|reflexivity].
    cbn [localStorage]. rewrite lookup_delete_ne; [reflexivity|].
    intros H. apply append_cancel_r in H. congruence.
Qed.

Lemma stored_key_shape (st : Storage) (service : string) (active : bool) :
  service ∈ service_names ->
  active = bool_decide (service = "gemini") ->
  sublist (map key_service
             (stored_key service active
                (localStorage st !! (service +:+ "_api_key")))) [service] /\
  Forall (fun k =>
            key_id k = key_service k +:+ "-1" /\
            key_value k <> "" /\
            localStorage st !! (key_service k +:+ "_api_key")
              = Some (key_value k) /\
            isActive k = bool_decide (key_service k = "gemini") /\
            key_status k = None /\ checkingStatus k = false /\
            service_id (getServiceInfo (key_service k)) = key_service k)
    (stored_key service active (localStorage st !! (service +:+ "_api_key"))).
Proof.
  intros Hin ->. unfold stored_key.
  destruct (localStorage st !! _) as [[|c key]|] eqn:Hk; cbn [truthy].
  - split; [apply sublist_nil_l | constructor].
  - split; [reflexivity|]. repeat constructor; cbn; try done.
    unfold service_names in Hin. rewrite !elem_of_cons, elem_of_nil in Hin.
    destruct Hin as [->|[->|[->|[->|[]]]]]; reflexivity.
  - split; [apply sublist_nil_l | constructor].
Qed.

(** X21. The list [loadApiKeys] builds holds at most one entry per
    service, in the order Gemini, OpenRouter, Groq, Together. Each entry
    carries the non-empty text stored under its service's name, the
    identifier made of the service and [-1], no status and no check under
    way; the Gemini entry alone is marked active; and [getServiceInfo]
    finds the entry's own service for it. *)
Theorem loadApiKeys_shape (st : Storage) :
  sublist (map key_service (loadApiKeys st)) service_names /\
  Forall (fun k =>
            key_id k = key_service k +:+ "-1" /\
            key_value k <> "" /\
            localStorage st !! (key_service k +:+ "_api_key")
              = Some (key_value k) /\
            isActive k = bool_decide (key_service k = "gemini") /\
            key_status k = None /\ checkingStatus k = false /\
            service_id (getServiceInfo (key_service k)) = key_service k)
    (loadApiKeys st).
Proof.
  unfold loadApiKeys, storage.getGeminiApiKey, STORAGE_KEYS.GEMINI_API_KEY.
  destruct (stored_key_shape st "gemini" true) as [S1 F1];
    [repeat constructor | reflexivity |].
  destruct (stored_key_shape st "openrouter" false) as [S2 F2];
    [repeat constructor | reflexivity |].
  destruct (stored_key_shape st "groq" false) as [S3 F3];
    [repeat constructor | reflexivity |].
  destruct (stored_key_shape st "together" false) as [S4 F4];
    [repeat constructor | reflexivity |].
  cbv beta iota delta [String.append] in S1, S2, S3, S4, F1, F2, F3, F4.
  split.
  - rewrite !map_app.
    change service_names
      with (["gemini"] ++ ["openrouter"] ++ ["groq"] ++ ["together"]).
    repeat apply sublist_app; assumption.
  - rewrite !Forall_app. repeat split; assumption.
Qed.

Lemma same_key_withStatus (a k : ApiKey) (status : option ApiKeyStatus)
    (checking : bool) :
  same_key a (withStatus status checking k) = same_key a k.
Proof. reflexivity. Qed.

Lemma checkApiKeyStatus_map (a : ApiKey)
    (answer : option string + ApiKeyStatus) (keys : list ApiKey) :
  checkApiKeyStatus a answer keys
  = map (fun k =>
           if same_key a k then
             withStatus
               (Some match answer with
                     | inr status => status
                     | inl detail => errorStatus a detail
                     end) false k
           else k) keys.
Proof.
  unfold checkApiKeyStatus, mark_checking, record_status.
  destruct answer as [detail|status]; rewrite map_map; apply map_ext;
    intros k; destruct (same_key a k) eqn:Hk;
    rewrite ?same_key_withStatus, Hk; reflexivity.
Qed.

Lemma same_key_by_service (a k : ApiKey) :
  key_id a = key_service a +:+ "-1" ->
  key_id k = key_service k +:+ "-1" ->
  same_key a k = bool_decide (key_service k = key_service a).
Proof.
  intros Ha Hk. unfold same_key. rewrite Ha, Hk.
  repeat case_bool_decide; cbn; try reflexivity; try congruence;
    match goal with
    | H : _ +:+ _ = _ +:+ _ |- _ => apply append_cancel_r in H; congruence
    end.
Qed.

Lemma loadApiKeys_ids (st : Storage) :
  Forall (fun k => key_id k = key_service k +:+ "-1") (loadApiKeys st).
Proof.
  unfold loadApiKeys, stored_key.
  rewrite !Forall_app. repeat split;
    destruct (truthy _); repeat constructor.
Qed.

(** X22. A check of an entry whose identifier is its service followed by
    [-1], as the entries of the list and the one [handleSave] schedules
    are, lands on the list's entry for that service and on no other,
    whether or not the keys agree: once the request is settled that entry
    carries the status and is no longer marked as being checked, and
    every other entry is as it was. A rejected request leaves a status
    that is not valid, lists no models and carries a non-empty message:
    the detail of the response if it has a non-empty one. *)
Theorem checkApiKeyStatus_lands_on_service (a : ApiKey)
    (answer : option string + ApiKeyStatus) (st : Storage) :
  key_id a = key_service a +:+ "-1" ->
  let status := match answer with
                | inr status => status
                | inl detail => errorStatus a detail
                end in
  checkApiKeyStatus a answer (loadApiKeys st)
  = map (fun k => if decide (key_service k = key_service a)
                  then withStatus (Some status) false k else k)
      (loadApiKeys st) /\
  (forall detail, answer = inl detail ->
     is_valid status = false /\ available_models status = [] /\
     truthy (status_error status) = true /\
     (truthy detail = true -> status_error status = detail)).
Proof.
  intros Ha status. split.
  - rewrite checkApiKeyStatus_map. apply map_ext_Forall.
    eapply Forall_impl; [apply loadApiKeys_ids|]. cbn beta.
    intros k Hk. rewrite (same_key_by_service a k Ha Hk).
    now rewrite decide_bool_decide.
  - intros detail ->. subst status. cbn. unfold js_or.
    destruct (truthy detail) eqn:Hd; repeat split; try done.
Qed.

Lemma checkApiKeyStatus_lands_on_service_witness :
  let a := {| key_id := "groq-1"; key_service := "groq";
              key_value := "gsk_1"; isActive := false;
              key_status := None; checkingStatus := false |} in
  let st := setLocal "groq_api_key" " gsk_1 "
              (setLocal "gemini_api_key" "AIza" emptyStorage) in
  map (fun k => (key_service k, is_valid <$> key_status k))
    (checkApiKeyStatus a (inl None) (loadApiKeys st))
  = [("gemini", None); ("groq", Some false)].
Proof.
  cbv zeta.
  rewrite (proj1 (checkApiKeyStatus_lands_on_service
    {| key_id := "groq-1"; key_service := "groq"; key_value := "gsk_1";
       isActive := false; key_status := None; checkingStatus := false |}
    (inl None)
    (setLocal "groq_api_key" " gsk_1 "
       (setLocal "gemini_api_key" "AIza" emptyStorage))
    eq_refl)).
  vm_compute. reflexivity.
Defined.

(** X23. [handleAdd] does nothing while the key of the form is empty or
    white space only. Otherwise it stores the trimmed key under the
    service of the form and resets the form; for one of the four services
    the list then shows the trimmed key, and the check that is scheduled
    is a check of exactly the key that was stored. For any other service
    nothing is scheduled and the list is as loaded before. *)
Theorem handleAdd_stores_trimmed (st : Storage) (m : Manager) :
  let service := fst (newKey m) in
  let key := trim (snd (newKey m)) in
  let '(st', m', scheduled) := handleAdd st m in
  if decide (key = "") then st' = st /\ m' = m /\ scheduled = None
  else
    st' = setLocal (service +:+ "_api_key") key st /\
    newKey m' = ("gemini", "") /\ editingId m' = None /\
    (service ∈ service_names ->
       shown_key service (apiKeys m') = Some key /\
       exists a, scheduled = Some a /\ key_service a = service /\
                 key_value a = key /\ key_id a = service +:+ "-1") /\
    (service ∉ service_names ->
       scheduled = None /\ apiKeys m' = loadApiKeys st).
Proof.
  cbv zeta. unfold handleAdd. rewrite truthy_Some.
  destruct (decide (trim (newKey m).2 = "")) as [He|Hne].
  - rewrite bool_decide_false by tauto. tauto.
  - rewrite bool_decide_true by exact Hne.
    rewrite handleSave_cases. cbn zeta. cbn [apiKeys editingId newKey].
    rewrite trim_idempotent, truthy_Some, bool_decide_true by exact Hne.
    repeat split.
    + rewrite shown_key_load, decide_True by assumption.
      unfold setLocal. cbn [localStorage]. rewrite lookup_insert_eq.
      now rewrite truthy_Some_ne.
    + rewrite bool_decide_true by assumption. cbn. eauto.
    + now rewrite bool_decide_false.
    + apply loadApiKeys_reads. intros s Hs.
      unfold setLocal. cbn [localStorage]. apply lookup_insert_ne.
      intros E. apply append_cancel_r in E. congruence.
Qed.

Example handleAdd_demo :
  let m := {| apiKeys := []; editingId := None;
              newKey := ("groq", "  gsk_1 ") |} in
  shown_key "groq" (apiKeys (handleAdd emptyStorage m).1.2) = Some "gsk_1" /\
  (key_value <$> (handleAdd emptyStorage m).2) = Some "gsk_1".
Proof. vm_compute. split; reflexivity. Qed.

Lemma js_substring_prefix {A} (s : list A) (n : Z) :
  0 <= n -> js_substring s 0 (Some n) = take (Z.to_nat n) s.
Proof.
  intros Hn. unfold js_substring. cbn [default]. unfold id.
  set (len := Z.of_nat (length s)).
  assert (Hlen : 0 <= len) by (subst len; lia).
  match goal with
  | |- take (Z.to_nat ?t) (drop (Z.to_nat ?f) s) = _ =>
      replace t with (Z.min n len) by lia; replace f with 0 by lia
  end.
  change (Z.to_nat 0) with 0%nat. rewrite drop_0.
  destruct (Z.le_gt_cases n len) as [Hle|Hgt].
  - now rewrite Z.min_l.
  - rewrite Z.min_r by lia. subst len. rewrite Nat2Z.id.
    rewrite firstn_all. symmetry. apply take_ge. lia.
Qed.

Lemma js_substring_suffix {A} (s : list A) (k : Z) :
  js_substring s k None = drop (Z.to_nat k) s.
Proof.
  unfold js_substring. cbn [default].
  set (len := Z.of_nat (length s)).
  assert (Hlen : 0 <= len) by (subst len; lia).
  match goal with
  | |- take (Z.to_nat ?t) (drop (Z.to_nat ?f) s) = _ =>
      replace t with (len - Z.min (Z.max k 0) len) by lia;
      replace f with (Z.min (Z.max k 0) len) by lia
  end.
  rewrite take_ge by (rewrite length_drop; subst len; lia).
  destruct (Z.le_gt_cases k len) as [Hle|Hgt].
  - f_equal. lia.
  - rewrite Z.min_r by lia. subst len. rewrite Nat2Z.id.
    rewrite !drop_ge; [reflexivity | lia | lia].
Qed.

(** X24. The preview of a key, counted as JavaScript counts it: a key of
    at most twelve code units is shown whole, before the dots, followed
    by its last four units once more (all of it, when it has fewer); of
    a key of sixteen code units or more the first twelve and the last
    four are shown and everything between them is left out. *)
Theorem key_preview_parts (key : list N) :
  ((length key <= 12)%nat ->
     key_preview key = key ++ dots ++ drop (length key - 4) key) /\
  ((16 <= length key)%nat ->
     exists first hidden last,
       key = first ++ hidden ++ last /\
       length first = 12%nat /\ length last = 4%nat /\
       length hidden = (length key - 16)%nat /\
       key_preview key = first ++ dots ++ last).
Proof.
  unfold key_preview.
  rewrite js_substring_prefix, js_substring_suffix by lia.
  replace (Z.to_nat (Z.of_nat (length key) - 4)) with (length key - 4)%nat
    by lia.
  change (Z.to_nat 12) with 12%nat. split; intros Hlen.
  - now rewrite take_ge.
  - exists (take 12 key), (take (length key - 16) (drop 12 key)),
      (drop (length key - 4) key).
    split; [|rewrite !length_take, !length_drop; repeat split; lia].
    rewrite <- (take_drop 12 key) at 1. f_equal.
    rewrite <- (take_drop (length key - 16) (drop 12 key)) at 1. f_equal.
    rewrite drop_drop. f_equal. lia.
Qed.

Example key_preview_examples :
  key_preview (ascii_units "AIzaSyA1234567890abcdefXYZ")
    = ascii_units "AIzaSyA12345...fXYZ" /\
  key_preview (ascii_units "short") = ascii_units "short...hort" /\
  key_preview (ascii_units "abc") = ascii_units "abc...abc".
Proof. vm_compute. repeat split. Qed.

(** ** Submitting a video, path by path *)




(** ** The progress the polls observe *)

Lemma follows_refl (a : JobStatusResponse) : follows a a.
Proof. split; [lia | auto]. Qed.

Lemma follows_trans (a b c : JobStatusResponse) :
  follows a b -> follows b c -> follows a c.
Proof.
  intros [Hab Eab] [Hbc Ebc]. split; [lia|].
  intros Ht. rewrite (Eab Ht) in *. auto.
Qed.

Lemma taken_before_exec (op : JobManager.Op) (srv : JobManager.Server)
    (a : JobStatusResponse) :
  server_ok srv -> taken_before srv a ->
  taken_before (JobManager.exec op srv) a.
Proof.
  intros Hok (n & j & Hid & Hl & Hf).
  destruct (exec_grows op srv n j Hok Hl) as (j' & Hl' & Hp & Ht).
  exists n, j'. split; [exact Hid|]. split; [exact Hl'|].
  destruct Hf as [Hle Heq]. split.
  - cbn [progress job_status] in *. lia.
  - intros Hterm. pose proof (Heq Hterm) as E.
    assert (Hj : terminal (JobManager.status j) = true).
    { apply (f_equal status) in E. cbn [status job_status] in E.
      now rewrite E. }
    now rewrite (Ht Hj).
Qed.

Lemma taken_now (srv : JobManager.Server) (n : nat) (j : JobManager.Job)
    (a : JobStatusResponse) :
  JobManager.jobs srv !! n = Some j -> taken_before srv a ->
  job_id a = job_id (job_status n j) -> follows a (job_status n j).
Proof.
  intros Hl (n' & j' & Hid & Hl' & Hf) E. cbn [job_id job_status] in E.
  rewrite Hid in E. apply (inj pretty) in E. subst n'.
  rewrite Hl in Hl'. now injection Hl' as <-.
Qed.

Lemma arrive_fields (call : nat) (r : AxiosError + JobStatusResponse)
    (sys sys' : System) :
  arrive call r sys = Some sys' ->
  server sys' = server sys /\ served sys' = served sys /\
  replies sys' = replies sys /\
  seen sys' = seen sys ++ match r with inr a => [a] | inl _ => [] end /\
  step (match r with
        | inr a => Resolve call a
        | inl _ => Reject call
        end) (client sys) = Some (client sys').
Proof.
  unfold arrive. destruct r as [e|a].
  - destruct (step (Reject call) (client sys)) as [h|]; [|discriminate].
    intros [= <-]. cbn. now rewrite app_nil_r.
  - destruct (step (Resolve call a) (client sys)) as [h|]; [|discriminate].
    intros [= <-]. cbn. auto.
Qed.

Lemma served_in_order_step (e : SystemEvent) (sys sys' : System) :
  served_in_order sys -> system_step e sys = Some sys' ->
  served_in_order sys'.
Proof.
  intros (Hok & Hs & Hf) Hstep.
  destruct e as [op|j en|id|c n| |c|c];
    cbv beta iota delta [system_step] in Hstep.
  - injection Hstep as <-. split; [now apply exec_ok|]. split; [exact Hs|].
    cbn. eapply Forall_impl; [exact Hf|]. intros a.
    now apply taken_before_exec.
  - destruct (step _ _); [|discriminate]. injection Hstep as <-.
    now split.
  - destruct (step _ _); [|discriminate]. injection Hstep as <-.
    now split.
  - destruct (decide _); [|discriminate]. injection Hstep as <-.
    split; [exact Hok|]. cbn [served server].
    unfold get_job_status, JobManager.getStatus.
    destruct (JobManager.jobs (server sys) !! n) as [j|] eqn:Hl; cbn.
    + split.
      * apply StronglySorted_app_2; [|exact Hs | repeat constructor].
        intros x y Hx Hy E. apply list_elem_of_singleton in Hy. subst y.
        rewrite Forall_forall in Hf.
        apply (taken_now (server sys)); auto.
      * apply Forall_app. split; [exact Hf|]. constructor; [|constructor].
        exists n, j. split; [reflexivity|]. split; [exact Hl|].
        apply follows_refl.
    + rewrite app_nil_r. now split.
  - destruct (replies sys) as [|[c r] rest]; [discriminate|].
    apply arrive_fields in Hstep as (Hsrv & Hsd & _). cbn in Hsrv, Hsd.
    unfold served_in_order. now rewrite Hsrv, Hsd.
  - destruct (list_find _ _) as [[i [c' r]]|]; [|discriminate].
    apply arrive_fields in Hstep as (Hsrv & Hsd & _). cbn in Hsrv, Hsd.
    unfold served_in_order. now rewrite Hsrv, Hsd.
  - destruct (step _ _); [|discriminate]. injection Hstep as <-.
    now split.
Qed.

Lemma answers_others (call : nat)
    (rs : list (nat * (AxiosError + JobStatusResponse))) :
  answers (others call rs) `sublist_of` answers rs.
Proof.
  unfold answers, others. induction rs as [|[c r] rs IH]; [constructor|].
  rewrite filter_cons. destruct (decide _); cbn.
  - destruct r; [exact IH | now constructor].
  - destruct r; [exact IH | now constructor].
Qed.

(** As long as no answer overtakes another, what the hook has stored and
    what is still on its way are, in this order, statuses the server
    answered with, in the order it gave them. *)
Lemma in_order_step (e : SystemEvent) (sys sys' : System) :
  is_overtake e = false -> system_step e sys = Some sys' ->
  (seen sys ++ answers (replies sys)) `sublist_of` served sys ->
  (seen sys' ++ answers (replies sys')) `sublist_of` served sys'.
Proof.
  intros He Hstep Hsub.
  destruct e as [op|j en|id|c n| |c|c];
    cbv beta iota delta [system_step] in Hstep; try discriminate He.
  - injection Hstep as <-. exact Hsub.
  - destruct (step _ _); [|discriminate]. injection Hstep as <-. exact Hsub.
  - destruct (step _ _); [|discriminate]. injection Hstep as <-. exact Hsub.
  - destruct (decide _); [|discriminate]. injection Hstep as <-.
    cbn [seen replies served]. unfold answers. rewrite omap_app.
    fold (answers (replies sys)). rewrite app_assoc.
    apply sublist_app; [exact Hsub|]. cbn.
    destruct (settle _); reflexivity.
  - destruct (replies sys) as [|[c r] rest] eqn:Hr; [discriminate|].
    apply arrive_fields in Hstep as (_ & -> & -> & -> & _).
    cbn [replies with_replies seen served].
    destruct r; cbn in Hsub |- *;
      [now rewrite app_nil_r | now rewrite <- app_assoc].
  - destruct (step _ _); [|discriminate].
    injection Hstep as <-. cbn [seen replies served with_client with_replies].
    etransitivity; [|exact Hsub].
    apply sublist_app; [reflexivity | apply answers_others].
Qed.

Lemma step_jobStatus (e : Event) (h h' : Hook) :
  step e h = Some h' ->
  jobStatus h' = match e with
                 | Resolve _ a => Some a
                 | _ => jobStatus h
                 end.
Proof.
  destruct e as [j en|id|c a|c]; cbn; intros Hstep.
  - injection Hstep as <-. unfold effect.
    destruct (negb (truthy j) || negb en); cbn;
      destruct (cleanup h); try reflexivity;
      now destruct (clearCurrent_fields h) as (-> & _).
  - destruct (intervals h !! id); [|discriminate]. now injection Hstep as <-.
  - destruct (pending h !! c); [|discriminate]. injection Hstep as <-.
    apply resolved_jobStatus.
  - destruct (pending h !! c); [|discriminate]. injection Hstep as <-.
    unfold rejected.
    now destruct (clearCurrent_fields (setIsPolling false (forget c h)))
      as (-> & _).
Qed.

(** The status the hook shows is the one it stored last. *)
Lemma shown_step (e : SystemEvent) (sys sys' : System) :
  system_step e sys = Some sys' ->
  jobStatus (client sys) = last (seen sys) ->
  jobStatus (client sys') = last (seen sys').
Proof.
  intros Hstep Hshown.
  assert (Harrive : forall c r s0,
    jobStatus (client s0) = last (seen s0) ->
    arrive c r s0 = Some sys' -> jobStatus (client sys') = last (seen sys')).
  { intros c r s0 H0 Ha.
    apply arrive_fields in Ha as (_ & _ & _ & -> & Hc).
    apply step_jobStatus in Hc. rewrite Hc.
    destruct r; [now rewrite app_nil_r | now rewrite last_snoc]. }
  destruct e as [op|j en|id|c n| |c|c];
    cbv beta iota delta [system_step] in Hstep.
  - injection Hstep as <-. exact Hshown.
  - destruct (step _ _) as [h|] eqn:Hh; [|discriminate].
    injection Hstep as <-. apply step_jobStatus in Hh. cbn. congruence.
  - destruct (step (Tick id) _) as [h|] eqn:Hh; [|discriminate].
    injection Hstep as <-. apply step_jobStatus in Hh. cbn. congruence.
  - destruct (decide _); [|discriminate]. injection Hstep as <-. exact Hshown.
  - destruct (replies sys) as [|[c r] rest]; [discriminate|].
    eapply Harrive; [|exact Hstep]. exact Hshown.
  - destruct (list_find _ _) as [[i [c' r]]|]; [|discriminate].
    eapply Harrive; [|exact Hstep]. exact Hshown.
  - destruct (step (Reject c) _) as [h|] eqn:Hh; [|discriminate].
    injection Hstep as <-. apply step_jobStatus in Hh. cbn. congruence.
Qed.

Lemma system_run_facts (evs : list SystemEvent) (sys sys' : System) :
  system_run evs sys = Some sys' ->
  served_in_order sys -> jobStatus (client sys) = last (seen sys) ->
  served_in_order sys' /\ jobStatus (client sys') = last (seen sys') /\
  (forallb (fun e => negb (is_overtake e)) evs = true ->
   (seen sys ++ answers (replies sys)) `sublist_of` served sys ->
   (seen sys' ++ answers (replies sys')) `sublist_of` served sys').
Proof.
  revert sys. induction evs as [|e evs IH]; intros sys Hrun Hs Hshown.
  - injection Hrun as <-. auto.
  - cbn in Hrun. destruct (system_step e sys) as [sys1|] eqn:Hstep;
      [|discriminate].
    destruct (IH sys1 Hrun (served_in_order_step _ _ _ Hs Hstep)
                (shown_step _ _ _ Hstep Hshown)) as (H1 & H2 & H3).
    split; [exact H1|]. split; [exact H2|].
    intros Hno Hsub. cbn in Hno. apply andb_true_iff in Hno as [He Hno].
    apply negb_true_iff in He.
    apply H3; [exact Hno|]. eapply in_order_step; eauto.
Qed.

Lemma sorted_non_decreasing (l : list JobStatusResponse) :
  StronglySorted (fun a b => job_id a = job_id b -> follows a b) l ->
  non_decreasing l.
Proof.
  intros HS i j a b Hij Ha Hb.
  exact (StronglySorted_lookup_lt _ l i j a b HS Ha Hb Hij).
Qed.

(** C2, as the code has it. For a server started empty and a hook
    started fresh, whatever the two go through: the statuses the server
    answers the polls with have, job by job and in the order in which it
    gives them, a progress that never decreases, and nothing changes any
    more after a terminal one. The hook shows each status when it
    arrives (what it shows is always the one stored last), so what it
    shows has the same property as long as the answers arrive in the
    order in which they were given, which holds in particular when every
    call is answered before the next one is made: the statuses stored
    are then among those given, in the same order. *)
Theorem progress_never_decreases (configured : list string)
    (evs : list SystemEvent) (sys : System) :
  system_run evs (initialSystem configured) = Some sys ->
  jobStatus (client sys) = last (seen sys) /\
  non_decreasing (served sys) /\
  (forallb (fun e => negb (is_overtake e)) evs = true ->
     seen sys `sublist_of` served sys /\ non_decreasing (seen sys)).
Proof.
  intros Hrun.
  destruct (system_run_facts evs _ sys Hrun) as ((_ & HS & _) & Hshown & Hord).
  { split; [apply emptyServer_ok|]. split; constructor. }
  { reflexivity. }
  split; [exact Hshown|]. split; [now apply sorted_non_decreasing|].
  intros Hno. specialize (Hord Hno). cbn in Hord. specialize (Hord (sublist_nil_l _)).
  assert (Hsub : seen sys `sublist_of` served sys).
  { etransitivity; [|exact Hord]. apply sublist_inserts_r. reflexivity. }
  split; [exact Hsub|].
  apply sorted_non_decreasing. eapply sublist_StronglySorted; eauto.
Qed.

Lemma progress_never_decreases_witness :
  exists sys,
    system_run demo_polling (initialSystem ["gemini"]) = Some sys /\
    map progress (seen sys) = [0; 33; 100] /\
    jobStatus (client sys) = last (seen sys) /\
    non_decreasing (served sys) /\
    (forallb (fun e => negb (is_overtake e)) demo_polling = true ->
       seen sys `sublist_of` served sys /\ non_decreasing (seen sys)).
Proof.
  destruct (system_run demo_polling (initialSystem ["gemini"]))
    as [sys|] eqn:Hrun; [|vm_compute in Hrun; discriminate Hrun].
  exists sys. split; [reflexivity|].
  pose proof (progress_never_decreases ["gemini"] demo_polling sys Hrun) as Hw.
  vm_compute in Hrun. injection Hrun as <-.
  split; [reflexivity | exact Hw].
Defined.

(** C2 as stated does not hold of what the hook observes. Two calls for
    the same job are out at once; the server answers the first with
    progress 33 and the second with progress 66, and the second answer
    arrives first: the hook stores 66 and then 33, and goes on showing
    33. *)
Lemma late_answer_lowers_progress :
  match system_run demo_overtaking (initialSystem ["gemini"]) with
  | Some sys =>
      map progress (served sys) = [33; 66] /\
      map job_id (seen sys) = ["0"; "0"] /\
      map status (seen sys) = [Processing; Processing] /\
      map progress (seen sys) = [66; 33] /\
      (progress <$> jobStatus (client sys)) = Some 33 /\
      ~ non_decreasing (seen sys)
  | None => False
  end.
Proof.
  destruct (system_run demo_overtaking (initialSystem ["gemini"]))
    as [sys|] eqn:Hrun; [|vm_compute in Hrun; discriminate Hrun].
  vm_compute in Hrun. injection Hrun as <-.
  do 5 (split; [reflexivity|]).
  intros H.
  destruct (H 0%nat 1%nat _ _ ltac:(lia) eq_refl eq_refl eq_refl) as [Hle _].
  vm_compute in Hle. now apply Hle.
Qed.
